(** * asn1tools: the command line interface and the pinned benchmark encodings

    A shallow embedding of [asn1tools/__init__.py] (the [convert] and
    [shell] subcommands, their argument parsers and the entry point
    [_main]) and of the encoded constants of
    [examples/benchmarks/codecs.py].

    Conventions.
    - A Python [str] is a [string] of code points below 256, a [bytes]
      object a [list byte].
    - Printing, reading, the history file and the logging configuration are
      fields of an explicit [World]; a Python function with effects is a
      function [World -> Result A * World].
    - An exception is a value [Exc] with its class and the text [str(e)];
      [except C] is [isinstance e C] over the class hierarchy.
    - The parser, the compiler and the codecs ([parse_files],
      [compile_dict], [Specification.encode], [Specification.decode]) live
      in other modules of the package; they are the operations of the class
      [Asn1Tools] and every statement holds for every implementation of it.
    - [argparse], [binascii], [logging], [os.path] and [prompt_toolkit] are
      libraries; the fragment that the program exercises is modelled in the
      modules of the same names below. *)

From Stdlib Require Import ZArith Lia Bool Ascii String List.
From Stdlib.Strings Require Import Byte.
From stdpp Require Import gmap strings list pretty.
Import ListNotations.

(** ** Python built-ins on [str] and [bytes] *)

Module py.

Definition code (c : ascii) : N := N_of_ascii c.

(** [str.isspace] on one character: TAB..CR, FS..US, SPACE, NEL and NBSP. *)
Definition isspace (c : ascii) : bool :=
  let n := code c in
  ((9 <=? n) && (n <=? 13) || (28 <=? n) && (n <=? 32)
   || (n =? 133) || (n =? 160))%N.

(** The whitespace of [bytes.strip()]: SPACE and TAB..CR. *)
Definition isspace_bytes (c : ascii) : bool :=
  let n := code c in ((9 <=? n) && (n <=? 13) || (n =? 32))%N.

Definition isdigit (c : ascii) : bool :=
  let n := code c in ((48 <=? n) && (n <=? 57))%N.

Fixpoint lstrip_with (drop : ascii -> bool) (l : list ascii) : list ascii :=
  match l with
  | [] => []
  | c :: l' => if drop c then lstrip_with drop l' else l
  end.

Definition strip_with (drop : ascii -> bool) (s : string) : string :=
  string_of_list_ascii
    (rev (lstrip_with drop (rev (lstrip_with drop (list_ascii_of_string s))))).

Definition in_chars (chars : list ascii) (c : ascii) : bool :=
  existsb (Ascii.eqb c) chars.

(** [s.strip(chars)] *)
Definition strip_chars (chars : list ascii) (s : string) : string :=
  strip_with (in_chars chars) s.

(** [s.strip()] *)
Definition strip (s : string) : string := strip_with isspace s.

(** [s.startswith(p)] *)
Definition startswith (s p : string) : bool := String.prefix p s.

(** [c in s] for a single character [c] *)
Definition contains (c : ascii) (s : string) : bool :=
  existsb (Ascii.eqb c) (list_ascii_of_string s).

Fixpoint split_words (l word : list ascii) : list (list ascii) :=
  match l with
  | [] => match word with [] => [] | _ => [rev word] end
  | c :: l' =>
      if isspace c
      then match word with
           | [] => split_words l' []
           | _ => rev word :: split_words l' []
           end
      else split_words l' (c :: word)
  end.

(** [s.split()]: the maximal runs of characters that are not whitespace. *)
Definition split (s : string) : list string :=
  map string_of_list_ascii (split_words (list_ascii_of_string s) []).

Fixpoint split_at (sep : ascii) (l : list ascii) : option (list ascii * list ascii) :=
  match l with
  | [] => None
  | c :: l' =>
      if Ascii.eqb c sep then Some ([], l')
      else match split_at sep l' with
           | Some (a, b) => Some (c :: a, b)
           | None => None
           end
  end.

(** [s.split(sep, 1)] when [sep in s], [None] when it is not. *)
Definition split_once (sep : ascii) (s : string) : option (string * string) :=
  match split_at sep (list_ascii_of_string s) with
  | Some (a, b) => Some (string_of_list_ascii a, string_of_list_ascii b)
  | None => None
  end.

(** [s[i:]] and [s[:i]] for [0 <= i] *)
Definition slice_from (i : nat) (s : string) : string :=
  string_of_list_ascii (skipn i (list_ascii_of_string s)).
Definition slice_to (i : nat) (s : string) : string :=
  string_of_list_ascii (firstn i (list_ascii_of_string s)).

(** [l[i]]: a negative index counts from the end; [None] is [IndexError]. *)
Definition getitem {A} (l : list A) (i : Z) : option A :=
  if (i <? 0)%Z
  then (if (i + Z.of_nat (length l) <? 0)%Z then None
        else l !! Z.to_nat (i + Z.of_nat (length l)))
  else l !! Z.to_nat i.

(** [b.decode('latin-1')] and back: one character per octet. *)
Definition decode_latin1 (b : list byte) : string := string_of_list_byte b.
Definition bytes_strip (b : list byte) : list byte :=
  list_byte_of_string (strip_with isspace_bytes (string_of_list_byte b)).

Fixpoint digits_value (acc : Z) (l : list ascii) : Z :=
  match l with
  | [] => acc
  | c :: l' => digits_value (10 * acc + Z.of_N (code c - 48)) l'
  end.

(** The digit groups of an integer literal: digits, single underscores
    only between digits.  [prev] tells whether the previous character was a
    digit. *)
Fixpoint int_digits (prev : bool) (l : list ascii) : option (list ascii) :=
  match l with
  | [] => if prev then Some [] else None
  | c :: l' =>
      if isdigit c then option_map (cons c) (int_digits true l')
      else if Ascii.eqb c "_" then
        (if prev then int_digits false l' else None)
      else None
  end.

(** [int(s)] for a [str] in base ten: surrounding whitespace, one optional
    sign, decimal digits.  [None] is [ValueError]. *)
Definition int (s : string) : option Z :=
  match list_ascii_of_string (strip s) with
  | "-"%char :: l => option_map (fun d => (- digits_value 0 d)%Z) (int_digits false l)
  | "+"%char :: l => option_map (digits_value 0) (int_digits false l)
  | l => option_map (digits_value 0) (int_digits false l)
  end.

End py.

(** ** The pinned UPER encoding, [examples/benchmarks/codecs.py] *)

Definition ENCODED_MESSAGE_UPER : list byte :=
  [x04; x81; x3f; xbe; x2a; x64; x12; xb2; xf3; x3a; x24; x2a; x80; x02; x02; x9b;
   x29; x8a; x7f; xf8; x24; x00; x00; x11; x00; x24; xe2; x08; x05; x06; xc3; xc4;
   x76; x92; x81; x41; x00; xc0; x00; x00; x0b; x23; xfd; x10; x80; xca; x19; x82;
   x80; x48; xd1; x59; xe2; x43; xa0; x1a; x20; x23; x34; x12; x34; x32; x12; x48;
   xcf; x10; xa8; x6a; x4c; x04; x48].

(** ** Exceptions *)

(** The exception classes the program names or can meet.  [Error] and its
    subclasses are the package's own ([asn1tools.errors],
    [asn1tools.parser]); [ArgumentParserError] is declared in
    [__init__.py] as a subclass of [Error]. *)
Inductive ExcClass :=
| BaseException | SystemExit | KeyboardInterrupt
| Exception | TypeError | ValueError | BinasciiError | IndexError
| AttributeError | EOFError | OSError
| Error | ParseError | CompileError | EncodeError | DecodeError
| ConstraintsError | ArgumentParserError.

Global Instance ExcClass_eq_dec : EqDecision ExcClass.
Proof. solve_decision. Defined.

(** Modelled from the spec: [asn1tools/errors.py] is not among the sources;
    the spec lists ParseError, CompileError, EncodeError, DecodeError and
    ConstraintsError as the kinds of one error family, which the package
    roots in [Error], an ordinary [Exception]. *)
Definition base (c : ExcClass) : option ExcClass :=
  match c with
  | BaseException => None
  | SystemExit | KeyboardInterrupt | Exception => Some BaseException
  | TypeError | ValueError | IndexError | AttributeError | EOFError
  | OSError | Error => Some Exception
  | BinasciiError => Some ValueError
  | ParseError | CompileError | EncodeError | DecodeError
  | ConstraintsError | ArgumentParserError => Some Error
  end.

Fixpoint ancestors (depth : nat) (c : ExcClass) : list ExcClass :=
  c :: match depth, base c with
       | S d, Some b => ancestors d b
       | _, _ => []
       end.

Definition issubclass (c d : ExcClass) : bool :=
  bool_decide (d ∈ ancestors 3 c).

(** An exception object: its class, [str(e)], and for a [SystemExit] raised
    with an integer status, that status. *)
Record Exc := mkExc {
  exc_class : ExcClass;
  exc_str : string;
  exc_code : option Z;
}.

Definition exception (c : ExcClass) (msg : string) : Exc := mkExc c msg None.

Definition isinstance (e : Exc) (c : ExcClass) : bool :=
  issubclass (exc_class e) c.

(** ** [binascii] *)

Module binascii.

Definition hex_value (c : ascii) : option N :=
  let n := py.code c in
  if ((48 <=? n) && (n <=? 57))%N then Some (n - 48)%N
  else if ((97 <=? n) && (n <=? 102))%N then Some (n - 87)%N
  else if ((65 <=? n) && (n <=? 70))%N then Some (n - 55)%N
  else None.

Fixpoint a2b_hex (l : list ascii) : option (list byte) :=
  match l with
  | [] => Some []
  | [_] => None
  | h :: lo :: l' =>
      match hex_value h, hex_value lo, a2b_hex l' with
      | Some a, Some b, Some r => Some (byte_of_ascii (ascii_of_N (16 * a + b)) :: r)
      | _, _, _ => None
      end
  end.

(** [unhexlify] of a [str]: the characters must be ASCII, of even number,
    and hexadecimal digits. *)
Definition unhexlify (hexstring : string) : Exc + list byte :=
  let l := list_ascii_of_string hexstring in
  if existsb (fun c => (128 <=? py.code c)%N) l
  then inl (exception ValueError "string argument should contain only ASCII characters")
  else if Nat.odd (length l) then inl (exception BinasciiError "Odd-length string")
  else match a2b_hex l with
       | Some b => inr b
       | None => inl (exception BinasciiError "Non-hexadecimal digit found")
       end.

Definition hex_digit (n : N) : ascii :=
  if (n <? 10)%N then ascii_of_N (48 + n) else ascii_of_N (87 + n).

Definition hexlify (data : list byte) : list byte :=
  flat_map (fun b => let n := Byte.to_N b in
                     [byte_of_ascii (hex_digit (n / 16)); byte_of_ascii (hex_digit (n mod 16))])
           data.

End binascii.

(** ** The world a run acts on *)

(** What the program writes, one item per [print] or library message. *)
Inductive Out :=
| line (s : string)          (* print(s) *)
| usage (prog : string)      (* parser.print_usage() *)
| help_text (prog : string)  (* parser.print_help() *)
| exit_message (s : string)  (* the message argparse writes before exiting *)
| traceback (e : Exc).       (* the interpreter's report of an uncaught exception *)

(** The calls made into the rest of the package, in order. *)
Inductive Call :=
| call_parse_files (specifications : list string)
| call_compile_dict (codec : string)
| call_decode (type_name : string) (data : list byte)
| call_encode (type_name : string).

Record World := mkWorld {
  stdout : list Out;
  stderr : list Out;
  stdin : list string;               (* the unread lines of sys.stdin *)
  terminal : list string;            (* the lines typed at the prompt; then end of file *)
  home : string;                     (* what '~' expands to *)
  files : gmap string (list string); (* persistent storage: path to entries *)
  root_level : Z;                    (* the level of the root logger *)
  calls : list Call;
}.

Definition set_stdout (f : list Out -> list Out) (w : World) : World :=
  mkWorld (f (stdout w)) (stderr w) (stdin w) (terminal w) (home w)
          (files w) (root_level w) (calls w).
Definition set_stderr (f : list Out -> list Out) (w : World) : World :=
  mkWorld (stdout w) (f (stderr w)) (stdin w) (terminal w) (home w)
          (files w) (root_level w) (calls w).
Definition set_stdin (l : list string) (w : World) : World :=
  mkWorld (stdout w) (stderr w) l (terminal w) (home w)
          (files w) (root_level w) (calls w).
Definition set_terminal (l : list string) (w : World) : World :=
  mkWorld (stdout w) (stderr w) (stdin w) l (home w)
          (files w) (root_level w) (calls w).
Definition set_files (f : gmap string (list string) -> gmap string (list string))
  (w : World) : World :=
  mkWorld (stdout w) (stderr w) (stdin w) (terminal w) (home w)
          (f (files w)) (root_level w) (calls w).
Definition set_root_level (l : Z) (w : World) : World :=
  mkWorld (stdout w) (stderr w) (stdin w) (terminal w) (home w)
          (files w) l (calls w).
Definition log_call (c : Call) (w : World) : World :=
  mkWorld (stdout w) (stderr w) (stdin w) (terminal w) (home w)
          (files w) (root_level w) (calls w ++ [c]).

(** ** Computations that may raise *)

Inductive Result (A : Type) :=
| Return (a : A)
| Raise (e : Exc).
Arguments Return {A} a.
Arguments Raise {A} e.

Definition M (A : Type) : Type := World -> Result A * World.

Definition ret {A} (a : A) : M A := fun w => (Return a, w).
Definition raise {A} (e : Exc) : M A := fun w => (Raise e, w).
Definition bind {A B} (m : M A) (k : A -> M B) : M B :=
  fun w => match m w with
           | (Return a, w') => k a w'
           | (Raise e, w') => (Raise e, w')
           end.

(** [try: m  except <handles>: handler] *)
Definition try_except {A} (m : M A) (handles : Exc -> bool) (handler : Exc -> M A) : M A :=
  fun w => match m w with
           | (Raise e, w') => if handles e then handler e w' else (Raise e, w')
           | r => r
           end.

Notation "'let*' x ':=' m 'in' k" := (bind m (fun x => k))
  (at level 10, x name, m at level 100, k at level 200).
Notation "'let*' ' p ':=' m 'in' k" := (bind m (fun x => match x with p => k end))
  (at level 10, p pattern, m at level 100, k at level 200).
Notation "'do' m 'then' k" := (bind m (fun _ => k))
  (at level 10, m at level 100, k at level 200).

(** The world after [print(s)]. *)
Definition printed (s : string) (w : World) : World :=
  set_stdout (fun o => o ++ [line s]) w.

Definition print (s : string) : M unit := fun w => (Return tt, printed s w).

(** Lift a pure call that can fail, recording it. *)
Definition external {A} (c : Call) (r : Exc + A) : M A :=
  fun w => (match r with inl e => Raise e | inr a => Return a end, log_call c w).

(** ** The rest of the package *)

(** The parser, the compiler and the compiled specifications.  They read the
    specification files and compute; they write nothing. *)
Class Asn1Tools := {
  Tree : Type;              (* what parse_files returns *)
  Specification : Type;     (* what compile_dict returns *)
  Decoded : Type;           (* a decoded value *)
  parse_files : gmap string (list string) -> list string -> Exc + Tree;
  compile_dict : Tree -> string -> Exc + Specification;
  decode : Specification -> string -> list byte -> Exc + Decoded;
  (* encode(type_name, data) and encode(type_name, data, indent=n) *)
  encode : Specification -> string -> Decoded -> option nat -> Exc + list byte;
}.

(** ** [argparse]

    The fragment of the library that the four parsers of the program use:
    [store] options with one argument, [type=int], [choices] and defaults,
    [store_true], the [help] and [version] actions, positionals with
    [nargs=None] and [nargs='+'], one level of subparsers, option strings
    given exactly, as [--opt=value], as an unambiguous prefix, or as a short
    option with the value or further flags attached, and the [--]
    separator.  Parsing is pure: it yields a namespace, an error, or the
    request to print and exit; [parse_args] below turns the latter two into
    what the parser class does with them. *)

Module argparse.

Inductive value :=
| VNone
| VStr (s : string)
| VInt (n : Z)
| VBool (b : bool)
| VList (l : list string)
| VFunc (name : string).   (* a function object, by the name it is defined under *)

Global Instance value_eq_dec : EqDecision value.
Proof. solve_decision. Defined.

Inductive Kind := store | store_true | help | version (text : string).
Inductive ArgType := type_str | type_int.
Inductive Nargs := nargs_none | nargs_plus | nargs_zero.

(** One [add_argument]: [option_strings] is empty for a positional;
    [default = None] means the attribute is not set beforehand
    ([SUPPRESS]). *)
Record Action := mkAction {
  option_strings : list string;
  dest : string;
  kind : Kind;
  nargs : Nargs;
  type : ArgType;
  choices : option (list value);
  default : option value;
}.

Abbreviation Namespace := (gmap string value).

Record Parser := mkParser {
  prog : string;
  optionals : list Action;
  positionals : list Action;
  defaults : list (string * value);   (* set_defaults *)
}.

Definition help_action : Action :=
  mkAction ["-h"; "--help"] "help" help nargs_zero type_str None None.

(** [ArgumentParser(prog=...)] followed by the [add_argument] calls, in
    order, and the [set_defaults] attributes. *)
Definition parser (prog : string) (arguments : list Action)
  (defaults : list (string * value)) : Parser :=
  mkParser prog
    (help_action :: filter (fun a => negb (bool_decide (option_strings a = []))) arguments)
    (filter (fun a => bool_decide (option_strings a = [])) arguments)
    defaults.

(** A parser with [add_subparsers(dest=sub_dest)], [required = True]. *)
Record TopParser := mkTopParser {
  top : Parser;
  sub_dest : string;
  subparsers : list (string * Parser);
}.

Inductive ArgError :=
| invalid_choice (argument : string) (v : value) (among : list value)
| invalid_int_value (argument : string) (s : string)
| expected_one_argument (argument : string)
| ignored_explicit_argument (argument : string) (s : string)
| ambiguous_option (s : string) (matches : list string)
| arguments_required (names : list string)
| unrecognized_arguments (args : list string).

Inductive Outcome (A : Type) :=
| Parsed (a : A)
| Failed (prog : string) (e : ArgError)   (* parser.error(message) *)
| Exited (prog : string) (o : Out).       (* print, then parser.exit() *)
Arguments Parsed {A} a.
Arguments Failed {A} prog e.
Arguments Exited {A} prog o.

Definition and_then {A B} (o : Outcome A) (k : A -> Outcome B) : Outcome B :=
  match o with
  | Parsed a => k a
  | Failed p e => Failed p e
  | Exited p x => Exited p x
  end.

(** The name of an argument in messages. *)
Definition argument_name (a : Action) : string :=
  match option_strings a with
  | [] => dest a
  | o :: os => fold_left (fun acc s => acc +:+ "/" +:+ s) os o
  end.

(** *** Telling options from arguments *)

Definition option_string_actions (opts : list Action) : list (string * Action) :=
  flat_map (fun a => map (fun o => (o, a)) (option_strings a)) opts.

Definition lookup_option (opts : list Action) (s : string) : option Action :=
  option_map snd (find (fun oa => String.eqb (fst oa) s) (option_string_actions opts)).

Definition _get_option_tuples (opts : list Action) (s : string)
  : list (Action * string * option string) :=
  if py.startswith s "--" then
    let '(option_prefix, explicit_arg) :=
      match py.split_once "=" s with
      | Some (p, e) => (p, Some e)
      | None => (s, None)
      end in
    flat_map (fun oa => if py.startswith (fst oa) option_prefix
                        then [(snd oa, fst oa, explicit_arg)] else [])
             (option_string_actions opts)
  else
    let short_option_prefix := py.slice_to 2 s in
    let short_explicit_arg := py.slice_from 2 s in
    flat_map (fun oa => if String.eqb (fst oa) short_option_prefix
                        then [(snd oa, fst oa, Some short_explicit_arg)]
                        else if py.startswith (fst oa) s
                        then [(snd oa, fst oa, None)] else [])
             (option_string_actions opts).

Definition drop_final_newline (l : list ascii) : list ascii :=
  match rev l with
  | c :: r => if (py.code c =? 10)%N then rev r else l
  | [] => l
  end.

(** The pattern ['^-\d+$|^-\d*\.\d+$'] *)
Definition _negative_number_matcher (s : string) : bool :=
  match list_ascii_of_string s with
  | "-"%char :: l =>
      let l := drop_final_newline l in
      (negb (bool_decide (l = [])) && forallb py.isdigit l)
      || match py.split_at "." l with
         | Some (a, b) =>
             forallb py.isdigit a && negb (bool_decide (b = [])) && forallb py.isdigit b
         | None => false
         end
  | _ => false
  end.

Inductive Optional :=
| positional
| optional (a : option Action) (option_string : string) (explicit_arg : option string)
| ambiguous (matches : list string).

Definition _parse_optional (opts : list Action) (arg_string : string) : Optional :=
  match arg_string with
  | EmptyString => positional
  | String c _ =>
      if negb (Ascii.eqb c "-") then positional
      else match lookup_option opts arg_string with
      | Some a => optional (Some a) arg_string None
      | None =>
          if String.length arg_string =? 1 then positional
          else
            match (match py.split_once "=" arg_string with
                   | Some (o, e) => option_map (fun a => (a, o, e)) (lookup_option opts o)
                   | None => None
                   end) with
            | Some (a, o, e) => optional (Some a) o (Some e)
            | None =>
                match _get_option_tuples opts arg_string with
                | [(a, o, e)] => optional (Some a) o e
                | (_ :: _ :: _) as l => ambiguous (map (fun t => snd (fst t)) l)
                | [] =>
                    if _negative_number_matcher arg_string then positional
                    else if py.contains " " arg_string then positional
                    else optional None arg_string None
                end
            end
      end
  end.

(** The arguments are classified before any is consumed: an ambiguous
    abbreviation in front of [--] fails the parse at once. *)
Fixpoint find_ambiguous (opts : list Action) (args : list string) : option ArgError :=
  match args with
  | [] => None
  | t :: rest =>
      if String.eqb t "--" then None
      else match _parse_optional opts t with
           | ambiguous l => Some (ambiguous_option t l)
           | _ => find_ambiguous opts rest
           end
  end.

(** *** Consuming an option *)

Inductive Consumed :=
| takes (l : list (Action * list string))
| wants (l : list (Action * list string)) (a : Action)   (* [a] takes the next argument *)
| fails (e : ArgError).

Definition before (x : Action * list string) (c : Consumed) : Consumed :=
  match c with
  | takes l => takes (x :: l)
  | wants l a => wants (x :: l) a
  | fails e => fails e
  end.

Definition single_dash (option_string : string) : bool :=
  match option_string with
  | String _ (String c _) => negb (Ascii.eqb c "-")
  | _ => true
  end.

Definition without_argument (a : Action) : Consumed :=
  match nargs a with
  | nargs_zero => takes [(a, [])]
  | _ => wants [] a
  end.

(** An option met with an explicit argument: the argument of a [store]
    option, or, behind a single-dash flag, further single-dash options.
    (Python indexes [explicit_arg[0]] here; the empty argument of [-d=]
    is reported like a refused one.) *)
Fixpoint with_explicit_arg (opts : list Action) (a : Action) (option_string : string)
  (explicit_arg : string) : Consumed :=
  match nargs a with
  | nargs_zero =>
      if single_dash option_string then
        match explicit_arg with
        | EmptyString => fails (ignored_explicit_argument (argument_name a) explicit_arg)
        | String c new_explicit_arg =>
            let option_string' := String "-" (String c EmptyString) in
            match lookup_option opts option_string' with
            | None => fails (ignored_explicit_argument (argument_name a) explicit_arg)
            | Some a' =>
                before (a, [])
                  match new_explicit_arg with
                  | EmptyString => without_argument a'
                  | _ => with_explicit_arg opts a' option_string' new_explicit_arg
                  end
            end
        end
      else fails (ignored_explicit_argument (argument_name a) explicit_arg)
  | _ => takes [(a, [explicit_arg])]
  end.

Definition consume_optional (opts : list Action) (a : Action) (option_string : string)
  (explicit_arg : option string) : Consumed :=
  match explicit_arg with
  | Some e => with_explicit_arg opts a option_string e
  | None => without_argument a
  end.

(** *** Taking an action *)

Definition _get_value (a : Action) (arg_string : string) : ArgError + value :=
  match type a with
  | type_str => inr (VStr arg_string)
  | type_int =>
      match py.int arg_string with
      | Some n => inr (VInt n)
      | None => inl (invalid_int_value (argument_name a) arg_string)
      end
  end.

Definition _check_value (a : Action) (v : value) : option ArgError :=
  match choices a with
  | Some among =>
      if bool_decide (v ∈ among) then None
      else Some (invalid_choice (argument_name a) v among)
  | None => None
  end.

Definition take_action (prog : string) (a : Action) (args : list string)
  (ns : Namespace) : Outcome Namespace :=
  match kind a with
  | store =>
      match args with
      | [s] =>
          match _get_value a s with
          | inl e => Failed prog e
          | inr v =>
              match _check_value a v with
              | Some e => Failed prog e
              | None => Parsed (<[dest a := v]> ns)
              end
          end
      | _ => Failed prog (expected_one_argument (argument_name a))
      end
  | store_true => Parsed (<[dest a := VBool true]> ns)
  | help => Exited prog (help_text prog)
  | version text => Exited prog (exit_message text)
  end.

Fixpoint take_actions (prog : string) (l : list (Action * list string))
  (ns : Namespace) : Outcome Namespace :=
  match l with
  | [] => Parsed ns
  | (a, args) :: l' => and_then (take_action prog a args ns) (take_actions prog l')
  end.

(** *** Positionals *)

(** The greedy match of the remaining positionals against one run of
    arguments: every action gets one argument, a ['+'] all that the actions
    after it can spare.  Returns the values, the actions left without a
    match and the arguments left over. *)
Fixpoint consume_positionals (acts : list Action) (run : list string)
  : list (Action * list string) * list Action * list string :=
  match acts with
  | [] => ([], [], run)
  | a :: acts' =>
      match run with
      | [] => ([], acts, [])
      | _ :: _ =>
          let n := match nargs a with
                   | nargs_plus => length run - Nat.min (length acts') (length run - 1)
                   | _ => 1
                   end in
          let '(got, missing, spare) := consume_positionals acts' (skipn n run) in
          ((a, firstn n run) :: got, missing, spare)
      end
  end.

Definition positional_value (a : Action) (args : list string) : value :=
  match nargs a, args with
  | nargs_plus, _ => VList args
  | _, [s] => VStr s
  | _, _ => VNone
  end.

Definition store_positionals (got : list (Action * list string)) (ns : Namespace)
  : Namespace :=
  fold_left (fun ns x => <[dest (fst x) := positional_value (fst x) (snd x)]> ns) got ns.

Fixpoint assign_runs (acts : list Action) (runs : list (list string)) (ns : Namespace)
  : Namespace * list Action * list string :=
  match runs with
  | [] => (ns, acts, [])
  | r :: rs =>
      let '(got, missing, spare) := consume_positionals acts r in
      let '(ns', missing', spare') := assign_runs missing rs (store_positionals got ns) in
      (ns', missing', spare ++ spare')
  end.

(** *** The parse of a parser without subparsers *)

Definition set_default (ns : Namespace) (d : string) (v : value) : Namespace :=
  match ns !! d with
  | Some _ => ns
  | None => <[d := v]> ns
  end.

(** Attributes absent from the namespace get the default of their action,
    then the parser's own defaults. *)
Definition add_defaults (p : Parser) (ns : Namespace) : Namespace :=
  let ns1 := fold_left (fun ns a => match default a with
                                    | Some v => set_default ns (dest a) v
                                    | None => ns
                                    end)
                       (optionals p ++ positionals p) ns in
  fold_left (fun ns dv => set_default ns (fst dv) (snd dv)) (defaults p) ns1.

Record State := mkState {
  namespace : Namespace;
  closed_runs : list (list string);   (* the runs of arguments closed by an option *)
  open_run : list string;      (* the run being read *)
  extras : list string;        (* unknown options *)
}.

Definition close_run (st : State) : State :=
  mkState (namespace st) (closed_runs st ++ [open_run st]) [] (extras st).

Definition finish (p : Parser) (st : State) : Outcome (Namespace * list string) :=
  let '(ns, missing, spare) :=
    assign_runs (positionals p) (closed_runs st ++ [open_run st]) (namespace st) in
  match missing with
  | [] => Parsed (ns, extras st ++ spare)
  | _ => Failed (prog p) (arguments_required (map dest missing))
  end.

(** One argument at a time.  [pending] is the option that awaits its
    argument, with the flags met in the same argument before it. *)
Fixpoint consume (p : Parser) (args : list string)
  (pending : option (list (Action * list string) * Action)) (st : State)
  : Outcome (Namespace * list string) :=
  match args with
  | [] =>
      match pending with
      | Some (_, a) => Failed (prog p) (expected_one_argument (argument_name a))
      | None => finish p st
      end
  | t :: rest =>
      match pending with
      | Some (l, a) =>
          if String.eqb t "--" then
            match rest with
            | [] => Failed (prog p) (expected_one_argument (argument_name a))
            | v :: rest' =>
                and_then (take_actions (prog p) (l ++ [(a, [v])]) (namespace st))
                  (fun ns => finish p (mkState ns (closed_runs st) rest' (extras st)))
            end
          else
            match _parse_optional (optionals p) t with
            | positional =>
                and_then (take_actions (prog p) (l ++ [(a, [t])]) (namespace st))
                  (fun ns => consume p rest None (mkState ns (closed_runs st) (open_run st) (extras st)))
            | _ => Failed (prog p) (expected_one_argument (argument_name a))
            end
      | None =>
          if String.eqb t "--" then
            finish p (mkState (namespace st) (closed_runs st) (open_run st ++ rest) (extras st))
          else
            match _parse_optional (optionals p) t with
            | positional =>
                consume p rest None
                  (mkState (namespace st) (closed_runs st) (open_run st ++ [t]) (extras st))
            | ambiguous l => Failed (prog p) (ambiguous_option t l)
            | optional None _ _ =>
                let st' := close_run st in
                consume p rest None
                  (mkState (namespace st') (closed_runs st') (open_run st') (extras st' ++ [t]))
            | optional (Some a) option_string explicit_arg =>
                match consume_optional (optionals p) a option_string explicit_arg with
                | fails e => Failed (prog p) e
                | wants l a' => consume p rest (Some (l, a')) (close_run st)
                | takes l =>
                    and_then (take_actions (prog p) l (namespace st))
                      (fun ns =>
                         let st' := close_run st in
                         consume p rest None (mkState ns (closed_runs st') (open_run st') (extras st')))
                end
            end
      end
  end.

Definition parse_known_args (p : Parser) (args : list string) (ns : Namespace)
  : Outcome (Namespace * list string) :=
  match find_ambiguous (optionals p) args with
  | Some e => Failed (prog p) e
  | None => consume p args None (mkState (add_defaults p ns) [] [] [])
  end.

Definition no_extras (prog : string) (r : Outcome (Namespace * list string))
  : Outcome Namespace :=
  and_then r (fun x => match snd x with
                       | [] => Parsed (fst x)
                       | ex => Failed prog (unrecognized_arguments ex)
                       end).

(** [parser.parse_args(args)] with an empty namespace. *)
Definition parse (p : Parser) (args : list string) : Outcome Namespace :=
  no_extras (prog p) (parse_known_args p args ∅).

(** *** The parse of a parser with subparsers *)

(** The subparsers action: the name is checked against the registered
    names, stored under [sub_dest], and the named parser reads every
    argument that follows. *)
Definition call_subparser (tp : TopParser) (name : string) (rest : list string)
  (ns : Namespace) (extras : list string) : Outcome (Namespace * list string) :=
  match find (fun np => String.eqb (fst np) name) (subparsers tp) with
  | None =>
      Failed (prog (top tp))
        (invalid_choice (sub_dest tp) (VStr name) (map (fun np => VStr (fst np)) (subparsers tp)))
  | Some (_, sub) =>
      and_then (parse_known_args sub rest (<[sub_dest tp := VStr name]> ns))
        (fun x => Parsed (fst x, extras ++ snd x))
  end.

Definition subcommand_at (tp : TopParser) (args : list string) (ns : Namespace)
  (extras : list string) : Outcome (Namespace * list string) :=
  match args with
  | [] => Failed (prog (top tp)) (arguments_required [sub_dest tp])
  | name :: rest => call_subparser tp name rest ns extras
  end.

(** The options in front of the subcommand.  [after_option] holds right
    after a known option was consumed: a [--] there belongs to that option
    and is dropped; elsewhere it reaches the subparsers action as a name. *)
Fixpoint consume_top (tp : TopParser) (args : list string)
  (pending : option (list (Action * list string) * Action)) (after_option : bool)
  (ns : Namespace) (extras : list string) : Outcome (Namespace * list string) :=
  let p := top tp in
  match args with
  | [] =>
      match pending with
      | Some (_, a) => Failed (prog p) (expected_one_argument (argument_name a))
      | None => Failed (prog p) (arguments_required [sub_dest tp])
      end
  | t :: rest =>
      match pending with
      | Some (l, a) =>
          if String.eqb t "--" then
            match rest with
            | [] => Failed (prog p) (expected_one_argument (argument_name a))
            | v :: rest' =>
                and_then (take_actions (prog p) (l ++ [(a, [v])]) ns)
                  (fun ns' => subcommand_at tp rest' ns' extras)
            end
          else
            match _parse_optional (optionals p) t with
            | positional =>
                and_then (take_actions (prog p) (l ++ [(a, [t])]) ns)
                  (fun ns' => consume_top tp rest None true ns' extras)
            | _ => Failed (prog p) (expected_one_argument (argument_name a))
            end
      | None =>
          if String.eqb t "--" then
            if after_option then subcommand_at tp rest ns extras
            else match rest with
                 | [] => Failed (prog p) (arguments_required [sub_dest tp])
                 | _ :: _ =>
                     Failed (prog p)
                       (invalid_choice (sub_dest tp) (VStr t)
                          (map (fun np => VStr (fst np)) (subparsers tp)))
                 end
          else
            match _parse_optional (optionals p) t with
            | positional => call_subparser tp t rest ns extras
            | ambiguous l => Failed (prog p) (ambiguous_option t l)
            | optional None _ _ => consume_top tp rest None false ns (extras ++ [t])
            | optional (Some a) option_string explicit_arg =>
                match consume_optional (optionals p) a option_string explicit_arg with
                | fails e => Failed (prog p) e
                | wants l a' => consume_top tp rest (Some (l, a')) false ns extras
                | takes l =>
                    and_then (take_actions (prog p) l ns)
                      (fun ns' => consume_top tp rest None true ns' extras)
                end
            end
      end
  end.

(** [parser.parse_args(args)] for a parser with subparsers. *)
Definition parse_top (tp : TopParser) (args : list string) : Outcome Namespace :=
  match find_ambiguous (optionals (top tp)) args with
  | Some e => Failed (prog (top tp)) e
  | None =>
      no_extras (prog (top tp))
        (consume_top tp args None false
           (set_default (add_defaults (top tp) ∅) (sub_dest tp) VNone) [])
  end.

(** *** Messages *)

Definition repr (v : value) : string :=
  match v with
  | VNone => "None"
  | VStr s => "'" +:+ s +:+ "'"
  | VInt n => pretty n
  | VBool true => "True"
  | VBool false => "False"
  | VList l => "[" +:+ String.concat ", " (map (fun s => "'" +:+ s +:+ "'") l) +:+ "]"
  | VFunc name => "<function " +:+ name +:+ ">"
  end.

(** The text of an error, without the escapes of [repr]. *)
Definition message (e : ArgError) : string :=
  match e with
  | invalid_choice arg v among =>
      "argument " +:+ arg +:+ ": invalid choice: " +:+ repr v
      +:+ " (choose from " +:+ String.concat ", " (map repr among) +:+ ")"
  | invalid_int_value arg s =>
      "argument " +:+ arg +:+ ": invalid int value: '" +:+ s +:+ "'"
  | expected_one_argument arg => "argument " +:+ arg +:+ ": expected one argument"
  | ignored_explicit_argument arg s =>
      "argument " +:+ arg +:+ ": ignored explicit argument '" +:+ s +:+ "'"
  | ambiguous_option s l =>
      "ambiguous option: " +:+ s +:+ " could match " +:+ String.concat ", " l
  | arguments_required names =>
      "the following arguments are required: " +:+ String.concat ", " names
  | unrecognized_arguments args =>
      "unrecognized arguments: " +:+ String.concat " " args
  end.

End argparse.

(** ** [os.path], [logging], [sys], [prompt_toolkit] *)

Module os_path.

Definition endswith_slash (s : string) : bool :=
  match rev (list_ascii_of_string s) with
  | c :: _ => Ascii.eqb c "/"
  | [] => false
  end.

(** [posixpath.join(a, b)] *)
Definition join (a b : string) : string :=
  if py.startswith b "/" then b
  else if bool_decide (a = "") || endswith_slash a then a +:+ b
  else a +:+ "/" +:+ b.

(** [expanduser('~')]: the home directory without trailing slashes. *)
Definition expanduser_tilde (w : World) : string :=
  let userhome :=
    string_of_list_ascii
      (rev (py.lstrip_with (fun c => Ascii.eqb c "/") (rev (list_ascii_of_string (home w))))) in
  if bool_decide (userhome = "") then "/" else userhome.

End os_path.

Module logging.

Definition CRITICAL : Z := 50.
Definition ERROR : Z := 40.
Definition WARNING : Z := 30.
Definition INFO : Z := 20.
Definition DEBUG : Z := 10.

(** [basicConfig(format=..., level=level)] on a fresh root logger: records
    go to the standard error stream, from [level] upwards. *)
Definition basicConfig (level : Z) : M unit :=
  fun w => (Return tt, set_root_level level w).

(** [Logger.isEnabledFor] of the root logger. *)
Definition isEnabledFor (w : World) (levelno : Z) : bool := (root_level w <=? levelno)%Z.

End logging.

Module sys.

(** [sys.exit(message)] with a string: [SystemExit(message)]. *)
Definition exit {A} (message : string) : M A := raise (mkExc SystemExit message None).

(** [sys.exit(status)] with an integer. *)
Definition exit_status {A} (status : Z) : M A :=
  raise (mkExc SystemExit (pretty status) (Some status)).

End sys.

Module prompt_toolkit.

(** [FileHistory.append] as the buffer calls it when a line is accepted:
    empty input and a repetition of the last entry are not recorded; an
    entry is added at the end of the file. *)
Definition append_to_history (filename text : string)
  (fs : gmap string (list string)) : gmap string (list string) :=
  let entries := default [] (fs !! filename) in
  if bool_decide (text = "") || bool_decide (last entries = Some text) then fs
  else <[filename := entries ++ [text]]> fs.

(** [prompt(..., history=FileHistory(filename))] when the user types
    [text]. *)
Definition prompt (filename text : string) (rest : list string) : M string :=
  fun w => (Return text, set_files (append_to_history filename text) (set_terminal rest w)).

End prompt_toolkit.

(** ** [asn1tools/__init__.py] *)

Definition __version__ : string := "0.80.1".

Definition newline : string := String (ascii_of_nat 10) EmptyString.

(** *** The parsers *)

(** [argparse.ArgumentParser]: an error writes the usage and the message to
    the standard error stream and exits with status 2; [help] and [version]
    print and exit with status 0. *)
Definition parse_args (r : argparse.Outcome argparse.Namespace) : M argparse.Namespace :=
  match r with
  | argparse.Parsed ns => ret ns
  | argparse.Failed prog e =>
      fun w =>
        (Raise (mkExc SystemExit "2" (Some 2%Z)),
         set_stderr (fun o => o ++ [usage prog;
                                    exit_message (prog +:+ ": error: " +:+ argparse.message e +:+ newline)]) w)
  | argparse.Exited prog o =>
      fun w => (Raise (mkExc SystemExit "0" (Some 0%Z)), set_stdout (fun x => x ++ [o]) w)
  end.

(** [class ArgumentParser(argparse.ArgumentParser)]: [exit] and [error]
    write to the standard output and raise [ArgumentParserError]. *)
Module ArgumentParser.

Definition exit {A} (message : option string) : M A :=
  fun w =>
    (Raise (exception ArgumentParserError (default "None" message)),
     match message with
     | None | Some EmptyString => w
     | Some m => set_stdout (fun o => o ++ [exit_message m]) w
     end).

Definition error {A} (prog message : string) : M A :=
  fun w =>
    let message := prog +:+ ": error: " +:+ message in
    (Raise (exception ArgumentParserError message),
     set_stdout (fun o => o ++ [usage prog; line message]) w).

Definition parse_args (p : argparse.Parser) (args : list string) : M argparse.Namespace :=
  match argparse.parse p args with
  | argparse.Parsed ns => ret ns
  | argparse.Failed prog e => error prog (argparse.message e)
  | argparse.Exited prog o =>
      fun w => exit None (set_stdout (fun x => x ++ [o]) w)
  end.

End ArgumentParser.

Import argparse.

Definition input_codec_argument (help : string) : Action :=
  mkAction ["-i"; "--input-codec"] "input_codec" store nargs_none type_str
    (Some (map VStr ["ber"; "der"; "jer"; "per"; "uper"; "xer"]))
    (Some (VStr "ber")).

Definition output_codec_argument (help : string) : Action :=
  mkAction ["-o"; "--output-codec"] "output_codec" store nargs_none type_str
    (Some (map VStr ["ber"; "der"; "jer"; "per"; "uper"; "xer"; "gser"]))
    (Some (VStr "gser")).

Definition specification_argument : Action :=
  mkAction [] "specification" store nargs_plus type_str None (Some VNone).

Definition type_argument : Action :=
  mkAction [] "type" store nargs_none type_str None (Some VNone).

Definition hexstring_argument : Action :=
  mkAction [] "hexstring" store nargs_none type_str None (Some VNone).

(** The parser of [_handle_command_compile]. *)
Definition compile_parser : Parser :=
  parser "compile"
    [input_codec_argument "Input codec (default: ber).";
     output_codec_argument "Output codec (default: gser).";
     specification_argument]
    [].

(** The parser of [_handle_command_convert]. *)
Definition convert_parser : Parser :=
  parser "convert" [type_argument; hexstring_argument] [].

Definition debug_argument : Action :=
  mkAction ["-d"; "--debug"] "debug" store_true nargs_zero type_str None
    (Some (VBool false)).

Definition verbose_argument : Action :=
  mkAction ["-v"; "--verbose"] "verbose" store nargs_none type_int
    (Some [VInt 0; VInt 1; VInt 2]) (Some (VInt 1)).

Definition version_argument : Action :=
  mkAction ["--version"] "version" (version __version__) nargs_zero type_str None None.

(** The [convert] subparser of [_main]. *)
Definition convert_subparser (prog : string) : Parser :=
  parser (prog +:+ " convert")
    [input_codec_argument "Input format (default: ber).";
     output_codec_argument "Output format (default: gser).";
     specification_argument; type_argument; hexstring_argument]
    [("func", VFunc "_do_convert")].

(** The [shell] subparser of [_main]. *)
Definition shell_subparser (prog : string) : Parser :=
  parser (prog +:+ " shell") [] [("func", VFunc "_do_shell")].

(** The parser of [_main] for the program name [prog]. *)
Definition main_parser (prog : string) : TopParser :=
  mkTopParser
    (parser prog [debug_argument; verbose_argument; version_argument] [])
    "subcommand"
    [("convert", convert_subparser prog); ("shell", shell_subparser prog)].

(** *** The commands *)

(** [args.name] for an attribute holding a string, a list, an integer, a
    boolean. *)
Definition getattr_str (args : Namespace) (name : string) : M string :=
  match args !! name with
  | Some (VStr s) => ret s
  | _ => raise (exception AttributeError name)
  end.
Definition getattr_list (args : Namespace) (name : string) : M (list string) :=
  match args !! name with
  | Some (VList l) => ret l
  | _ => raise (exception AttributeError name)
  end.
Definition getattr_int (args : Namespace) (name : string) : M Z :=
  match args !! name with
  | Some (VInt n) => ret n
  | _ => raise (exception AttributeError name)
  end.
Definition getattr_bool (args : Namespace) (name : string) : M bool :=
  match args !! name with
  | Some (VBool b) => ret b
  | _ => raise (exception AttributeError name)
  end.

(** The three variables of the shell: [None] until a [compile] command
    succeeds. *)
Record Compiled `{Asn1Tools} := mkCompiled {
  input_spec : option Specification;
  output_spec : option Specification;
  output_codec : option string;
}.
Arguments mkCompiled {_} _ _ _.
Arguments input_spec {_} _.
Arguments output_spec {_} _.
Arguments output_codec {_} _.

Section Commands.
Context `{Asn1Tools}.

Definition _convert_hexstring (input_spec output_spec : Specification)
  (output_codec type_name hexstring : string) : M unit :=
  let* encoded :=
    try_except
      (fun w => (match binascii.unhexlify hexstring with
                 | inl e => Raise e
                 | inr b => Return b
                 end, w))
      (fun e => isinstance e Exception)
      (fun e => raise (exception TypeError ("'" +:+ hexstring +:+ "': " +:+ exc_str e))) in
  let* decoded := external (call_decode type_name encoded)
                           (decode input_spec type_name encoded) in
  let* decoded :=
    if bool_decide (output_codec ∈ ["gser"; "xer"; "jer"]) then
      let* text := external (call_encode type_name)
                            (encode output_spec type_name decoded (Some 4)) in
      ret (py.bytes_strip text)
    else
      let* data := external (call_encode type_name)
                            (encode output_spec type_name decoded None) in
      ret (binascii.hexlify data) in
  print (py.decode_latin1 decoded).

Definition _compile_files (specifications : list string)
  (input_codec output_codec : string) : M (Specification * Specification) :=
  let* parsed := fun w => external (call_parse_files specifications)
                                   (parse_files (files w) specifications) w in
  let* input_spec := external (call_compile_dict input_codec)
                              (compile_dict parsed input_codec) in
  let* output_spec := external (call_compile_dict output_codec)
                               (compile_dict parsed output_codec) in
  ret (input_spec, output_spec).

(** The characters of [hexstring.strip('\r\n')] *)
Definition CRLF : list ascii := [ascii_of_nat 13; ascii_of_nat 10].

(** The body of [for hexstring in sys.stdin] over the lines still unread. *)
Fixpoint convert_lines (input_spec output_spec : Specification)
  (output_codec type_name : string) (lines : list string) : M unit :=
  match lines with
  | [] => ret tt
  | hexstring :: rest =>
      do (fun w => (Return tt, set_stdin rest w)) then
      let hexstring := py.strip_chars CRLF hexstring in
      do (if negb (bool_decide (hexstring = ""))
          then
            try_except
              (_convert_hexstring input_spec output_spec output_codec type_name hexstring)
              (fun e => isinstance e TypeError || isinstance e DecodeError)
              (fun e => if isinstance e TypeError
                        then print hexstring
                        else do print hexstring then print (exc_str e))
          else print hexstring) then
      convert_lines input_spec output_spec output_codec type_name rest
  end.

Definition _do_convert (args : Namespace) : M unit :=
  let* specification := getattr_list args "specification" in
  let* input_codec := getattr_str args "input_codec" in
  let* output_codec := getattr_str args "output_codec" in
  let* '(input_spec, output_spec) :=
    _compile_files specification input_codec output_codec in
  let* hexstring := getattr_str args "hexstring" in
  let* type_name := getattr_str args "type" in
  if bool_decide (hexstring = "-") then
    fun w => convert_lines input_spec output_spec output_codec type_name (stdin w) w
  else
    _convert_hexstring input_spec output_spec output_codec type_name hexstring.

Definition no_specification : Compiled := mkCompiled None None None.

(** The body of the second [try] of [_handle_command_compile]. *)
Definition compile_arguments (args : Namespace) : M Compiled :=
  let* specification := getattr_list args "specification" in
  let* input_codec := getattr_str args "input_codec" in
  let* output_codec := getattr_str args "output_codec" in
  let* '(input_spec, output_spec) :=
    _compile_files specification input_codec output_codec in
  ret (mkCompiled (Some input_spec) (Some output_spec) (Some output_codec)).

Definition _handle_command_compile (line : string) : M Compiled :=
  let* parsed :=
    try_except
      (let* args := ArgumentParser.parse_args compile_parser (tail (py.split line)) in
       ret (Some args))
      (fun e => isinstance e ArgumentParserError)
      (fun _ => ret None) in
  match parsed with
  | None => ret no_specification
  | Some args =>
      try_except (compile_arguments args)
        (fun e => isinstance e Exception)
        (fun e => do print ("error: " +:+ exc_str e) then ret no_specification)
  end.

(** A [compile] command fails: its arguments do not parse, or the
    compilation raises an exception. *)
Definition compile_fails (line : string) (w : World) : Prop :=
  (exists e w1,
     ArgumentParser.parse_args compile_parser (tail (py.split line)) w = (Raise e, w1)) \/
  (exists args w1 e w2,
     ArgumentParser.parse_args compile_parser (tail (py.split line)) w = (Return args, w1) /\
     compile_arguments args w1 = (Raise e, w2) /\ isinstance e Exception = true).

Definition no_specification_message : string :=
  "No compiled specification found. Please use the 'compile' command to compile one.".

(** [output_spec] and [output_codec] are set together with [input_spec];
    were they [None], the conversion would fail on the missing object. *)
Definition _handle_command_convert (line : string) (compiled : Compiled) : M unit :=
  match input_spec compiled with
  | None => print no_specification_message
  | Some input_spec =>
      let* parsed :=
        try_except
          (let* args := ArgumentParser.parse_args convert_parser (tail (py.split line)) in
           ret (Some args))
          (fun e => isinstance e ArgumentParserError)
          (fun _ => ret None) in
      match parsed with
      | None => ret tt
      | Some args =>
          try_except
            (let* type_name := getattr_str args "type" in
             let* hexstring := getattr_str args "hexstring" in
             match output_spec compiled, output_codec compiled with
             | Some output_spec, Some output_codec =>
                 _convert_hexstring input_spec output_spec output_codec type_name hexstring
             | _, _ => raise (exception AttributeError "'NoneType' object has no attribute 'encode'")
             end)
            (fun e => isinstance e Exception)
            (fun e => print ("error: " +:+ exc_str e))
      end
  end.

Definition _handle_command_help : M unit :=
  do print "Commands:" then
  do print "  compile" then
  do print "  convert" then
  do print "  exit" then
  print "  help".

(** The file the shell gives to [FileHistory]. *)
Definition history_filename (w : World) : string :=
  os_path.join (os_path.expanduser_tilde w) ".asn1tools-history.txt".

(** The [while True] loop of the shell over the lines that will be typed;
    when they run out the prompt raises [EOFError] and the shell returns. *)
Fixpoint shell_loop (history : string) (typed : list string) (compiled : Compiled)
  : M unit :=
  match typed with
  | [] => ret tt
  | text :: rest =>
      let* line := prompt_toolkit.prompt history text rest in
      let line := py.strip line in
      if negb (bool_decide (line = "")) then
        if py.startswith line "compile" then
          let* compiled := _handle_command_compile line in
          shell_loop history rest compiled
        else if py.startswith line "convert" then
          do _handle_command_convert line compiled then
          shell_loop history rest compiled
        else if bool_decide (line = "help") then
          do _handle_command_help then
          shell_loop history rest compiled
        else if bool_decide (line = "exit") then
          ret tt
        else
          do print (line +:+ ": command not found") then
          shell_loop history rest compiled
      else shell_loop history rest compiled
  end.

Definition _do_shell (_args : Namespace) : M unit :=
  fun w =>
    let history := history_filename w in
    (do print (newline +:+ "Welcome to the asn1tools shell!" +:+ newline) then
     shell_loop history (terminal w) no_specification) w.

(** [args.func(args)] *)
Definition call_func (args : Namespace) : M unit :=
  match args !! "func" with
  | Some (VFunc name) =>
      if String.eqb name "_do_convert" then _do_convert args
      else if String.eqb name "_do_shell" then _do_shell args
      else raise (exception AttributeError "func")
  | _ => raise (exception AttributeError "func")
  end.

Definition levels : list Z := [logging.CRITICAL; logging.WARNING; logging.DEBUG].

(** [_main] with [sys.argv = prog :: argv]. *)
Definition _main (prog : string) (argv : list string) : M unit :=
  let* args := parse_args (parse_top (main_parser prog) argv) in
  let* verbose := getattr_int args "verbose" in
  let* level := match py.getitem levels verbose with
                | Some l => ret l
                | None => raise (exception IndexError "list index out of range")
                end in
  do logging.basicConfig level then
  let* debug := getattr_bool args "debug" in
  if debug then call_func args
  else
    try_except (call_func args)
      (fun e => isinstance e BaseException)
      (fun e => sys.exit ("error: " +:+ exc_str e)).

(** What the interpreter makes of the end of [_main]: status 0 on return;
    a [SystemExit] with an integer exits with it, one with a string writes
    the string to the standard error stream and exits with 1; any other
    exception is reported with its traceback and exits with 1. *)
Definition run (prog : string) (argv : list string) (w : World) : Z * World :=
  match _main prog argv w with
  | (Return _, w') => (0%Z, w')
  | (Raise e, w') =>
      if bool_decide (exc_class e = SystemExit) then
        match exc_code e with
        | Some status => (status, w')
        | None => (1%Z, set_stderr (fun o => o ++ [line (exc_str e)]) w')
        end
      else (1%Z, set_stderr (fun o => o ++ [traceback e]) w')
  end.

End Commands.

(** ** A small implementation of the package interface

    Used to run the commands on concrete inputs: a specification file must
    exist to be parsed, a compiled specification is its codec name, the
    only type is [A], its values are the non-empty octet strings and every
    codec writes them as they are. *)

Definition octets_parse_files (fs : gmap string (list string)) (specifications : list string)
  : Exc + list string :=
  if forallb (fun f => bool_decide (is_Some (fs !! f))) specifications
  then inr specifications
  else inl (exception OSError "No such file or directory").

Definition octets_decode (spec type_name : string) (data : list byte) : Exc + list byte :=
  if negb (bool_decide (type_name = "A"))
  then inl (exception DecodeError ("Type '" +:+ type_name +:+ "' not found."))
  else match data with
       | [] => inl (exception DecodeError "out of data")
       | _ => inr data
       end.

Definition octets_encode (spec type_name : string) (data : list byte) (indent : option nat)
  : Exc + list byte :=
  if bool_decide (spec = "der") && bool_decide (1 < length data)
  then inl (exception EncodeError "too long")
  else inr data.

Definition octets : Asn1Tools :=
  {| Tree := list string;
     Specification := string;
     Decoded := list byte;
     parse_files := octets_parse_files;
     compile_dict := fun _ codec => inr codec;
     decode := octets_decode;
     encode := octets_encode |}.

Definition empty_world : World :=
  mkWorld [] [] [] [] "/home/user" ∅ logging.WARNING [].

(** A world with one specification file, lines on the standard input and
    lines to be typed at the prompt. *)
Definition world_with (lines typed : list string) : World :=
  mkWorld [] [] lines typed "/home/user" {["a.asn" := ["A ::= OCTET STRING"]]}
          logging.WARNING [].

(** ** Reading the parsers *)

Definition is_parsed {A} (o : Outcome A) : bool :=
  match o with
  | Parsed _ => true
  | _ => false
  end.

(** The actions an option string sets off. *)
Definition targets (c : Consumed) : list Action :=
  match c with
  | takes l => map fst l
  | wants l a => map fst l ++ [a]
  | fails _ => []
  end.

(** The argument [t], read as an option of [opts], stores into [d]. *)
Definition selects (opts : list Action) (d : string) (t : string) : bool :=
  match _parse_optional opts t with
  | optional (Some a) option_string explicit_arg =>
      bool_decide (d ∈ map dest (targets (consume_optional opts a option_string explicit_arg)))
  | _ => false
  end.

(** An argument that no parser can take for an option: it does not start
    with a dash, or is the lone dash. *)
Definition plain (t : string) : bool :=
  match t with
  | String c (String _ _) => negb (Ascii.eqb c "-")
  | _ => true
  end.

(** ** Predicates of the statements and of their proofs *)

(** The option that awaits its argument does not store into [d]. *)
Definition pending_avoids (d : string)
  (pending : option (list (Action * list string) * Action)) : Prop :=
  match pending with
  | Some (l, a) => forall v, Forall (fun x => dest (fst x) <> d) (l ++ [(a, v)])
  | None => True
  end.

(** The option that awaits its argument is one of [opts]. *)
Definition pending_in (opts : list Action)
  (pending : option (list (Action * list string) * Action)) : Prop :=
  match pending with
  | Some (l, a) => Forall (fun x => fst x ∈ opts) l /\ a ∈ opts
  | None => True
  end.

(** Every action of [opts] keeps [P]. *)
Definition preserved (prog : string) (opts : list Action) (P : Namespace -> Prop) : Prop :=
  forall a v m m', a ∈ opts -> P m -> take_action prog a v m = Parsed m' -> P m'.

(** The options of the main parser and of the parsers with the two codec
    options, in the order [argparse] holds them. *)
Definition main_options : list Action :=
  [help_action; debug_argument; verbose_argument; version_argument].

Definition convert_options : list Action :=
  [help_action; input_codec_argument ""; output_codec_argument ""].

(** What [_main] reads from the namespace before the subcommand runs. *)
Definition valid_globals (ns : Namespace) : Prop :=
  (exists n, ns !! "verbose" = Some (VInt n) /\ (n = 0 \/ n = 1 \/ n = 2)%Z) /\
  (exists b, ns !! "debug" = Some (VBool b)).

(** [o] followed by [v] cannot be accepted by a parser with the options
    [opts]: [o] is no option of it, or it is a [store] option that refuses
    [v]. *)
Definition rejects (opts : list Action) (o v : string) : Prop :=
  o <> "--" /\ v <> "--" /\
  (_parse_optional opts o = optional None o None \/
   exists a, _parse_optional opts o = optional (Some a) o None /\
             nargs a <> nargs_zero /\
             forall prog ns, is_parsed (take_action prog a [v] ns) = false).

(** A parse that did not fail left arguments over. *)
Definition leftovers (r : Outcome (Namespace * list string)) : Prop :=
  match r with
  | Parsed (_, ex) => ex <> []
  | _ => True
  end.

(** The codec identifiers accepted for the input and for the output. *)
Definition input_codecs : list string := ["ber"; "der"; "per"; "uper"; "jer"; "xer"].
Definition output_codecs : list string := input_codecs ++ ["gser"].

(** Case analysis on membership in a list written out. *)
Ltac cases_of H :=
  repeat (let E := fresh "E" in
          apply elem_of_cons in H as [E|H];
          [try discriminate E; try (injection E as E); subst|]);
  try (apply elem_of_nil in H; destruct H).

(** The world after the prompt returned [text]. *)
Definition prompted (history text : string) (rest : list string) (w : World) : World :=
  set_files (prompt_toolkit.append_to_history history text) (set_terminal rest w).

(** Every run of [m] relates the world before to the world after. *)
Definition respects (R : World -> World -> Prop) {A} (m : M A) : Prop :=
  forall w r w', m w = (r, w') -> R w w'.

(** Nothing was written to persistent storage. *)
Definition same_files (w w' : World) : Prop := files w' = files w.

(** Only the history file was written, and only at its end. *)
Definition history_only (w w' : World) : Prop :=
  home w' = home w /\
  (forall path, path <> history_filename w -> files w' !! path = files w !! path) /\
  exists more,
    from_option id [] (files w' !! history_filename w) =
    from_option id [] (files w !! history_filename w) ++ more.

(** The steps that keep the files: printing, reading, logging, calls. *)
Ltac same_files_steps :=
  unfold same_files; first [reflexivity | by intros; congruence | by intros].

(** The same for a relation given by its reflexivity, its transitivity and
    its holding between worlds with the same files. *)
Ltac frame_steps refl trans same :=
  first [apply refl | apply trans | by intros; apply same].

Create HintDb frame.

(** ** Predicates of the further statements *)

(** What a positional was given: one argument, or for ['+'] at least one. *)
Definition shaped (x : Action * list string) : Prop :=
  match nargs (fst x) with
  | nargs_plus => snd x <> []
  | _ => exists s, snd x = [s]
  end.

(** The codecs that [_compile_files] is given. *)
Definition has_codecs (m : Namespace) : Prop :=
  (exists ic, m !! "input_codec" = Some (VStr ic) /\ ic ∈ input_codecs) /\
  (exists oc, m !! "output_codec" = Some (VStr oc) /\ oc ∈ output_codecs).

(** A list of destinations written out differs from a given one. *)
Ltac dests := repeat (apply Forall_cons_2; [try split; discriminate|]); apply Forall_nil_2.

(** The arguments [toks], none of them an option, are what the positionals
    [acts] take: none is left without an argument and no argument is left
    over. *)
Definition fits (acts : list Action) (toks : list string) : bool :=
  match consume_positionals acts toks with
  | (_, [], []) => true
  | _ => false
  end.

(** The strings that [s] starts with. *)
Fixpoint prefixes (s : string) : list string :=
  EmptyString :: match s with
                 | EmptyString => []
                 | String c s' => map (String c) (prefixes s')
                 end.

(** Every exception that [m] raises satisfies [P]. *)
Definition raises_in (P : Exc -> Prop) {A} (m : M A) : Prop :=
  forall w e w', m w = (Raise e, w') -> P e.

(** The three variables of the shell are set together, the output codec
    to one of the seven. *)
Definition set_together `{Asn1Tools} (c : Compiled) : Prop :=
  c = no_specification \/
  exists i o oc, oc ∈ output_codecs /\ c = mkCompiled (Some i) (Some o) (Some oc).

(** The package raises exceptions of class [Exception] only: it does not
    interrupt or exit the interpreter. *)
Definition raises_exceptions_only `{Asn1Tools} : Prop :=
  (forall fs specifications e,
     parse_files fs specifications = inl e -> isinstance e Exception = true) /\
  (forall tree codec e, compile_dict tree codec = inl e -> isinstance e Exception = true) /\
  (forall spec type_name data e,
     decode spec type_name data = inl e -> isinstance e Exception = true) /\
  (forall spec type_name v indent e,
     encode spec type_name v indent = inl e -> isinstance e Exception = true).

(** The lines still to be typed when the shell returns: those after the
    first [exit]. *)
Fixpoint after_exit (typed : list string) : list string :=
  match typed with
  | [] => []
  | text :: rest => if bool_decide (py.strip text = "exit") then rest else after_exit rest
  end.

(** * Properties *)

(** ** What a successful parse leaves in the namespace *)

Lemma and_then_parsed {A B} (o : Outcome A) (k : A -> Outcome B) b :
  and_then o k = Parsed b -> exists a, o = Parsed a /\ k a = Parsed b.
Proof. destruct o; simpl; intros; try discriminate; eauto. Qed.

Lemma and_then_not_parsed {A B} (o : Outcome A) (k : A -> Outcome B) :
  (forall a, is_parsed (k a) = false) -> is_parsed (and_then o k) = false.
Proof. intros Hk. destruct o; simpl; auto. Qed.

Lemma take_action_dest prog a args ns ns' :
  take_action prog a args ns = Parsed ns' -> exists v, ns' = <[dest a := v]> ns.
Proof.
  unfold take_action. destruct (kind a); try discriminate.
  - destruct args as [|s [|? ?]]; try discriminate.
    destruct (_get_value a s); try discriminate.
    destruct (_check_value a v); try discriminate.
    intros [= <-]. eauto.
  - intros [= <-]. eauto.
Qed.

Lemma take_actions_frame prog l : forall ns ns' d,
  take_actions prog l ns = Parsed ns' ->
  Forall (fun x => dest (fst x) <> d) l ->
  ns' !! d = ns !! d.
Proof.
  induction l as [|[a args] l IH]; simpl; intros ns ns' d Hp Hd.
  - by inversion Hp.
  - apply and_then_parsed in Hp as (ns1 & H1 & H2).
    inversion Hd as [|? ? Ha Hl]; subst. simpl in Ha.
    apply take_action_dest in H1 as (v & ->).
    rewrite (IH _ _ _ H2 Hl). by rewrite lookup_insert_ne.
Qed.

Lemma consume_positionals_sub acts : forall run got missing spare,
  consume_positionals acts run = (got, missing, spare) ->
  Forall (fun x => fst x ∈ acts) got /\ Forall (fun a => a ∈ acts) missing.
Proof.
  induction acts as [|a acts IH]; simpl; intros run got missing spare Hc.
  - inversion Hc; subst. split; constructor.
  - destruct run as [|r run].
    + inversion Hc; subst. split; [constructor|].
      apply Forall_forall. by intros x Hx.
    + destruct (consume_positionals acts _) as [[g m] s] eqn:E.
      inversion Hc; subst. apply IH in E as [Hg Hm]. split.
      * constructor; [simpl; left|].
        eapply Forall_impl; [exact Hg|]. simpl. intros; by right.
      * eapply Forall_impl; [exact Hm|]. simpl. intros; by right.
Qed.

Lemma store_positionals_frame got : forall ns d,
  Forall (fun x => dest (fst x) <> d) got ->
  store_positionals got ns !! d = ns !! d.
Proof.
  unfold store_positionals.
  induction got as [|x got IH]; simpl; intros ns d Hd; [done|].
  inversion Hd; subst. rewrite IH by done. by rewrite lookup_insert_ne.
Qed.

Lemma assign_runs_frame d rs : forall acts ns ns' missing spare,
  Forall (fun a => dest a <> d) acts ->
  assign_runs acts rs ns = (ns', missing, spare) ->
  ns' !! d = ns !! d.
Proof.
  induction rs as [|r rs IH]; simpl; intros acts ns ns' missing spare Hd Ha.
  - by inversion Ha.
  - destruct (consume_positionals acts r) as [[g m] s] eqn:E.
    destruct (assign_runs m rs _) as [[n1 m1] s1] eqn:E1.
    inversion Ha; subst.
    apply consume_positionals_sub in E as [Hg Hm].
    rewrite Forall_forall in Hd.
    erewrite IH; [| |exact E1].
    + apply store_positionals_frame.
      eapply Forall_impl; [exact Hg|]. simpl. intros x Hx. by apply Hd.
    + eapply Forall_impl; [exact Hm|]. simpl. intros x Hx. by apply Hd.
Qed.

Lemma finish_frame p st ns ex d :
  d ∉ map dest (positionals p) ->
  finish p st = Parsed (ns, ex) ->
  ns !! d = namespace st !! d.
Proof.
  intros Hd. unfold finish.
  destruct (assign_runs _ _ _) as [[n m] s] eqn:E.
  destruct m; [|discriminate]. intros [= <- <-].
  eapply assign_runs_frame; [|exact E].
  apply Forall_forall. intros a Ha <-. apply Hd.
  by apply list_elem_of_fmap_2.
Qed.

Lemma selects_takes opts d t a os e l :
  selects opts d t = false ->
  _parse_optional opts t = optional (Some a) os e ->
  consume_optional opts a os e = takes l ->
  Forall (fun x => dest (fst x) <> d) l.
Proof.
  unfold selects. intros Hs Hp Hc. rewrite Hp, Hc in Hs. simpl in Hs.
  apply bool_decide_eq_false in Hs.
  apply Forall_forall. intros x Hx <-. apply Hs.
  apply list_elem_of_fmap. exists (fst x). split; [done|]. by apply list_elem_of_fmap_2.
Qed.

Lemma selects_wants opts d t a os e l a' :
  selects opts d t = false ->
  _parse_optional opts t = optional (Some a) os e ->
  consume_optional opts a os e = wants l a' ->
  forall v, Forall (fun x => dest (fst x) <> d) (l ++ [(a', v)]).
Proof.
  unfold selects. intros Hs Hp Hc v. rewrite Hp, Hc in Hs. simpl in Hs.
  apply bool_decide_eq_false in Hs.
  apply Forall_forall. intros x Hx <-. apply Hs.
  apply list_elem_of_fmap. exists (fst x). split; [done|].
  apply elem_of_app in Hx as [Hx|Hx].
  - apply elem_of_app. left. by apply list_elem_of_fmap_2.
  - apply elem_of_app. right. apply list_elem_of_singleton in Hx as ->. simpl. by left.
Qed.

Lemma consume_untouched p d :
  d ∉ map dest (positionals p) ->
  forall args pending st ns ex,
  Forall (fun t => selects (optionals p) d t = false) args ->
  pending_avoids d pending ->
  consume p args pending st = Parsed (ns, ex) ->
  ns !! d = namespace st !! d.
Proof.
  intros Hd. induction args as [|t rest IH]; intros pending st ns ex Hs Hp Hc.
  - simpl in Hc. destruct pending as [[l a]|]; [discriminate|].
    eapply finish_frame; eauto.
  - inversion Hs as [|? ? Ht Hrest]; subst. simpl in Hc.
    destruct pending as [[l a]|].
    + destruct (String.eqb t "--").
      * destruct rest as [|v rest']; [discriminate|].
        apply and_then_parsed in Hc as (ns1 & H1 & H2).
        apply (finish_frame _ _ _ _ d Hd) in H2. simpl in H2. rewrite H2.
        eapply take_actions_frame; [exact H1|]. apply Hp.
      * destruct (_parse_optional (optionals p) t); try discriminate.
        apply and_then_parsed in Hc as (ns1 & H1 & H2).
        apply IH in H2; [|done|done]. simpl in H2. rewrite H2.
        eapply take_actions_frame; [exact H1|]. apply Hp.
    + destruct (String.eqb t "--").
      * by apply (finish_frame _ _ _ _ d Hd) in Hc.
      * destruct (_parse_optional (optionals p) t) as [|[a|] os e|] eqn:Ep; try discriminate.
        -- by apply IH in Hc.
        -- destruct (consume_optional (optionals p) a os e) as [l|l a'|] eqn:Ec;
             try discriminate.
           ++ apply and_then_parsed in Hc as (ns1 & H1 & H2).
              apply IH in H2; [|done|done]. simpl in H2. rewrite H2.
              eapply take_actions_frame; [exact H1|].
              eapply selects_takes; eauto.
           ++ apply IH in Hc; [done|done|].
              simpl. intros v. eapply selects_wants; eauto.
        -- by apply IH in Hc.
Qed.

(** Actions met while parsing are actions of the parser. *)

Lemma option_string_actions_in opts o a :
  (o, a) ∈ option_string_actions opts -> a ∈ opts.
Proof.
  unfold option_string_actions. intros Hin.
  apply list_elem_of_In, in_flat_map in Hin as (b & Hb & Hin).
  apply in_map_iff in Hin as (s & [= <- <-] & _). by apply list_elem_of_In.
Qed.

Lemma lookup_option_in opts s a : lookup_option opts s = Some a -> a ∈ opts.
Proof.
  unfold lookup_option. destruct (find _ _) as [[o b]|] eqn:E; [|discriminate].
  intros [= <-]. apply find_some in E as [Hin _].
  eapply option_string_actions_in. apply list_elem_of_In. exact Hin.
Qed.

Lemma _get_option_tuples_in opts s a o e :
  (a, o, e) ∈ _get_option_tuples opts s -> a ∈ opts.
Proof.
  unfold _get_option_tuples. destruct (py.startswith s "--").
  - destruct (match py.split_once "=" s with Some (p, e0) => _ | None => _ end) as [pre ex].
    intros Hin. apply list_elem_of_In, in_flat_map in Hin as ([o' b] & Hb & Hin).
    simpl in Hin. destruct (py.startswith o' pre); [|destruct Hin].
    destruct Hin as [[= <- <- <-]|[]].
    eapply option_string_actions_in. apply list_elem_of_In. exact Hb.
  - intros Hin. apply list_elem_of_In, in_flat_map in Hin as ([o' b] & Hb & Hin).
    simpl in Hin.
    destruct (String.eqb o' _); [|destruct (py.startswith o' s); [|destruct Hin]];
      destruct Hin as [[= <- <- <-]|[]];
      eapply option_string_actions_in; apply list_elem_of_In; exact Hb.
Qed.

Lemma _parse_optional_in opts t a o e :
  _parse_optional opts t = optional (Some a) o e -> a ∈ opts.
Proof.
  unfold _parse_optional. destruct t as [|c t]; [discriminate|].
  destruct (negb _); [discriminate|].
  destruct (lookup_option opts (String c t)) as [b|] eqn:El.
  { intros [= <- <- <-]. by apply lookup_option_in in El. }
  destruct (String.length _ =? 1); [discriminate|].
  destruct (match py.split_once "=" (String c t) with Some (o0, e0) => _ | None => None end)
    as [[[b o'] e']|] eqn:Es.
  { intros [= <- <- <-].
    destruct (py.split_once "=" (String c t)) as [[o0 e0]|]; [|discriminate].
    destruct (lookup_option opts o0) eqn:El'; [|discriminate].
    simpl in Es. injection Es as <- <- <-. by apply lookup_option_in in El'. }
  destruct (_get_option_tuples opts (String c t)) as [|[[b o'] e'] [|? ?]] eqn:Et.
  - destruct (_negative_number_matcher _); [discriminate|].
    destruct (py.contains _ _); discriminate.
  - intros [= <- <- <-]. eapply _get_option_tuples_in. rewrite Et. by left.
  - discriminate.
Qed.

Lemma without_argument_in (opts : list Action) a :
  a ∈ opts -> Forall (fun b => b ∈ opts) (targets (without_argument a)).
Proof.
  intros Ha. unfold without_argument. destruct (nargs a); simpl; by repeat constructor.
Qed.

Lemma targets_before x c : targets (before x c) =
  match c with fails _ => [] | _ => fst x :: targets c end.
Proof. by destruct c. Qed.

Lemma with_explicit_arg_in opts e : forall a o,
  a ∈ opts -> Forall (fun b => b ∈ opts) (targets (with_explicit_arg opts a o e)).
Proof.
  induction e as [|c e IH]; intros a o Ha; simpl.
  - destruct (nargs a); simpl; try by repeat constructor.
    destruct (single_dash o); simpl; constructor.
  - destruct (nargs a); simpl; try by repeat constructor.
    destruct (single_dash o); simpl; [|constructor].
    destruct (lookup_option opts _) as [a'|] eqn:El; simpl; [|constructor].
    apply lookup_option_in in El. rewrite targets_before.
    destruct e as [|c' e'].
    + pose proof (without_argument_in opts a' El) as Hw.
      destruct (without_argument a'); simpl in *; by constructor.
    + specialize (IH a' (String "-" (String c EmptyString)) El).
      destruct (with_explicit_arg opts a' _ _); simpl in *; by constructor.
Qed.

Lemma consume_optional_in opts a o e :
  a ∈ opts -> Forall (fun b => b ∈ opts) (targets (consume_optional opts a o e)).
Proof.
  intros Ha. destruct e; simpl.
  - by apply with_explicit_arg_in.
  - by apply without_argument_in.
Qed.

Lemma selects_absent opts d t :
  Forall (fun a => dest a <> d) opts -> selects opts d t = false.
Proof.
  intros Hd. unfold selects.
  destruct (_parse_optional opts t) as [|[a|] o e|] eqn:Ep; try done.
  apply bool_decide_eq_false. intros Hin.
  apply list_elem_of_fmap in Hin as (b & -> & Hb).
  apply _parse_optional_in in Ep.
  pose proof (consume_optional_in opts a o e Ep) as Hall.
  rewrite Forall_forall in Hall, Hd. by apply (Hd b (Hall b Hb)).
Qed.

Lemma set_default_keep ns d v d' v' :
  ns !! d = Some v -> set_default ns d' v' !! d = Some v.
Proof.
  intros Hd. unfold set_default. destruct (ns !! d') eqn:E; [done|].
  rewrite lookup_insert_ne; [done|]. intros ->. congruence.
Qed.

Lemma add_defaults_keep p ns d v :
  ns !! d = Some v -> add_defaults p ns !! d = Some v.
Proof.
  unfold add_defaults. intros Hd.
  assert (forall l m, m !! d = Some v ->
    fold_left (fun ns dv => set_default ns (fst dv) (snd dv)) l m !! d = Some v) as H2.
  { induction l as [|x l IH]; simpl; intros m Hm; [done|].
    apply IH. by apply set_default_keep. }
  apply H2.
  generalize (optionals p ++ positionals p). intros l. revert ns Hd.
  induction l as [|a l IH]; simpl; intros m Hm; [done|].
  apply IH. destruct (default a); [by apply set_default_keep|done].
Qed.

(** A parser leaves alone what none of its arguments is stored under. *)
Lemma parse_known_args_frame p args ns ns' ex d v :
  Forall (fun a => dest a <> d) (optionals p ++ positionals p) ->
  ns !! d = Some v ->
  parse_known_args p args ns = Parsed (ns', ex) ->
  ns' !! d = Some v.
Proof.
  intros Hall Hd. unfold parse_known_args.
  destruct (find_ambiguous _ _); [discriminate|]. intros Hc.
  apply Forall_app in Hall as [Ho Hp].
  apply (consume_untouched p d) in Hc.
  - rewrite Hc. simpl. by apply add_defaults_keep.
  - intros Hin. apply list_elem_of_fmap in Hin as (a & -> & Ha).
    rewrite Forall_forall in Hp. by apply (Hp a Ha).
  - apply Forall_forall. intros t _. by apply selects_absent.
  - done.
Qed.

Lemma take_actions_invariant prog opts P :
  preserved prog opts P ->
  forall l m m', Forall (fun x => fst x ∈ opts) l -> P m ->
  take_actions prog l m = Parsed m' -> P m'.
Proof.
  intros HP. induction l as [|[a v] l IH]; simpl; intros m m' Hl Hm Ht.
  - by inversion Ht; subst.
  - apply and_then_parsed in Ht as (m1 & H1 & H2).
    inversion Hl; subst. eapply IH; [done| |exact H2].
    eapply HP; eauto.
Qed.

Lemma call_subparser_parsed tp name rest ns extras ns' ex :
  call_subparser tp name rest ns extras = Parsed (ns', ex) ->
  exists sub ex1, (name, sub) ∈ subparsers tp /\
    parse_known_args sub rest (<[sub_dest tp := VStr name]> ns) = Parsed (ns', ex1) /\
    ex = extras ++ ex1.
Proof.
  unfold call_subparser.
  destruct (find _ _) as [[n sub]|] eqn:E; [|discriminate].
  intros Hp. apply and_then_parsed in Hp as ([ns1 ex1] & H1 & [= <- <-]).
  apply find_some in E as [Hin Heq]. simpl in Heq.
  apply String.eqb_eq in Heq as ->.
  exists sub, ex1. split; [by apply list_elem_of_In|done].
Qed.

Lemma targets_in_takes (opts : list Action) c l :
  Forall (fun b => b ∈ opts) (targets c) -> c = takes l ->
  Forall (fun x => fst x ∈ opts) l.
Proof. intros H ->. simpl in H. by apply Forall_fmap in H. Qed.

Lemma targets_in_wants (opts : list Action) c l a :
  Forall (fun b => b ∈ opts) (targets c) -> c = wants l a ->
  Forall (fun x => fst x ∈ opts) l /\ a ∈ opts.
Proof.
  intros H ->. simpl in H. apply Forall_app in H as [H1 H2].
  apply Forall_fmap in H1. by inversion H2.
Qed.

(** A successful parse with subparsers: the options in front give [ns1],
    then one subparser reads the rest. *)
Lemma consume_top_parsed tp : forall args pending after ns extras ns' ex,
  pending_in (optionals (top tp)) pending ->
  consume_top tp args pending after ns extras = Parsed (ns', ex) ->
  exists name sub rest ns1 ex0 ex1,
    (name, sub) ∈ subparsers tp /\ rest `suffix_of` args /\
    parse_known_args sub rest (<[sub_dest tp := VStr name]> ns1) = Parsed (ns', ex1) /\
    ex = ex0 ++ ex1 /\
    (forall d, Forall (fun t => selects (optionals (top tp)) d t = false) args ->
               pending_avoids d pending -> ns1 !! d = ns !! d) /\
    (forall P, preserved (prog (top tp)) (optionals (top tp)) P -> P ns -> P ns1).
Proof.
  induction args as [|t rest IH]; intros pending after ns extras ns' ex Hin Hc.
  { simpl in Hc. destruct pending as [[? ?]|]; discriminate. }
  simpl in Hc. destruct pending as [[l a]|].
  - destruct Hin as [Hl Ha].
    assert (forall v, Forall (fun x => fst x ∈ optionals (top tp)) (l ++ [(a, v)])) as Hla.
    { intros v. apply Forall_app. split; [done|]. by repeat constructor. }
    destruct (String.eqb t "--").
    + destruct rest as [|v rest']; [discriminate|].
      apply and_then_parsed in Hc as (ns1 & H1 & H2).
      unfold subcommand_at in H2. destruct rest' as [|name rest'']; [discriminate|].
      apply call_subparser_parsed in H2 as (sub & ex1 & Hsub & Hp & ->).
      exists name, sub, rest'', ns1, extras, ex1. repeat split; try done.
      * exists [t; v; name]. done.
      * intros d _ Hav. eapply take_actions_frame; [exact H1|]. apply Hav.
      * intros P HP HPn.
        eapply (take_actions_invariant _ _ P HP); [apply Hla|exact HPn|exact H1].
    + destruct (_parse_optional (optionals (top tp)) t); try discriminate.
      apply and_then_parsed in Hc as (ns1 & H1 & H2).
      apply IH in H2 as (name & sub & r & ns2 & ex0 & ex1 & Hsub & Hsuf & Hp & -> & Hd & HP);
        [|done].
      exists name, sub, r, ns2, ex0, ex1. repeat split; try done.
      * by apply suffix_cons_r.
      * intros d Hs Hav. inversion Hs; subst. rewrite Hd by done.
        eapply take_actions_frame; [exact H1|]. apply Hav.
      * intros P HPr HPn. apply HP; [done|].
        eapply (take_actions_invariant _ _ P HPr); [apply Hla|exact HPn|exact H1].
  - destruct (String.eqb t "--").
    + destruct after.
      * unfold subcommand_at in Hc. destruct rest as [|name rest']; [discriminate|].
        apply call_subparser_parsed in Hc as (sub & ex1 & Hsub & Hp & ->).
        exists name, sub, rest', ns, extras, ex1. repeat split; try done.
        exists [t; name]. done.
      * destruct rest; discriminate.
    + destruct (_parse_optional (optionals (top tp)) t) as [|[a|] os e|] eqn:Ep;
        try discriminate.
      * apply call_subparser_parsed in Hc as (sub & ex1 & Hsub & Hp & ->).
        exists t, sub, rest, ns, extras, ex1. repeat split; try done.
        exists [t]. done.
      * pose proof (consume_optional_in _ a os e (_parse_optional_in _ _ _ _ _ Ep)) as Hall.
        destruct (consume_optional (optionals (top tp)) a os e) as [l|l a'|] eqn:Ec;
          try discriminate.
        -- apply and_then_parsed in Hc as (ns1 & H1 & H2).
           apply IH in H2 as (name & sub & r & ns2 & ex0 & ex1 & Hsub & Hsuf & Hp & -> & Hd & HP);
             [|done].
           exists name, sub, r, ns2, ex0, ex1. repeat split; try done.
           ++ by apply suffix_cons_r.
           ++ intros d Hs _. inversion Hs; subst. rewrite Hd by done.
              eapply take_actions_frame; [exact H1|]. eapply selects_takes; eauto.
           ++ intros P HPr HPn. apply HP; [done|].
              eapply (take_actions_invariant _ _ P HPr); [|exact HPn|exact H1].
              eapply targets_in_takes; eauto.
        -- apply IH in Hc as (name & sub & r & ns2 & ex0 & ex1 & Hsub & Hsuf & Hp & -> & Hd & HP).
           ++ exists name, sub, r, ns2, ex0, ex1. repeat split; try done.
              ** by apply suffix_cons_r.
              ** intros d Hs _. inversion Hs; subst. apply Hd; [done|].
                 simpl. intros v. eapply selects_wants; eauto.
           ++ simpl. eapply targets_in_wants; eauto.
      * apply IH in Hc as (name & sub & r & ns2 & ex0 & ex1 & Hsub & Hsuf & Hp & -> & Hd & HP);
          [|done].
        exists name, sub, r, ns2, ex0, ex1. repeat split; try done.
        -- by apply suffix_cons_r.
        -- intros d Hs _. inversion Hs; subst. by apply Hd.
Qed.

(** The parsers of the program *)

Lemma main_parser_optionals prog : optionals (top (main_parser prog)) = main_options.
Proof. reflexivity. Qed.

Lemma verbose_choice s n :
  _get_value verbose_argument s = inr (VInt n) ->
  _check_value verbose_argument (VInt n) = None ->
  (n = 0 \/ n = 1 \/ n = 2)%Z.
Proof.
  intros _. unfold _check_value. simpl.
  case_bool_decide as Hin; [|discriminate]. intros _.
  set_unfold in Hin. destruct Hin as [H|[H|[H|[]]]]; inversion H; auto.
Qed.

Lemma valid_globals_preserved prog : preserved prog main_options valid_globals.
Proof.
  intros a v m m' Ha [(n & Hn & Hr) (b & Hb)] Ht.
  unfold main_options in Ha. set_unfold in Ha.
  destruct Ha as [-> | [-> | [-> | [-> | []]]]]; try discriminate.
  - injection Ht as <-. split.
    + exists n. by rewrite lookup_insert_ne.
    + exists true. by rewrite lookup_insert_eq.
  - unfold take_action in Ht. simpl kind in Ht. cbv iota in Ht.
    destruct v as [|s [|? ?]]; try discriminate.
    destruct (_get_value verbose_argument s) as [|x] eqn:Eg; [discriminate|].
    destruct (_check_value verbose_argument x) eqn:Ec; [discriminate|].
    injection Ht as <-.
    assert (exists k, x = VInt k) as [k ->].
    { unfold _get_value in Eg. simpl in Eg. destruct (py.int s); [|discriminate].
      injection Eg as <-. eauto. }
    split.
    + exists k. split; [by rewrite lookup_insert_eq|]. eapply verbose_choice; eauto.
    + exists b. by rewrite lookup_insert_ne.
Qed.

Lemma main_subparsers prog name sub :
  (name, sub) ∈ subparsers (main_parser prog) ->
  Forall (fun a => dest a <> "verbose" /\ dest a <> "debug") (optionals sub ++ positionals sub).
Proof.
  simpl. intros Hin. set_unfold in Hin.
  destruct Hin as [[= -> ->] | [[= -> ->] | []]]; simpl; repeat constructor; discriminate.
Qed.

Lemma main_initial prog :
  valid_globals (set_default (add_defaults (top (main_parser prog)) ∅) "subcommand" VNone).
Proof.
  split; [exists 1%Z|exists false]; split; auto.
Qed.

(** Every successful parse of the command line leaves [verbose] in 0..2
    and [debug] a boolean. *)
Lemma parse_top_valid prog argv args :
  parse_top (main_parser prog) argv = Parsed args -> valid_globals args.
Proof.
  unfold parse_top. destruct (find_ambiguous _ _); [discriminate|].
  unfold no_extras. intros Hp.
  apply and_then_parsed in Hp as ([ns ex] & Hc & Hex). simpl in Hex.
  destruct ex; [|discriminate]. injection Hex as ->.
  apply consume_top_parsed in Hc
    as (name & sub & rest & ns1 & ex0 & ex1 & Hsub & _ & Hp & _ & _ & HP); [|done].
  specialize (HP valid_globals (valid_globals_preserved _) (main_initial prog)).
  destruct HP as [(n & Hn & Hr) (b & Hb)].
  pose proof (main_subparsers _ _ _ Hsub) as Hd.
  split.
  - exists n. split; [|done].
    eapply parse_known_args_frame; [| |exact Hp].
    + eapply Forall_impl; [exact Hd|]. by intros a [? ?].
    + simpl. by rewrite lookup_insert_ne.
  - exists b.
    eapply parse_known_args_frame; [| |exact Hp].
    + eapply Forall_impl; [exact Hd|]. by intros a [? ?].
    + simpl. by rewrite lookup_insert_ne.
Qed.

(** ** The entry point *)

Lemma isinstance_BaseException e : isinstance e BaseException = true.
Proof. unfold isinstance. by destruct (exc_class e). Qed.

Lemma getitem_levels n :
  (n = 0 \/ n = 1 \/ n = 2)%Z ->
  py.getitem levels n =
    Some (if (n =? 0)%Z then logging.CRITICAL
          else if (n =? 1)%Z then logging.WARNING else logging.DEBUG).
Proof. by intros [->|[->| ->]]. Qed.

(** After a successful parse [_main] configures logging and calls the
    function of the subcommand, inside the handler unless [--debug]. *)
Lemma _main_parsed `{Asn1Tools} prog argv args w :
  parse_top (main_parser prog) argv = Parsed args ->
  exists n level debug,
    args !! "verbose" = Some (VInt n) /\ (n = 0 \/ n = 1 \/ n = 2)%Z /\
    py.getitem levels n = Some level /\
    args !! "debug" = Some (VBool debug) /\
    _main prog argv w =
      (if debug then call_func args
       else try_except (call_func args)
              (fun e => isinstance e BaseException)
              (fun e => sys.exit ("error: " +:+ exc_str e)))
        (set_root_level level w).
Proof.
  intros Hp. destruct (parse_top_valid _ _ _ Hp) as [(n & Hn & Hr) (b & Hb)].
  eexists n, _, b. repeat split; [done|done|by apply getitem_levels|done|].
  unfold _main, bind. rewrite Hp. unfold parse_args, ret. cbv beta iota.
  unfold getattr_int. rewrite Hn. unfold ret. cbv beta iota.
  rewrite (getitem_levels n Hr). cbv beta iota.
  unfold logging.basicConfig, getattr_bool. rewrite Hb. reflexivity.
Qed.



(** One step of the two loops. *)
Lemma consume_cons p t rest pending st :
  consume p (t :: rest) pending st =
  match pending with
  | Some (l, a) =>
      if String.eqb t "--" then
        match rest with
        | [] => Failed (prog p) (expected_one_argument (argument_name a))
        | v :: rest' =>
            and_then (take_actions (prog p) (l ++ [(a, [v])]) (namespace st))
              (fun ns => finish p (mkState ns (closed_runs st) rest' (extras st)))
        end
      else
        match _parse_optional (optionals p) t with
        | positional =>
            and_then (take_actions (prog p) (l ++ [(a, [t])]) (namespace st))
              (fun ns => consume p rest None
                           (mkState ns (closed_runs st) (open_run st) (extras st)))
        | _ => Failed (prog p) (expected_one_argument (argument_name a))
        end
  | None =>
      if String.eqb t "--" then
        finish p (mkState (namespace st) (closed_runs st) (open_run st ++ rest) (extras st))
      else
        match _parse_optional (optionals p) t with
        | positional =>
            consume p rest None
              (mkState (namespace st) (closed_runs st) (open_run st ++ [t]) (extras st))
        | ambiguous l => Failed (prog p) (ambiguous_option t l)
        | optional None _ _ =>
            consume p rest None
              (mkState (namespace st) (closed_runs st ++ [open_run st]) []
                       (extras st ++ [t]))
        | optional (Some a) option_string explicit_arg =>
            match consume_optional (optionals p) a option_string explicit_arg with
            | fails e => Failed (prog p) e
            | wants l a' => consume p rest (Some (l, a')) (close_run st)
            | takes l =>
                and_then (take_actions (prog p) l (namespace st))
                  (fun ns => consume p rest None
                               (mkState ns (closed_runs st ++ [open_run st]) [] (extras st)))
            end
        end
  end.
Proof. reflexivity. Qed.

Lemma consume_top_cons tp t rest pending after ns extras :
  consume_top tp (t :: rest) pending after ns extras =
  let p := top tp in
  match pending with
  | Some (l, a) =>
      if String.eqb t "--" then
        match rest with
        | [] => Failed (prog p) (expected_one_argument (argument_name a))
        | v :: rest' =>
            and_then (take_actions (prog p) (l ++ [(a, [v])]) ns)
              (fun ns' => subcommand_at tp rest' ns' extras)
        end
      else
        match _parse_optional (optionals p) t with
        | positional =>
            and_then (take_actions (prog p) (l ++ [(a, [t])]) ns)
              (fun ns' => consume_top tp rest None true ns' extras)
        | _ => Failed (prog p) (expected_one_argument (argument_name a))
        end
  | None =>
      if String.eqb t "--" then
        if after then subcommand_at tp rest ns extras
        else match rest with
             | [] => Failed (prog p) (arguments_required [sub_dest tp])
             | _ :: _ =>
                 Failed (prog p)
                   (invalid_choice (sub_dest tp) (VStr t)
                      (map (fun np => VStr (fst np)) (subparsers tp)))
             end
      else
        match _parse_optional (optionals p) t with
        | positional => call_subparser tp t rest ns extras
        | ambiguous l => Failed (prog p) (ambiguous_option t l)
        | optional None _ _ => consume_top tp rest None false ns (extras ++ [t])
        | optional (Some a) option_string explicit_arg =>
            match consume_optional (optionals p) a option_string explicit_arg with
            | fails e => Failed (prog p) e
            | wants l a' => consume_top tp rest (Some (l, a')) false ns extras
            | takes l =>
                and_then (take_actions (prog p) l ns)
                  (fun ns' => consume_top tp rest None true ns' extras)
            end
        end
  end.
Proof. reflexivity. Qed.

(** ** Arguments that make a parse fail *)

Lemma leftovers_and_then {A} (o : Outcome A) k :
  (forall a, leftovers (k a)) -> leftovers (and_then o k).
Proof. intros Hk. destruct o; simpl; auto. Qed.

Lemma finish_leftovers p st : extras st <> [] -> leftovers (finish p st).
Proof.
  intros Hex. unfold finish. destruct (assign_runs _ _ _) as [[n m] s].
  destruct m; simpl; [|done]. intros Heq. apply app_eq_nil in Heq as [? _]. done.
Qed.

Lemma consume_leftovers p : forall args pending st,
  extras st <> [] -> leftovers (consume p args pending st).
Proof.
  induction args as [|t rest IH]; intros pending st Hex; simpl.
  - destruct pending as [[? ?]|]; [done|]. by apply finish_leftovers.
  - destruct pending as [[l a]|].
    + destruct (String.eqb t "--").
      * destruct rest; [done|]. apply leftovers_and_then. intros ns.
        by apply finish_leftovers.
      * destruct (_parse_optional (optionals p) t); try done.
        apply leftovers_and_then. intros ns. by apply IH.
    + destruct (String.eqb t "--"); [by apply finish_leftovers|].
      destruct (_parse_optional (optionals p) t) as [|[a|] os e|]; try done.
      * by apply IH.
      * destruct (consume_optional (optionals p) a os e); try done.
        -- apply leftovers_and_then. intros ns. by apply IH.
        -- by apply IH.
      * apply IH. simpl. intros Heq. by apply app_eq_nil in Heq as [_ ?].
Qed.

Lemma take_actions_single prog a v ns :
  take_actions prog [(a, v)] ns = and_then (take_action prog a v ns) Parsed.
Proof. reflexivity. Qed.

Lemma consume_rejects p o v post :
  rejects (optionals p) o v ->
  forall pre pending st, "--" ∉ pre ->
  leftovers (consume p (pre ++ o :: v :: post) pending st).
Proof.
  intros (Ho & Hv & Hr). apply String.eqb_neq in Ho, Hv.
  induction pre as [|t pre IH]; intros pending st Hdd.
  - cbn [app]. rewrite consume_cons, Ho.
    destruct pending as [[l a]|].
    { destruct Hr as [->|(a' & -> & _)]; done. }
    destruct Hr as [->|(a & -> & Hn & Hrej)].
    + apply consume_leftovers. simpl. intros Heq. by apply app_eq_nil in Heq as [_ ?].
    + assert (consume_optional (optionals p) a o None = wants [] a) as ->.
      { unfold consume_optional, without_argument. by destruct (nargs a). }
      rewrite consume_cons, Hv.
      destruct (_parse_optional (optionals p) v); try done.
      specialize (Hrej (prog p) (namespace (close_run st))).
      cbn [app take_actions].
      destruct (take_action (prog p) a [v] _); simpl; done.
  - assert (t <> "--") as Ht by (intros ->; apply Hdd; by left).
    assert ("--" ∉ pre) as Hpre by (intros Hin; apply Hdd; by right).
    apply String.eqb_neq in Ht. cbn [app]. rewrite consume_cons, Ht.
    destruct pending as [[l a]|].
    + destruct (_parse_optional (optionals p) t); try done.
      apply leftovers_and_then. intros ns. by apply IH.
    + destruct (_parse_optional (optionals p) t) as [|[a|] os e|]; try done.
      * by apply IH.
      * destruct (consume_optional (optionals p) a os e); try done.
        -- apply leftovers_and_then. intros ns. by apply IH.
        -- by apply IH.
      * by apply IH.
Qed.

Lemma call_subparser_leftovers tp name rest ns extras :
  (extras <> [] \/ forall sub ns0, (name, sub) ∈ subparsers tp ->
                     leftovers (parse_known_args sub rest ns0)) ->
  leftovers (call_subparser tp name rest ns extras).
Proof.
  intros Hor. unfold call_subparser.
  destruct (find _ _) as [[n sub]|] eqn:E; [|done].
  apply find_some in E as [Hin Heq]. simpl in Heq. apply String.eqb_eq in Heq as ->.
  destruct (parse_known_args sub rest _) as [[ns1 ex1]| |] eqn:Ep; simpl; try done.
  intros Heq. apply app_eq_nil in Heq as [-> ->].
  destruct Hor as [?|Hs]; [done|].
  specialize (Hs sub (<[sub_dest tp:=VStr name]> ns) (proj2 (list_elem_of_In _ _) Hin)). rewrite Ep in Hs. done.
Qed.

Lemma consume_top_leftovers tp : forall args pending after ns extras,
  extras <> [] -> leftovers (consume_top tp args pending after ns extras).
Proof.
  induction args as [|t rest IH]; intros pending after ns extras Hex; simpl.
  - by destruct pending as [[? ?]|].
  - destruct pending as [[l a]|].
    + destruct (String.eqb t "--").
      * destruct rest as [|v rest]; [done|]. apply leftovers_and_then. intros ns'.
        destruct rest; simpl; [done|]. apply call_subparser_leftovers. by left.
      * destruct (_parse_optional _ t); try done.
        apply leftovers_and_then. intros ns'. by apply IH.
    + destruct (String.eqb t "--").
      * destruct after; [|by destruct rest].
        destruct rest; simpl; [done|]. apply call_subparser_leftovers. by left.
      * destruct (_parse_optional _ t) as [|[a|] os e|]; try done.
        -- apply call_subparser_leftovers. by left.
        -- destruct (consume_optional _ a os e); try done.
           ++ apply leftovers_and_then. intros ns'. by apply IH.
           ++ by apply IH.
        -- apply IH. intros Heq. by apply app_eq_nil in Heq as [_ ?].
Qed.

Lemma parse_known_args_rejects p o v pre post ns :
  rejects (optionals p) o v -> "--" ∉ pre ->
  leftovers (parse_known_args p (pre ++ o :: v :: post) ns).
Proof.
  intros Hr Hdd. unfold parse_known_args.
  destruct (find_ambiguous _ _); [done|]. by apply consume_rejects.
Qed.

Lemma consume_top_rejects tp o v post :
  rejects (optionals (top tp)) o v ->
  (forall name sub, (name, sub) ∈ subparsers tp -> rejects (optionals sub) o v) ->
  forall pre pending after ns extras, "--" ∉ pre ->
  leftovers (consume_top tp (pre ++ o :: v :: post) pending after ns extras).
Proof.
  intros (Ho & Hv & Hr) Hsub. apply String.eqb_neq in Ho, Hv.
  induction pre as [|t pre IH]; intros pending after ns extras Hdd.
  - cbn [app]. rewrite consume_top_cons, Ho. cbv zeta.
    destruct pending as [[l a]|].
    { destruct Hr as [->|(a' & -> & _)]; done. }
    destruct Hr as [->|(a & -> & Hn & Hrej)].
    + apply consume_top_leftovers. intros Heq. by apply app_eq_nil in Heq as [_ ?].
    + assert (consume_optional (optionals (top tp)) a o None = wants [] a) as ->.
      { unfold consume_optional, without_argument. by destruct (nargs a). }
      rewrite consume_top_cons, Hv. cbv zeta.
      destruct (_parse_optional (optionals (top tp)) v); try done.
      specialize (Hrej (prog (top tp)) ns).
      cbn [app take_actions].
      destruct (take_action (prog (top tp)) a [v] _); simpl; done.
  - assert (t <> "--") as Ht by (intros ->; apply Hdd; by left).
    assert ("--" ∉ pre) as Hpre by (intros Hin; apply Hdd; by right).
    apply String.eqb_neq in Ht. cbn [app]. rewrite consume_top_cons, Ht. cbv zeta.
    destruct pending as [[l a]|].
    + destruct (_parse_optional _ t); try done.
      apply leftovers_and_then. intros ns'. by apply IH.
    + destruct (_parse_optional _ t) as [|[a|] os e|]; try done.
      * apply call_subparser_leftovers. right. intros sub ns0 Hin.
        apply parse_known_args_rejects; [by eapply Hsub|done].
      * destruct (consume_optional _ a os e); try done.
        -- apply leftovers_and_then. intros ns'. by apply IH.
        -- by apply IH.
      * by apply IH.
Qed.

Lemma no_extras_leftovers prog r : leftovers r -> is_parsed (no_extras prog r) = false.
Proof.
  unfold no_extras. destruct r as [[ns ex]| |]; simpl; try done.
  by destruct ex.
Qed.

Lemma parse_rejects p o v pre post :
  rejects (optionals p) o v -> "--" ∉ pre ->
  is_parsed (parse p (pre ++ o :: v :: post)) = false.
Proof.
  intros. apply no_extras_leftovers. by apply parse_known_args_rejects.
Qed.

Lemma parse_top_rejects tp o v pre post :
  rejects (optionals (top tp)) o v ->
  (forall name sub, (name, sub) ∈ subparsers tp -> rejects (optionals sub) o v) ->
  "--" ∉ pre ->
  is_parsed (parse_top tp (pre ++ o :: v :: post)) = false.
Proof.
  intros Hr Hsub Hdd. unfold parse_top.
  destruct (find_ambiguous _ _); [done|].
  apply no_extras_leftovers. by apply consume_top_rejects.
Qed.

Lemma plain_not_separator t : plain t = true -> String.eqb t "--" = false.
Proof.
  intros Hp. apply String.eqb_neq. intros ->. discriminate.
Qed.

Lemma plain_positional opts t :
  lookup_option opts "-" = None -> plain t = true -> _parse_optional opts t = positional.
Proof.
  intros Hl Hp. destruct t as [|c t]; [done|]. simpl.
  destruct (Ascii.eqb_spec c "-") as [->|Hc]; [|done]. simpl.
  destruct t as [|c' t]; [|discriminate]. by rewrite Hl.
Qed.

Lemma find_ambiguous_plain opts toks :
  lookup_option opts "-" = None -> Forall (fun t => plain t = true) toks ->
  find_ambiguous opts toks = None.
Proof.
  intros Hl. induction 1 as [|t toks Ht _ IH]; simpl; [done|].
  rewrite (plain_not_separator t Ht), (plain_positional opts t Hl Ht). done.
Qed.

Lemma consume_plain p toks : forall st,
  lookup_option (optionals p) "-" = None -> Forall (fun t => plain t = true) toks ->
  consume p toks None st =
    finish p (mkState (namespace st) (closed_runs st) (open_run st ++ toks) (extras st)).
Proof.
  induction toks as [|t toks IH]; intros st Hl Hall; simpl.
  - rewrite app_nil_r. by destruct st.
  - inversion Hall as [|? ? Ht Htoks]; subst.
    rewrite (plain_not_separator t Ht), (plain_positional _ t Hl Ht).
    rewrite IH by done. simpl. by rewrite <- app_assoc.
Qed.

Lemma consume_store p o a v rest st ns' :
  String.eqb o "--" = false ->
  _parse_optional (optionals p) o = optional (Some a) o None ->
  nargs a = nargs_none ->
  lookup_option (optionals p) "-" = None -> plain v = true ->
  take_action (prog p) a [v] (namespace st) = Parsed ns' ->
  consume p (o :: v :: rest) None st =
    consume p rest None (mkState ns' (closed_runs st ++ [open_run st]) [] (extras st)).
Proof.
  intros Ho Hp Hn Hl Hv Ht. simpl. rewrite Ho, Hp.
  unfold consume_optional, without_argument. rewrite Hn.
  rewrite (plain_not_separator v Hv), (plain_positional _ v Hl Hv).
  simpl. rewrite Ht. reflexivity.
Qed.

(** The positionals [specification+ type hexstring] on one run. *)
Lemma consume_positionals_convert specs ty hex :
  specs <> [] ->
  consume_positionals [specification_argument; type_argument; hexstring_argument]
                      (specs ++ [ty; hex])
  = ([(specification_argument, specs); (type_argument, [ty]); (hexstring_argument, [hex])],
     [], []).
Proof.
  intros Hs. destruct specs as [|s specs]; [done|].
  cbn [consume_positionals app nargs specification_argument].
  replace (length (s :: specs ++ [ty; hex]) - Nat.min (length [type_argument; hexstring_argument])
             (length (s :: specs ++ [ty; hex]) - 1)) with (length (s :: specs)).
  2:{ cbn [length]. rewrite length_app. cbn [length]. rewrite Nat.min_l by lia. lia. }
  change (s :: specs ++ [ty; hex]) with ((s :: specs) ++ [ty; hex]).
  rewrite take_app_length, drop_app_length. reflexivity.
Qed.

Lemma consume_positionals_compile specs :
  specs <> [] ->
  consume_positionals [specification_argument] specs
  = ([(specification_argument, specs)], [], []).
Proof.
  intros Hs. destruct specs as [|s specs]; [done|].
  cbn [consume_positionals app nargs specification_argument].
  replace (length (s :: specs) - Nat.min (length (@nil Action)) (length (s :: specs) - 1))
    with (length (s :: specs)) by (cbn [length]; rewrite Nat.min_l by lia; lia).
  rewrite firstn_all, skipn_all. reflexivity.
Qed.

Lemma elem_of_map_VStr v l : VStr v ∈ map VStr l <-> v ∈ l.
Proof.
  rewrite !list_elem_of_In, in_map_iff. split.
  - by intros (x & [= ->] & Hx).
  - intros Hx. by exists v.
Qed.

Lemma input_codecs_plain i : i ∈ input_codecs -> plain i = true.
Proof. unfold input_codecs. intros Hin. cases_of Hin; reflexivity. Qed.

Lemma output_codecs_plain o : o ∈ output_codecs -> plain o = true.
Proof. unfold output_codecs, input_codecs. simpl. intros Hin. cases_of Hin; reflexivity. Qed.

Lemma input_codecs_choices v :
  v ∈ input_codecs <-> VStr v ∈ map VStr ["ber"; "der"; "jer"; "per"; "uper"; "xer"].
Proof.
  rewrite elem_of_map_VStr. unfold input_codecs. split; intros Hin; cases_of Hin; set_solver.
Qed.

Lemma output_codecs_choices v :
  v ∈ output_codecs <-> VStr v ∈ map VStr ["ber"; "der"; "jer"; "per"; "uper"; "xer"; "gser"].
Proof.
  rewrite elem_of_map_VStr. unfold output_codecs, input_codecs. simpl.
  split; intros Hin; cases_of Hin; set_solver.
Qed.

Lemma store_input_codec prog h i ns :
  i ∈ input_codecs ->
  take_action prog (input_codec_argument h) [i] ns = Parsed (<["input_codec" := VStr i]> ns).
Proof.
  intros Hin. unfold take_action, _get_value, _check_value.
  cbn [kind type choices input_codec_argument].
  rewrite bool_decide_eq_true_2; [done|]. by apply input_codecs_choices.
Qed.

Lemma store_output_codec prog h o ns :
  o ∈ output_codecs ->
  take_action prog (output_codec_argument h) [o] ns = Parsed (<["output_codec" := VStr o]> ns).
Proof.
  intros Hin. unfold take_action, _get_value, _check_value.
  cbn [kind type choices output_codec_argument].
  rewrite bool_decide_eq_true_2; [done|]. by apply output_codecs_choices.
Qed.

Lemma refuse_input_codec prog h v ns :
  v ∉ input_codecs ->
  is_parsed (take_action prog (input_codec_argument h) [v] ns) = false.
Proof.
  intros Hin. unfold take_action, _get_value, _check_value.
  cbn [kind type choices input_codec_argument].
  rewrite bool_decide_eq_false_2; [done|]. by rewrite <- input_codecs_choices.
Qed.

Lemma refuse_output_codec prog h v ns :
  v ∉ output_codecs ->
  is_parsed (take_action prog (output_codec_argument h) [v] ns) = false.
Proof.
  intros Hin. unfold take_action, _get_value, _check_value.
  cbn [kind type choices output_codec_argument].
  rewrite bool_decide_eq_false_2; [done|]. by rewrite <- output_codecs_choices.
Qed.

Lemma find_ambiguous_option opts t rest a os e :
  String.eqb t "--" = false -> _parse_optional opts t = optional a os e ->
  find_ambiguous opts (t :: rest) = find_ambiguous opts rest.
Proof. intros Ht Hp. simpl. by rewrite Ht, Hp. Qed.

Lemma find_ambiguous_plain_cons opts t rest :
  lookup_option opts "-" = None -> plain t = true ->
  find_ambiguous opts (t :: rest) = find_ambiguous opts rest.
Proof.
  intros Hl Ht. simpl. by rewrite (plain_not_separator t Ht), (plain_positional opts t Hl Ht).
Qed.

(** A parser with the two codec options, given both of them and then
    plain arguments only. *)
Lemma parse_known_args_codecs p ns0 i o run :
  optionals p = convert_options ->
  i ∈ input_codecs -> o ∈ output_codecs -> Forall (fun t => plain t = true) run ->
  parse_known_args p ("-i" :: i :: "-o" :: o :: run) ns0 =
    finish p (mkState (<["output_codec" := VStr o]> (<["input_codec" := VStr i]> (add_defaults p ns0)))
                      [[]; []] run []).
Proof.
  intros Hopts Hi Ho Hrun. unfold parse_known_args.
  pose proof (input_codecs_plain i Hi) as Hpi.
  pose proof (output_codecs_plain o Ho) as Hpo.
  assert (lookup_option (optionals p) "-" = None) as Hl by (by rewrite Hopts).
  rewrite Hopts.
  rewrite (find_ambiguous_option convert_options "-i" _ (Some (input_codec_argument "")) "-i" None)
    by reflexivity.
  rewrite find_ambiguous_plain_cons by done.
  rewrite (find_ambiguous_option convert_options "-o" _ (Some (output_codec_argument "")) "-o" None)
    by reflexivity.
  rewrite find_ambiguous_plain_cons by done.
  rewrite find_ambiguous_plain by done.
  rewrite (consume_store p "-i" (input_codec_argument "") i _ _
             (<["input_codec" := VStr i]> (add_defaults p ns0)));
    [|reflexivity|by rewrite Hopts|reflexivity|done|done|by apply store_input_codec].
  rewrite (consume_store p "-o" (output_codec_argument "") o _ _
             (<["output_codec" := VStr o]> (<["input_codec" := VStr i]> (add_defaults p ns0))));
    [|reflexivity|by rewrite Hopts|reflexivity|done|done|by apply store_output_codec].
  rewrite consume_plain by done. reflexivity.
Qed.

Lemma consume_positionals_nil acts : consume_positionals acts [] = ([], acts, []).
Proof. by destruct acts. Qed.

Lemma assign_runs_nil_run acts rs ns :
  assign_runs acts ([] :: rs) ns = assign_runs acts rs ns.
Proof.
  cbn [assign_runs]. rewrite consume_positionals_nil.
  cbn [store_positionals fold_left]. by destruct (assign_runs acts rs ns) as [[? ?] ?].
Qed.

Lemma assign_runs_single acts r ns :
  assign_runs acts [r] ns =
    let '(got, missing, spare) := consume_positionals acts r in
    (store_positionals got ns, missing, spare ++ []).
Proof. reflexivity. Qed.

Lemma finish_convert prog ns specs ty hex :
  specs <> [] ->
  finish (convert_subparser prog) (mkState ns [[]; []] (specs ++ [ty; hex]) []) =
    Parsed (<["hexstring" := VStr hex]>
              (<["type" := VStr ty]> (<["specification" := VList specs]> ns)), []).
Proof.
  intros Hs. unfold finish.
  change (positionals (convert_subparser prog))
    with [specification_argument; type_argument; hexstring_argument].
  cbn [namespace closed_runs open_run extras app].
  rewrite !assign_runs_nil_run, assign_runs_single.
  rewrite (consume_positionals_convert specs ty hex Hs). reflexivity.
Qed.

Lemma finish_compile ns specs :
  specs <> [] ->
  finish compile_parser (mkState ns [[]; []] specs []) =
    Parsed (<["specification" := VList specs]> ns, []).
Proof.
  intros Hs. unfold finish.
  change (positionals compile_parser) with [specification_argument].
  cbn [namespace closed_runs open_run extras app].
  rewrite !assign_runs_nil_run, assign_runs_single.
  rewrite (consume_positionals_compile specs Hs). reflexivity.
Qed.

(** The shell's [compile] with both codecs given. *)
Lemma parse_compile_codecs i o specs :
  i ∈ input_codecs -> o ∈ output_codecs -> specs <> [] ->
  Forall (fun t => plain t = true) specs ->
  exists args,
    parse compile_parser ("-i" :: i :: "-o" :: o :: specs) = Parsed args /\
    args !! "input_codec" = Some (VStr i) /\
    args !! "output_codec" = Some (VStr o) /\
    args !! "specification" = Some (VList specs).
Proof.
  intros Hi Ho Hs Hp. eexists. split.
  - unfold parse. rewrite parse_known_args_codecs by done.
    rewrite finish_compile by done. reflexivity.
  - cbn [fst]. split; [|split].
    + rewrite lookup_insert_ne by done. rewrite lookup_insert_ne by done.
      by rewrite lookup_insert_eq.
    + rewrite lookup_insert_ne by done. by rewrite lookup_insert_eq.
    + by rewrite lookup_insert_eq.
Qed.

(** The [convert] subcommand with both codecs given. *)
Lemma parse_top_convert_codecs prog i o specs ty hex :
  i ∈ input_codecs -> o ∈ output_codecs -> specs <> [] ->
  Forall (fun t => plain t = true) (specs ++ [ty; hex]) ->
  exists args,
    parse_top (main_parser prog) ("convert" :: "-i" :: i :: "-o" :: o :: specs ++ [ty; hex])
      = Parsed args /\
    args !! "input_codec" = Some (VStr i) /\
    args !! "output_codec" = Some (VStr o) /\
    args !! "specification" = Some (VList specs) /\
    args !! "type" = Some (VStr ty) /\
    args !! "hexstring" = Some (VStr hex).
Proof.
  intros Hi Ho Hs Hp. eexists. split.
  - unfold parse_top. rewrite main_parser_optionals.
    pose proof (input_codecs_plain i Hi) as Hpi.
    pose proof (output_codecs_plain o Ho) as Hpo.
    rewrite find_ambiguous_plain_cons by done.
    rewrite (find_ambiguous_option main_options "-i" _ None "-i" None) by reflexivity.
    rewrite find_ambiguous_plain_cons by done.
    rewrite (find_ambiguous_option main_options "-o" _ None "-o" None) by reflexivity.
    rewrite find_ambiguous_plain_cons by done.
    rewrite find_ambiguous_plain by done.
    rewrite consume_top_cons. cbv zeta. rewrite main_parser_optionals.
    change (String.eqb "convert" "--") with false. cbv iota.
    change (_parse_optional main_options "convert") with positional. cbv iota.
    change (call_subparser (main_parser prog) "convert" ?rest ?ns ?ex)
      with (and_then (parse_known_args (convert_subparser prog) rest
                        (<["subcommand" := VStr "convert"]> ns))
                     (fun x => Parsed (fst x, ex ++ snd x))).
    rewrite parse_known_args_codecs by done.
    rewrite finish_convert by done. reflexivity.
  - cbn [fst]. split; [|split; [|split; [|split]]].
    + do 4 (rewrite lookup_insert_ne by done). by rewrite lookup_insert_eq.
    + do 3 (rewrite lookup_insert_ne by done). by rewrite lookup_insert_eq.
    + do 2 (rewrite lookup_insert_ne by done). by rewrite lookup_insert_eq.
    + rewrite lookup_insert_ne by done. by rewrite lookup_insert_eq.
    + by rewrite lookup_insert_eq.
Qed.

(** The codec options against the three parsers they can reach. *)

Lemma convert_subparser_optionals prog : optionals (convert_subparser prog) = convert_options.
Proof. reflexivity. Qed.

Lemma compile_parser_optionals : optionals compile_parser = convert_options.
Proof. reflexivity. Qed.

Lemma rejects_input_codec v o :
  o ∈ ["-i"; "--input-codec"] -> v ∉ input_codecs -> v <> "--" ->
  rejects main_options o v /\ rejects convert_options o v /\ rejects [help_action] o v.
Proof.
  intros Ho Hv Hdd. cases_of Ho.
  - split; [|split]; (split; [done|split; [done|]]); [by left| |by left].
    right. exists (input_codec_argument ""). split; [reflexivity|]. split; [done|].
    intros prog ns. by apply refuse_input_codec.
  - split; [|split]; (split; [done|split; [done|]]); [by left| |by left].
    right. exists (input_codec_argument ""). split; [reflexivity|]. split; [done|].
    intros prog ns. by apply refuse_input_codec.
Qed.

Lemma rejects_output_codec v o :
  o ∈ ["-o"; "--output-codec"] -> v ∉ output_codecs -> v <> "--" ->
  rejects main_options o v /\ rejects convert_options o v /\ rejects [help_action] o v.
Proof.
  intros Ho Hv Hdd. cases_of Ho.
  - split; [|split]; (split; [done|split; [done|]]); [by left| |by left].
    right. exists (output_codec_argument ""). split; [reflexivity|]. split; [done|].
    intros prog ns. by apply refuse_output_codec.
  - split; [|split]; (split; [done|split; [done|]]); [by left| |by left].
    right. exists (output_codec_argument ""). split; [reflexivity|]. split; [done|].
    intros prog ns. by apply refuse_output_codec.
Qed.

Lemma main_parser_rejects prog o v pre post :
  rejects main_options o v -> rejects convert_options o v -> rejects [help_action] o v ->
  "--" ∉ pre ->
  is_parsed (parse_top (main_parser prog) (pre ++ o :: v :: post)) = false.
Proof.
  intros Hm Hc Hs Hdd. apply parse_top_rejects; [done| |done].
  intros name sub Hin. cbn [subparsers main_parser] in Hin. cases_of Hin; done.
Qed.

(** C4: an input codec outside ber, der, per, uper, jer, xer given to [-i]
    or [--input-codec], or an output codec outside these and gser given to
    [-o] or [--output-codec], makes the command line of [convert] and the
    arguments of the shell's [compile] fail to parse, wherever the option
    stands in front of a [--]; in particular [-i gser] is rejected; and
    with any of the six for [-i] and any of the seven for [-o], followed by
    plain positional arguments, both parsers accept and store the two
    codecs. *)
Theorem codec_identifiers prog :
  (forall c o pre post,
     o ∈ ["-i"; "--input-codec"] -> c ∉ input_codecs -> c <> "--" -> "--" ∉ pre ->
     is_parsed (parse_top (main_parser prog) (pre ++ o :: c :: post)) = false /\
     is_parsed (parse compile_parser (pre ++ o :: c :: post)) = false) /\
  (forall c o pre post,
     o ∈ ["-o"; "--output-codec"] -> c ∉ output_codecs -> c <> "--" -> "--" ∉ pre ->
     is_parsed (parse_top (main_parser prog) (pre ++ o :: c :: post)) = false /\
     is_parsed (parse compile_parser (pre ++ o :: c :: post)) = false) /\
  (forall pre post, "--" ∉ pre ->
     is_parsed (parse_top (main_parser prog) (pre ++ "-i" :: "gser" :: post)) = false) /\
  (forall i o specs ty hex,
     i ∈ input_codecs -> o ∈ output_codecs -> specs <> [] ->
     Forall (fun t => plain t = true) (specs ++ [ty; hex]) ->
     (exists args,
        parse_top (main_parser prog) ("convert" :: "-i" :: i :: "-o" :: o :: specs ++ [ty; hex])
          = Parsed args /\
        args !! "input_codec" = Some (VStr i) /\ args !! "output_codec" = Some (VStr o)) /\
     (exists args,
        parse compile_parser ("-i" :: i :: "-o" :: o :: specs) = Parsed args /\
        args !! "input_codec" = Some (VStr i) /\ args !! "output_codec" = Some (VStr o))).
Proof.
  split; [|split; [|split]].
  - intros c o pre post Ho Hc Hdd Hpre.
    destruct (rejects_input_codec c o Ho Hc Hdd) as (Hm & Hcv & Hs). split.
    + by apply main_parser_rejects.
    + apply parse_rejects; [by rewrite compile_parser_optionals|done].
  - intros c o pre post Ho Hc Hdd Hpre.
    destruct (rejects_output_codec c o Ho Hc Hdd) as (Hm & Hcv & Hs). split.
    + by apply main_parser_rejects.
    + apply parse_rejects; [by rewrite compile_parser_optionals|done].
  - intros pre post Hpre.
    assert ("gser" ∉ input_codecs) as Hc by (intros Hin; unfold input_codecs in Hin; cases_of Hin).
    destruct (rejects_input_codec "gser" "-i") as (Hm & Hcv & Hs); [set_solver|done|done|].
    by apply main_parser_rejects.
  - intros i o specs ty hex Hi Ho Hs Hp. split.
    + destruct (parse_top_convert_codecs prog i o specs ty hex Hi Ho Hs Hp)
        as (args & H1 & H2 & H3 & _).
      by exists args.
    + apply Forall_app in Hp as [Hp _].
      destruct (parse_compile_codecs i o specs Hi Ho Hs Hp) as (args & H1 & H2 & H3 & _).
      by exists args.
Qed.

(** [-d convert -i gser ...] and [compile --output-codec ger a.asn] are
    rejected, [convert -i uper -o gser a.asn b.asn A -] is accepted. *)
Lemma codec_identifiers_witness :
  is_parsed (parse_top (main_parser "asn1tools")
               (["-d"; "convert"] ++ "-i" :: "gser" :: ["a.asn"; "A"; "00"])) = false /\
  is_parsed (parse compile_parser ([] ++ "--output-codec" :: "ger" :: ["a.asn"])) = false /\
  exists args,
    parse_top (main_parser "asn1tools")
      ("convert" :: "-i" :: "uper" :: "-o" :: "gser" :: ["a.asn"; "b.asn"] ++ ["A"; "-"])
      = Parsed args /\
    args !! "input_codec" = Some (VStr "uper") /\ args !! "output_codec" = Some (VStr "gser").
Proof.
  destruct (codec_identifiers "asn1tools") as (Hin & Hout & Hgser & Hok).
  split; [|split].
  - apply Hgser. intros H. cases_of H.
  - apply Hout.
    + apply elem_of_cons. right. apply elem_of_cons. by left.
    + intros H. unfold output_codecs, input_codecs in H. cbn [app] in H. cases_of H.
    + discriminate.
    + apply not_elem_of_nil.
  - apply Hok.
    + unfold input_codecs. do 3 (apply elem_of_cons; right). apply elem_of_cons. by left.
    + unfold output_codecs. apply elem_of_app. right. apply elem_of_cons. by left.
    + discriminate.
    + repeat constructor.
Defined.

(** ** Defaults *)

Lemma set_default_ne ns d d' v : d <> d' -> set_default ns d' v !! d = ns !! d.
Proof.
  intros Hne. unfold set_default. destruct (ns !! d'); [done|].
  by rewrite lookup_insert_ne.
Qed.

Lemma set_default_None ns d v : ns !! d = None -> set_default ns d v !! d = Some v.
Proof. intros Hn. unfold set_default. rewrite Hn. by rewrite lookup_insert_eq. Qed.

Lemma add_defaults_codecs p ns :
  optionals p = convert_options ->
  Forall (fun a => dest a <> "input_codec" /\ dest a <> "output_codec") (positionals p) ->
  Forall (fun dv => fst dv <> "input_codec" /\ fst dv <> "output_codec") (defaults p) ->
  (ns !! "input_codec" = None -> add_defaults p ns !! "input_codec" = Some (VStr "ber")) /\
  (ns !! "output_codec" = None -> add_defaults p ns !! "output_codec" = Some (VStr "gser")).
Proof.
  intros Ho Hp Hd. unfold add_defaults. rewrite Ho.
  assert (forall d l m, Forall (fun dv => fst dv <> d) l ->
    fold_left (fun ns dv => set_default ns (fst dv) (snd dv)) l m !! d = m !! d) as H2.
  { intros d. induction l as [|x l IH]; intros m Hl; [done|].
    inversion Hl; subst. cbn [fold_left]. rewrite IH by done. by apply set_default_ne. }
  assert (forall d l m, Forall (fun a => dest a <> d) l ->
    fold_left (fun ns a => match default a with
                           | Some v => set_default ns (dest a) v
                           | None => ns
                           end) l m !! d = m !! d) as H1.
  { intros d. induction l as [|x l IH]; intros m Hl; [done|].
    inversion Hl; subst. cbn [fold_left]. rewrite IH by done.
    destruct (default x); [by apply set_default_ne|done]. }
  split; intros Hn.
  - rewrite H2 by (eapply Forall_impl; [exact Hd|]; by intros ? [? ?]).
    rewrite fold_left_app.
    rewrite H1 by (eapply Forall_impl; [exact Hp|]; by intros ? [? ?]).
    cbn [fold_left convert_options default dest help_action input_codec_argument
         output_codec_argument].
    rewrite set_default_ne by done. by apply set_default_None.
  - rewrite H2 by (eapply Forall_impl; [exact Hd|]; by intros ? [? ?]).
    rewrite fold_left_app.
    rewrite H1 by (eapply Forall_impl; [exact Hp|]; by intros ? [? ?]).
    cbn [fold_left convert_options default dest help_action input_codec_argument
         output_codec_argument].
    apply set_default_None. by rewrite set_default_ne.
Qed.

Lemma Forall_suffix {A} (P : A -> Prop) (l k : list A) :
  l `suffix_of` k -> Forall P k -> Forall P l.
Proof. intros [pre ->] Hk. by apply Forall_app in Hk as [_ ?]. Qed.

(** A parser with the codec options leaves [d] at its default when no
    argument selects it. *)
Lemma parse_known_args_default p args ns ns' ex d :
  d ∉ map dest (positionals p) ->
  Forall (fun t => selects (optionals p) d t = false) args ->
  parse_known_args p args ns = Parsed (ns', ex) ->
  ns' !! d = add_defaults p ns !! d.
Proof.
  intros Hd Hs. unfold parse_known_args.
  destruct (find_ambiguous _ _); [discriminate|]. intros Hc.
  by apply (consume_untouched p d Hd) in Hc.
Qed.

Lemma main_initial_lookup prog d :
  d = "input_codec" \/ d = "output_codec" ->
  set_default (add_defaults (top (main_parser prog)) ∅) "subcommand" VNone !! d = None.
Proof. by intros [-> | ->]. Qed.

Lemma parse_top_parsed prog argv args :
  parse_top (main_parser prog) argv = Parsed args ->
  exists name sub rest ns1,
    (name, sub) ∈ subparsers (main_parser prog) /\ rest `suffix_of` argv /\
    parse_known_args sub rest (<["subcommand" := VStr name]> ns1) = Parsed (args, []) /\
    (forall d, Forall (fun t => selects main_options d t = false) argv ->
       ns1 !! d = set_default (add_defaults (top (main_parser prog)) ∅) "subcommand" VNone !! d).
Proof.
  unfold parse_top. destruct (find_ambiguous _ _); [discriminate|].
  unfold no_extras. intros Hp.
  apply and_then_parsed in Hp as ([ns ex] & Hc & Hex). simpl in Hex.
  destruct ex; [|discriminate]. injection Hex as ->.
  apply consume_top_parsed in Hc
    as (name & sub & rest & ns1 & ex0 & ex1 & Hsub & Hsuf & Hp & Hex & Hd & _); [|done].
  symmetry in Hex. apply app_eq_nil in Hex as [-> ->].
  exists name, sub, rest, ns1. repeat split; try done.
  intros d Hs. by apply Hd.
Qed.

Lemma main_subparsers_cases prog name sub :
  (name, sub) ∈ subparsers (main_parser prog) ->
  name = "convert" /\ sub = convert_subparser prog \/
  name = "shell" /\ sub = shell_subparser prog.
Proof. cbn [subparsers main_parser]. intros Hin. cases_of Hin; auto. Qed.

Lemma parse_top_subcommand prog args name sub rest ns1 :
  (name, sub) ∈ subparsers (main_parser prog) ->
  parse_known_args sub rest (<["subcommand" := VStr name]> ns1) = Parsed (args, []) ->
  args !! "subcommand" = Some (VStr name).
Proof.
  intros Hsub Hp. eapply parse_known_args_frame; [| |exact Hp].
  - destruct (main_subparsers_cases _ _ _ Hsub) as [[-> ->]|[-> ->]];
      repeat constructor; discriminate.
  - by rewrite lookup_insert_eq.
Qed.

Lemma convert_positionals_codecs prog d :
  d = "input_codec" \/ d = "output_codec" ->
  d ∉ map dest (positionals (convert_subparser prog)).
Proof.
  intros Hd Hin.
  change (map dest (positionals (convert_subparser prog)))
    with ["specification"; "type"; "hexstring"] in Hin.
  destruct Hd as [-> | ->]; cases_of Hin.
Qed.

Lemma compile_positionals_codecs d :
  d = "input_codec" \/ d = "output_codec" ->
  d ∉ map dest (positionals compile_parser).
Proof.
  intros Hd Hin.
  change (map dest (positionals compile_parser)) with ["specification"] in Hin.
  destruct Hd as [-> | ->]; cases_of Hin.
Qed.

Lemma main_options_no_codecs d :
  d = "input_codec" \/ d = "output_codec" -> Forall (fun a => dest a <> d) main_options.
Proof.
  intros Hd. unfold main_options.
  destruct Hd as [-> | ->]; repeat (apply Forall_cons_2; [discriminate|]); apply Forall_nil_2.
Qed.

(** C10: after a successful parse of a [convert] command line, and of the
    arguments of the shell's [compile], the input codec is ber when no
    argument selects the input codec option, and the output codec is gser
    when no argument selects the output codec option. *)
Theorem codec_defaults prog :
  (forall argv args,
     parse_top (main_parser prog) argv = Parsed args ->
     args !! "subcommand" = Some (VStr "convert") ->
     (Forall (fun t => selects convert_options "input_codec" t = false) argv ->
      args !! "input_codec" = Some (VStr "ber")) /\
     (Forall (fun t => selects convert_options "output_codec" t = false) argv ->
      args !! "output_codec" = Some (VStr "gser"))) /\
  (forall argv args,
     parse compile_parser argv = Parsed args ->
     (Forall (fun t => selects convert_options "input_codec" t = false) argv ->
      args !! "input_codec" = Some (VStr "ber")) /\
     (Forall (fun t => selects convert_options "output_codec" t = false) argv ->
      args !! "output_codec" = Some (VStr "gser"))).
Proof.
  split.
  - intros argv args Hp Hsubc.
    apply parse_top_parsed in Hp as (name & sub & rest & ns1 & Hsub & Hsuf & Hp & Hd).
    pose proof (parse_top_subcommand _ _ _ _ _ _ Hsub Hp) as Hname.
    rewrite Hsubc in Hname. injection Hname as <-.
    destruct (main_subparsers_cases _ _ _ Hsub) as [[_ ->]|[? _]]; [|discriminate].
    destruct (add_defaults_codecs (convert_subparser prog) (<["subcommand" := VStr "convert"]> ns1))
      as [Hi Ho]; [done| | |].
    { repeat (apply Forall_cons_2; [split; discriminate|]); apply Forall_nil_2. }
    { repeat (apply Forall_cons_2; [split; discriminate|]); apply Forall_nil_2. }
    split; intros Hs.
    + rewrite (parse_known_args_default _ _ _ _ _ "input_codec"
                 (convert_positionals_codecs prog _ (or_introl eq_refl))
                 (Forall_suffix _ _ _ Hsuf Hs) Hp).
      apply Hi. rewrite lookup_insert_ne by done. rewrite Hd.
      * apply main_initial_lookup. by left.
      * apply Forall_forall. intros t _. apply selects_absent.
        apply main_options_no_codecs. by left.
    + rewrite (parse_known_args_default _ _ _ _ _ "output_codec"
                 (convert_positionals_codecs prog _ (or_intror eq_refl))
                 (Forall_suffix _ _ _ Hsuf Hs) Hp).
      apply Ho. rewrite lookup_insert_ne by done. rewrite Hd.
      * apply main_initial_lookup. by right.
      * apply Forall_forall. intros t _. apply selects_absent.
        apply main_options_no_codecs. by right.
  - intros argv args Hp. unfold parse, no_extras in Hp.
    apply and_then_parsed in Hp as ([ns ex] & Hp & Hex). simpl in Hex.
    destruct ex; [|discriminate]. injection Hex as ->.
    destruct (add_defaults_codecs compile_parser ∅)
      as [Hi Ho]; [done| |apply Forall_nil_2|].
    { repeat (apply Forall_cons_2; [split; discriminate|]); apply Forall_nil_2. }
    split; intros Hs.
    + rewrite (parse_known_args_default _ _ _ _ _ "input_codec"
                 (compile_positionals_codecs _ (or_introl eq_refl)) Hs Hp).
      by apply Hi.
    + rewrite (parse_known_args_default _ _ _ _ _ "output_codec"
                 (compile_positionals_codecs _ (or_intror eq_refl)) Hs Hp).
      by apply Ho.
Qed.

(** [-d convert a.asn A 00] and the shell line [compile a.asn b.asn]. *)
Lemma codec_defaults_witness :
  (exists args,
     parse_top (main_parser "asn1tools") ["-d"; "convert"; "a.asn"; "A"; "00"] = Parsed args /\
     args !! "input_codec" = Some (VStr "ber") /\
     args !! "output_codec" = Some (VStr "gser")) /\
  (exists args,
     parse compile_parser (tail (py.split "compile a.asn b.asn")) = Parsed args /\
     args !! "input_codec" = Some (VStr "ber") /\
     args !! "output_codec" = Some (VStr "gser")).
Proof.
  destruct (codec_defaults "asn1tools") as [Hmain Hcompile]. split.
  - assert (match parse_top (main_parser "asn1tools") ["-d"; "convert"; "a.asn"; "A"; "00"] with
            | Parsed a => a !! "subcommand"
            | _ => None
            end = Some (VStr "convert")) as Hsub by (vm_compute; reflexivity).
    destruct (parse_top (main_parser "asn1tools") ["-d"; "convert"; "a.asn"; "A"; "00"])
      as [args| |] eqn:Hp; [|discriminate Hsub|discriminate Hsub].
    destruct (Hmain _ args Hp Hsub) as [Hi Ho].
    exists args. split; [reflexivity|]. split.
    + apply Hi. repeat (apply Forall_cons_2; [vm_compute; reflexivity|]). apply Forall_nil_2.
    + apply Ho. repeat (apply Forall_cons_2; [vm_compute; reflexivity|]). apply Forall_nil_2.
  - assert (is_parsed (parse compile_parser (tail (py.split "compile a.asn b.asn"))) = true)
      as Hb by (vm_compute; reflexivity).
    destruct (parse compile_parser (tail (py.split "compile a.asn b.asn")))
      as [args| |] eqn:Hp; [|discriminate Hb|discriminate Hb].
    destruct (Hcompile _ args Hp) as [Hi Ho].
    exists args. split; [reflexivity|]. split.
    + apply Hi. repeat (apply Forall_cons_2; [vm_compute; reflexivity|]). apply Forall_nil_2.
    + apply Ho. repeat (apply Forall_cons_2; [vm_compute; reflexivity|]). apply Forall_nil_2.
Defined.

(** ** [--verbose] *)

Lemma parse_top_verbose_default prog argv args :
  parse_top (main_parser prog) argv = Parsed args ->
  Forall (fun t => selects main_options "verbose" t = false) argv ->
  args !! "verbose" = Some (VInt 1).
Proof.
  intros Hp Hs.
  apply parse_top_parsed in Hp as (name & sub & rest & ns1 & Hsub & Hsuf & Hp & Hd).
  eapply parse_known_args_frame; [| |exact Hp].
  - eapply Forall_impl; [exact (main_subparsers _ _ _ Hsub)|]. by intros a [? ?].
  - rewrite lookup_insert_ne by done. by rewrite (Hd "verbose" Hs).
Qed.

Lemma refuse_verbose prog s ns :
  (forall n, py.int s = Some n -> n ∉ [0; 1; 2]%Z) ->
  is_parsed (take_action prog verbose_argument [s] ns) = false.
Proof.
  intros Hs. unfold take_action, _get_value, _check_value.
  cbn [kind type choices verbose_argument].
  destruct (py.int s) as [n|]; [|done].
  rewrite bool_decide_eq_false_2; [done|].
  intros Hin. apply (Hs n eq_refl). cases_of Hin; set_solver.
Qed.

Lemma store_verbose prog s n ns :
  py.int s = Some n -> n ∈ [0; 1; 2]%Z ->
  take_action prog verbose_argument [s] ns = Parsed (<["verbose" := VInt n]> ns).
Proof.
  intros Hs Hn. unfold take_action, _get_value, _check_value.
  cbn [kind type choices verbose_argument]. rewrite Hs.
  rewrite bool_decide_eq_true_2; [done|]. cases_of Hn; set_solver.
Qed.

Lemma rejects_verbose s o :
  o ∈ ["-v"; "--verbose"] -> (forall n, py.int s = Some n -> n ∉ [0; 1; 2]%Z) -> s <> "--" ->
  rejects main_options o s /\ rejects convert_options o s /\ rejects [help_action] o s.
Proof.
  intros Ho Hs Hdd. cases_of Ho.
  - split; [|split]; (split; [done|split; [done|]]); [|by left|by left].
    right. exists verbose_argument. split; [reflexivity|]. split; [done|].
    intros prog ns. by apply refuse_verbose.
  - split; [|split]; (split; [done|split; [done|]]); [|by left|by left].
    right. exists verbose_argument. split; [reflexivity|]. split; [done|].
    intros prog ns. by apply refuse_verbose.
Qed.

Lemma parse_top_verbose_shell prog s n :
  py.int s = Some n -> n ∈ [0; 1; 2]%Z -> plain s = true ->
  exists args,
    parse_top (main_parser prog) ["--verbose"; s; "shell"] = Parsed args /\
    args !! "verbose" = Some (VInt n).
Proof.
  intros Hs Hn Hp.
  assert (exists args, parse_top (main_parser prog) ["--verbose"; s; "shell"] = Parsed args /\
            args = add_defaults (shell_subparser prog)
                     (<["subcommand" := VStr "shell"]>
                        (<["verbose" := VInt n]>
                           (set_default (add_defaults (top (main_parser prog)) ∅)
                                        "subcommand" VNone)))) as (args & Hparse & ->).
  { eexists. split; [|reflexivity].
    unfold parse_top. rewrite main_parser_optionals.
    rewrite (find_ambiguous_option main_options "--verbose" _ (Some verbose_argument)
               "--verbose" None) by reflexivity.
    rewrite find_ambiguous_plain_cons by done.
    change (find_ambiguous main_options ["shell"]) with (@None ArgError). cbv iota.
    rewrite consume_top_cons. cbv zeta. rewrite main_parser_optionals.
    change (String.eqb "--verbose" "--") with false. cbv iota.
    change (_parse_optional main_options "--verbose")
      with (optional (Some verbose_argument) "--verbose" None). cbv iota.
    change (consume_optional main_options verbose_argument "--verbose" None)
      with (wants [] verbose_argument). cbv iota.
    rewrite consume_top_cons. cbv zeta. rewrite main_parser_optionals.
    rewrite (plain_not_separator s Hp), (plain_positional main_options s eq_refl Hp).
    cbn [app take_actions]. rewrite (store_verbose _ s n _ Hs Hn). cbn [and_then].
    reflexivity. }
  exists (add_defaults (shell_subparser prog)
            (<["subcommand" := VStr "shell"]>
               (<["verbose" := VInt n]>
                  (set_default (add_defaults (top (main_parser prog)) ∅) "subcommand" VNone)))).
  split; [exact Hparse|].
  apply add_defaults_keep. rewrite lookup_insert_ne by done. by rewrite lookup_insert_eq.
Qed.



(** ** The class hierarchy *)

Lemma DecodeError_not_TypeError e :
  isinstance e DecodeError = true -> isinstance e TypeError = false.
Proof. unfold isinstance. by destruct (exc_class e). Qed.

Lemma unhexlify_Exception hexstring e :
  binascii.unhexlify hexstring = inl e -> isinstance e Exception = true.
Proof.
  unfold binascii.unhexlify.
  destruct (existsb _ _); [by intros [= <-]|].
  destruct (Nat.odd _); [by intros [= <-]|].
  destruct (binascii.a2b_hex _); [discriminate|by intros [= <-]].
Qed.

(** ** [_convert_hexstring] *)

(** A string that is no hexstring: [TypeError], nothing printed, no call
    into the codecs. *)
Lemma _convert_hexstring_TypeError `{Asn1Tools} ispec ospec oc ty hexstring e w :
  binascii.unhexlify hexstring = inl e ->
  _convert_hexstring ispec ospec oc ty hexstring w =
    (Raise (exception TypeError ("'" +:+ hexstring +:+ "': " +:+ exc_str e)), w).
Proof.
  intros Hu. unfold _convert_hexstring, bind, try_except. rewrite Hu.
  by rewrite (unhexlify_Exception _ _ Hu).
Qed.

(** ** The loop over the standard input *)

Lemma convert_lines_cons `{Asn1Tools} ispec ospec oc ty l rest w :
  convert_lines ispec ospec oc ty (l :: rest) w =
  let hexstring := py.strip_chars CRLF l in
  if negb (bool_decide (hexstring = "")) then
    match _convert_hexstring ispec ospec oc ty hexstring (set_stdin rest w) with
    | (Return _, w') => convert_lines ispec ospec oc ty rest w'
    | (Raise e, w') =>
        if isinstance e TypeError then
          convert_lines ispec ospec oc ty rest (printed hexstring w')
        else if isinstance e DecodeError then
          convert_lines ispec ospec oc ty rest (printed (exc_str e) (printed hexstring w'))
        else (Raise e, w')
    end
  else convert_lines ispec ospec oc ty rest (printed hexstring (set_stdin rest w)).
Proof.
  cbn [convert_lines]. unfold bind, try_except. cbv zeta.
  destruct (negb _); [|reflexivity].
  destruct (_convert_hexstring _ _ _ _ _ _) as [[[]|e] w']; [reflexivity|].
  destruct (isinstance e TypeError); [reflexivity|]. cbn [orb].
  destruct (isinstance e DecodeError); reflexivity.
Qed.

Lemma _compile_files_world `{Asn1Tools} specs ic oc w r w' :
  _compile_files specs ic oc w = (r, w') ->
  stdout w' = stdout w /\ stderr w' = stderr w /\ stdin w' = stdin w /\
  terminal w' = terminal w /\ home w' = home w /\ files w' = files w /\
  root_level w' = root_level w.
Proof.
  unfold _compile_files, bind, external, ret.
  destruct (parse_files _ _); [by intros [= <- <-]|].
  destruct (compile_dict _ ic); [by intros [= <- <-]|].
  destruct (compile_dict _ oc); by intros [= <- <-].
Qed.

(** With [-] for the hexstring, [_do_convert] compiles and then runs the
    loop over the lines of the standard input. *)
Lemma _do_convert_stdin `{Asn1Tools} args specs ic oc ty ispec ospec w w1 :
  args !! "specification" = Some (VList specs) ->
  args !! "input_codec" = Some (VStr ic) ->
  args !! "output_codec" = Some (VStr oc) ->
  args !! "type" = Some (VStr ty) ->
  args !! "hexstring" = Some (VStr "-") ->
  _compile_files specs ic oc w = (Return (ispec, ospec), w1) ->
  _do_convert args w = convert_lines ispec ospec oc ty (stdin w) w1.
Proof.
  intros Hs Hi Ho Ht Hh Hc.
  unfold _do_convert, bind, getattr_list, getattr_str. rewrite Hs, Hi, Ho.
  unfold ret. cbv beta iota. rewrite Hc. cbv beta iota. rewrite Hh, Ht. cbv beta iota.
  rewrite bool_decide_eq_true_2 by done.
  by destruct (_compile_files_world _ _ _ _ _ _ Hc) as (_ & _ & -> & _).
Qed.



(** C1, as amended: with [-] for the hexstring, [_do_convert] runs the loop
    over the lines of the standard input; a line whose conversion fails
    with a [DecodeError] is printed back followed by the text of the error, a
    line whose conversion fails with a [TypeError] (a line that is no
    hexstring) is printed back alone, and the loop goes on; any other
    exception ends the loop and is raised. *)
Theorem stdin_failed_lines `{Asn1Tools} :
  (forall args specs ic oc ty ispec ospec w w1,
     args !! "specification" = Some (VList specs) ->
     args !! "input_codec" = Some (VStr ic) ->
     args !! "output_codec" = Some (VStr oc) ->
     args !! "type" = Some (VStr ty) ->
     args !! "hexstring" = Some (VStr "-") ->
     _compile_files specs ic oc w = (Return (ispec, ospec), w1) ->
     _do_convert args w = convert_lines ispec ospec oc ty (stdin w) w1) /\
  (forall ispec ospec oc ty l rest w e w',
     py.strip_chars CRLF l <> "" ->
     _convert_hexstring ispec ospec oc ty (py.strip_chars CRLF l) (set_stdin rest w)
       = (Raise e, w') ->
     (isinstance e DecodeError = true ->
      convert_lines ispec ospec oc ty (l :: rest) w =
        convert_lines ispec ospec oc ty rest
          (printed (exc_str e) (printed (py.strip_chars CRLF l) w'))) /\
     (isinstance e TypeError = true ->
      convert_lines ispec ospec oc ty (l :: rest) w =
        convert_lines ispec ospec oc ty rest (printed (py.strip_chars CRLF l) w')) /\
     (isinstance e DecodeError = false -> isinstance e TypeError = false ->
      convert_lines ispec ospec oc ty (l :: rest) w = (Raise e, w'))).
Proof.
  split.
  - intros. by eapply _do_convert_stdin.
  - intros ispec ospec oc ty l rest w e w' Hne Hc.
    rewrite convert_lines_cons. cbv zeta.
    rewrite bool_decide_eq_false_2 by done. cbn [negb]. rewrite Hc.
    split; [|split].
    + intros Hd. by rewrite (DecodeError_not_TypeError e Hd), Hd.
    + by intros ->.
    + by intros -> ->.
Qed.

(** The line [00] for a type the specification does not have. *)
Lemma stdin_failed_lines_witness :
  convert_lines (H:=octets) "ber" "gser" "gser" "B" ["00" +:+ newline] (world_with [] []) =
  convert_lines (H:=octets) "ber" "gser" "gser" "B" []
    (printed "Type 'B' not found."
       (printed "00" (log_call (call_decode "B" [x00]) (set_stdin [] (world_with [] []))))).
Proof.
  destruct (stdin_failed_lines (H:=octets)) as [_ Hline].
  destruct (Hline "ber" "gser" "gser" "B" ("00" +:+ newline) [] (world_with [] [])
              (exception DecodeError "Type 'B' not found.")
              (log_call (call_decode "B" [x00]) (set_stdin [] (world_with [] []))))
    as (Hd & _ & _).
  - vm_compute. discriminate.
  - vm_compute. reflexivity.
  - apply Hd. reflexivity.
Defined.

(** C1 as stated fails: the conversion of the line [zz] fails with a
    diagnostic, and the run prints the line and nothing else. *)
Lemma stdin_invalid_hex_no_diagnostic :
  fst (_convert_hexstring (H:=octets) "ber" "gser" "gser" "A" "zz"
         (set_stdin [] (world_with ["zz" +:+ newline] [])))
    = Raise (exception TypeError "'zz': Non-hexadecimal digit found") /\
  stdout (snd (run (H:=octets) "asn1tools" ["convert"; "a.asn"; "A"; "-"]
                 (world_with ["zz" +:+ newline] [])))
    = [line "zz"] /\
  line "'zz': Non-hexadecimal digit found"
    ∉ stdout (snd (run (H:=octets) "asn1tools" ["convert"; "a.asn"; "A"; "-"]
                     (world_with ["zz" +:+ newline] []))).
Proof.
  split; [vm_compute; reflexivity|].
  assert (stdout (snd (run (H:=octets) "asn1tools" ["convert"; "a.asn"; "A"; "-"]
                         (world_with ["zz" +:+ newline] []))) = [line "zz"]) as ->
    by (vm_compute; reflexivity).
  split; [reflexivity|]. intros Hin. cases_of Hin.
Qed.

(** ** The shell *)

Lemma ArgumentParser_parse_args_raises p args w e w' :
  ArgumentParser.parse_args p args w = (Raise e, w') ->
  isinstance e ArgumentParserError = true.
Proof.
  unfold ArgumentParser.parse_args.
  destruct (parse p args) as [ns|pr er|pr o].
  - discriminate.
  - unfold ArgumentParser.error. by intros [= <- _].
  - unfold ArgumentParser.exit. by intros [= <- _].
Qed.

Lemma ArgumentParser_parse_args_cases p args w :
  (exists ns, ArgumentParser.parse_args p args w = (Return ns, w)) \/
  (exists e w', ArgumentParser.parse_args p args w = (Raise e, w')).
Proof.
  unfold ArgumentParser.parse_args.
  destruct (parse p args) as [ns|pr er|pr o]; [left|right|right]; eauto.
Qed.

(** A failed [compile] returns [None, None, None]. *)
Lemma _handle_command_compile_fails `{Asn1Tools} line w :
  compile_fails line w ->
  exists w', _handle_command_compile line w = (Return no_specification, w').
Proof.
  unfold _handle_command_compile, bind, try_except, ret.
  intros [(e & w1 & Hp)|(args & w1 & e & w2 & Hp & Hc & He)]; rewrite Hp.
  - rewrite (ArgumentParser_parse_args_raises _ _ _ _ _ Hp). eauto.
  - rewrite Hc, He. unfold print. eauto.
Qed.

Lemma _handle_command_convert_no_specification `{Asn1Tools} line w :
  _handle_command_convert line no_specification w =
    (Return tt, printed no_specification_message w).
Proof. reflexivity. Qed.

Lemma shell_loop_cons `{Asn1Tools} history text rest compiled w :
  shell_loop history (text :: rest) compiled w =
  let w1 := prompted history text rest w in
  let line := py.strip text in
  if negb (bool_decide (line = "")) then
    if py.startswith line "compile" then
      match _handle_command_compile line w1 with
      | (Return compiled', w2) => shell_loop history rest compiled' w2
      | (Raise e, w2) => (Raise e, w2)
      end
    else if py.startswith line "convert" then
      match _handle_command_convert line compiled w1 with
      | (Return _, w2) => shell_loop history rest compiled w2
      | (Raise e, w2) => (Raise e, w2)
      end
    else if bool_decide (line = "help") then
      match _handle_command_help w1 with
      | (Return _, w2) => shell_loop history rest compiled w2
      | (Raise e, w2) => (Raise e, w2)
      end
    else if bool_decide (line = "exit") then (Return tt, w1)
    else shell_loop history rest compiled (printed (line +:+ ": command not found") w1)
  else shell_loop history rest compiled w1.
Proof.
  cbn [shell_loop]. unfold bind, prompt_toolkit.prompt, prompted. cbv zeta.
  destruct (negb _); [|reflexivity].
  destruct (py.startswith _ "compile"); [reflexivity|].
  destruct (py.startswith _ "convert"); [reflexivity|].
  destruct (bool_decide (_ = "help")); [reflexivity|].
  destruct (bool_decide (_ = "exit")); reflexivity.
Qed.

(** Without a compiled specification, commands other than [compile] and
    [exit] leave the shell running without one. *)
Lemma shell_loop_without_specification `{Asn1Tools} history mid : forall rest w,
  Forall (fun t => py.startswith (py.strip t) "compile" = false /\ py.strip t <> "exit") mid ->
  exists w', shell_loop history (mid ++ rest) no_specification w =
             shell_loop history rest no_specification w'.
Proof.
  induction mid as [|t mid IH]; intros rest w Hmid; [by exists w|].
  inversion Hmid as [|? ? [Hc He] Hmid']; subst.
  cbn [app]. rewrite shell_loop_cons. cbv zeta. rewrite Hc.
  destruct (negb _); [|by apply IH].
  destruct (py.startswith _ "convert").
  { rewrite _handle_command_convert_no_specification. by apply IH. }
  destruct (bool_decide (_ = "help")); [by apply IH|].
  rewrite bool_decide_eq_false_2 by done. by apply IH.
Qed.

Lemma startswith_convert_not_compile s :
  py.startswith s "convert" = true -> py.startswith s "compile" = false.
Proof.
  unfold py.startswith.
  destruct s as [|c0 s]; [discriminate|]. cbn [String.prefix].
  destruct (ascii_dec "c" c0); [|discriminate].
  destruct s as [|c1 s]; [discriminate|]. cbn [String.prefix].
  destruct (ascii_dec "o" c1); [|discriminate].
  destruct s as [|c2 s]; [discriminate|]. cbn [String.prefix].
  destruct (ascii_dec "n" c2) as [<-|]; [|discriminate].
  intros _. by destruct (ascii_dec "m" "n").
Qed.

(** C8: a [compile] command that fails, whatever was compiled before,
    returns no specification; the shell goes on without one through the
    commands that follow, as long as none is a [compile] or [exit]; and a
    [convert] command met then prints that no compiled specification was
    found and does nothing else. *)
Theorem failed_compile_discards `{Asn1Tools} history text mid conv rest compiled w :
  py.startswith (py.strip text) "compile" = true ->
  compile_fails (py.strip text) (prompted history text (mid ++ conv :: rest) w) ->
  Forall (fun t => py.startswith (py.strip t) "compile" = false /\ py.strip t <> "exit") mid ->
  py.startswith (py.strip conv) "convert" = true ->
  exists w1 w2,
    _handle_command_compile (py.strip text) (prompted history text (mid ++ conv :: rest) w)
      = (Return no_specification, w1) /\
    shell_loop history (text :: mid ++ conv :: rest) compiled w =
      shell_loop history (conv :: rest) no_specification w2 /\
    shell_loop history (conv :: rest) no_specification w2 =
      shell_loop history rest no_specification
        (printed no_specification_message (prompted history conv rest w2)).
Proof.
  intros Hc Hf Hmid Hcv.
  pose proof (startswith_convert_not_compile _ Hcv) as Hnc.
  destruct (_handle_command_compile_fails _ _ Hf) as [w1 Hh].
  destruct (shell_loop_without_specification history mid (conv :: rest) w1 Hmid) as [w2 Hl].
  exists w1, w2. split; [done|]. split.
  - rewrite shell_loop_cons. cbv zeta. rewrite Hc.
    assert (py.strip text <> "") as Hne by (intros Heq; by rewrite Heq in Hc).
    rewrite bool_decide_eq_false_2 by done. cbn [negb]. by rewrite Hh.
  - rewrite shell_loop_cons. cbv zeta. rewrite Hnc, Hcv.
    assert (py.strip conv <> "") as Hne by (intros Heq; by rewrite Heq in Hcv).
    rewrite bool_decide_eq_false_2 by done. cbn [negb].
    by rewrite _handle_command_convert_no_specification.
Qed.

Lemma ArgumentParser_parse_args_not_parsed p args w :
  is_parsed (parse p args) = false ->
  exists e w1, ArgumentParser.parse_args p args w = (Raise e, w1).
Proof.
  intros Hn. destruct (ArgumentParser_parse_args_cases p args w) as [(ns & Hr)|Hr]; [|done].
  unfold ArgumentParser.parse_args in Hr. destruct (parse p args); [discriminate Hn| |].
  - discriminate Hr.
  - discriminate Hr.
Qed.

(** After a specification was compiled: [compile -i gser a.asn], [help],
    [convert A 00]. *)
Lemma failed_compile_discards_witness :
  exists w1 w2,
    _handle_command_compile (H:=octets) (py.strip "compile -i gser a.asn")
      (prompted "/home/user/.asn1tools-history.txt" "compile -i gser a.asn"
         (["help"] ++ "convert A 00" :: []) (world_with [] []))
      = (Return no_specification, w1) /\
    shell_loop (H:=octets) "/home/user/.asn1tools-history.txt"
      ("compile -i gser a.asn" :: ["help"] ++ "convert A 00" :: [])
      (mkCompiled (H:=octets) (Some "ber") (Some "gser") (Some "gser")) (world_with [] []) =
      shell_loop (H:=octets) "/home/user/.asn1tools-history.txt" ("convert A 00" :: [])
        no_specification w2 /\
    shell_loop (H:=octets) "/home/user/.asn1tools-history.txt" ("convert A 00" :: [])
      no_specification w2 =
      shell_loop (H:=octets) "/home/user/.asn1tools-history.txt" [] no_specification
        (printed no_specification_message
           (prompted "/home/user/.asn1tools-history.txt" "convert A 00" [] w2)).
Proof.
  apply (failed_compile_discards (H:=octets)).
  - vm_compute. reflexivity.
  - left. apply ArgumentParser_parse_args_not_parsed. vm_compute. reflexivity.
  - apply Forall_cons_2; [|apply Forall_nil_2]. split.
    + vm_compute. reflexivity.
    + vm_compute. discriminate.
  - vm_compute. reflexivity.
Defined.

(** ** The pinned encoding *)



(** ** What the commands leave unchanged *)

(** For a relation [R] between worlds that holds across printing, reading
    and calls into the package, every command relates the world it starts
    in to the world it ends in. *)
Section Frame.
Context `{Asn1Tools} (R : World -> World -> Prop).
Hypothesis R_refl : forall w, R w w.
Hypothesis R_trans : forall a b c, R a b -> R b c -> R a c.
Hypothesis R_stdout : forall f w, R w (set_stdout f w).
Hypothesis R_stderr : forall f w, R w (set_stderr f w).
Hypothesis R_stdin : forall l w, R w (set_stdin l w).
Hypothesis R_calls : forall c w, R w (log_call c w).
Hypothesis R_level : forall l w, R w (set_root_level l w).

Lemma respects_ret {A} (a : A) : respects R (ret a).
Proof. intros w r w' [= _ <-]. apply R_refl. Qed.

Lemma respects_raise {A} e : respects R (@raise A e).
Proof. intros w r w' [= _ <-]. apply R_refl. Qed.

Lemma respects_bind {A B} (m : M A) (k : A -> M B) :
  respects R m -> (forall a, respects R (k a)) -> respects R (bind m k).
Proof.
  intros Hm Hk w r w'. unfold bind.
  destruct (m w) as [[a|e] w1] eqn:E.
  - intros Hka. eapply R_trans; [by eapply Hm|by eapply Hk].
  - intros [= _ <-]. by eapply Hm.
Qed.

Lemma respects_try_except {A} (m : M A) handles handler :
  respects R m -> (forall e, respects R (handler e)) ->
  respects R (try_except m handles handler).
Proof.
  intros Hm Hh w r w'. unfold try_except.
  destruct (m w) as [[a|e] w1] eqn:E.
  - intros [= _ <-]. by eapply Hm.
  - destruct (handles e).
    + intros Hhe. eapply R_trans; [by eapply Hm|by eapply Hh].
    + intros [= _ <-]. by eapply Hm.
Qed.

Lemma respects_print s : respects R (print s).
Proof. intros w r w' [= _ <-]. apply R_stdout. Qed.

Lemma respects_external {A} c (x : Exc + A) : respects R (external c x).
Proof. intros w r w' [= _ <-]. apply R_calls. Qed.

Lemma respects_getattr_str args name : respects R (getattr_str args name).
Proof.
  unfold getattr_str. destruct (args !! name) as [[]|]; first [apply respects_ret|apply respects_raise].
Qed.

Lemma respects_getattr_list args name : respects R (getattr_list args name).
Proof.
  unfold getattr_list. destruct (args !! name) as [[]|]; first [apply respects_ret|apply respects_raise].
Qed.

Lemma respects_getattr_int args name : respects R (getattr_int args name).
Proof.
  unfold getattr_int. destruct (args !! name) as [[]|]; first [apply respects_ret|apply respects_raise].
Qed.

Lemma respects_getattr_bool args name : respects R (getattr_bool args name).
Proof.
  unfold getattr_bool. destruct (args !! name) as [[]|]; first [apply respects_ret|apply respects_raise].
Qed.

#[local] Hint Resolve respects_ret respects_raise respects_bind respects_try_except
  respects_print respects_external respects_getattr_str respects_getattr_list
  respects_getattr_int respects_getattr_bool : frame.

Lemma respects__convert_hexstring ispec ospec oc ty hexstring :
  respects R (_convert_hexstring ispec ospec oc ty hexstring).
Proof.
  unfold _convert_hexstring.
  apply respects_bind.
  - apply respects_try_except; [|auto with frame].
    intros w r w' [= _ <-]. apply R_refl.
  - intros encoded. apply respects_bind; [auto with frame|].
    intros decoded. apply respects_bind; [|auto with frame].
    destruct (bool_decide _); auto 10 with frame.
Qed.

Lemma respects__compile_files specs ic oc : respects R (_compile_files specs ic oc).
Proof.
  unfold _compile_files. apply respects_bind.
  - intros w r w' [= _ <-]. apply R_calls.
  - intros parsed. auto 10 with frame.
Qed.

Lemma respects_convert_lines ispec ospec oc ty lines :
  respects R (convert_lines ispec ospec oc ty lines).
Proof.
  induction lines as [|l rest IH]; [apply respects_ret|].
  cbn [convert_lines]. apply respects_bind.
  - intros w r w' [= _ <-]. apply R_stdin.
  - intros _. apply respects_bind; [|by intros _].
    destruct (negb _); [|apply respects_print].
    apply respects_try_except; [apply respects__convert_hexstring|].
    intros e. destruct (isinstance e TypeError); auto with frame.
Qed.

Lemma respects__do_convert args : respects R (_do_convert args).
Proof.
  unfold _do_convert.
  apply respects_bind; [auto with frame|]. intros specification.
  apply respects_bind; [auto with frame|]. intros input_codec.
  apply respects_bind; [auto with frame|]. intros output_codec.
  apply respects_bind; [apply respects__compile_files|]. intros [ispec ospec].
  apply respects_bind; [auto with frame|]. intros hexstring.
  apply respects_bind; [auto with frame|]. intros type_name.
  destruct (bool_decide _); [|apply respects__convert_hexstring].
  intros w r w' Hc. by eapply respects_convert_lines.
Qed.

Lemma respects_ArgumentParser_parse_args p args :
  respects R (ArgumentParser.parse_args p args).
Proof.
  unfold ArgumentParser.parse_args. destruct (parse p args) as [ns|pr e|pr o].
  - apply respects_ret.
  - intros w r w' [= _ <-]. apply R_stdout.
  - intros w r w'. unfold ArgumentParser.exit. intros [= _ <-]. apply R_stdout.
Qed.

Lemma respects_compile_arguments args : respects R (compile_arguments args).
Proof.
  unfold compile_arguments.
  apply respects_bind; [auto with frame|]. intros specification.
  apply respects_bind; [auto with frame|]. intros input_codec.
  apply respects_bind; [auto with frame|]. intros output_codec.
  apply respects_bind; [apply respects__compile_files|]. intros [ispec ospec].
  apply respects_ret.
Qed.

Lemma respects__handle_command_compile line : respects R (_handle_command_compile line).
Proof.
  unfold _handle_command_compile. apply respects_bind.
  - apply respects_try_except; [|auto with frame].
    apply respects_bind; [apply respects_ArgumentParser_parse_args|auto with frame].
  - intros [args|]; [|apply respects_ret].
    apply respects_try_except; [apply respects_compile_arguments|auto with frame].
Qed.

Lemma respects__handle_command_convert line compiled :
  respects R (_handle_command_convert line compiled).
Proof.
  unfold _handle_command_convert. destruct (input_spec compiled); [|apply respects_print].
  apply respects_bind.
  - apply respects_try_except; [|auto with frame].
    apply respects_bind; [apply respects_ArgumentParser_parse_args|auto with frame].
  - intros [args|]; [|apply respects_ret].
    apply respects_try_except; [|auto with frame].
    apply respects_bind; [auto with frame|]. intros type_name.
    apply respects_bind; [auto with frame|]. intros hexstring.
    destruct (output_spec compiled); [|apply respects_raise].
    destruct (output_codec compiled); [|apply respects_raise].
    apply respects__convert_hexstring.
Qed.

Lemma respects__handle_command_help : respects R _handle_command_help.
Proof. unfold _handle_command_help. auto 10 with frame. Qed.

Lemma respects_parse_args o : respects R (parse_args o).
Proof.
  unfold parse_args. destruct o as [ns|pr e|pr o].
  - apply respects_ret.
  - intros w r w' [= _ <-]. apply R_stderr.
  - intros w r w' [= _ <-]. apply R_stdout.
Qed.

(** [_main] respects whatever the function of the subcommand respects. *)
Lemma respects__main prog argv :
  (forall args, parse_top (main_parser prog) argv = Parsed args ->
                respects R (call_func args)) ->
  respects R (_main prog argv).
Proof.
  intros Hf w r w'.
  destruct (parse_top (main_parser prog) argv) as [args|pr e|pr o] eqn:Hp.
  - destruct (_main_parsed prog argv args w Hp) as (n & level & debug & _ & _ & _ & _ & ->).
    specialize (Hf args eq_refl). intros Hb.
    apply (R_trans _ (set_root_level level w)); [apply R_level|].
    destruct debug; [by eapply Hf|].
    eapply respects_try_except; [exact Hf| |exact Hb].
    intros e0. apply respects_raise.
  - unfold _main, bind. rewrite Hp. cbn [parse_args]. intros [= _ <-]. apply R_stderr.
  - unfold _main, bind. rewrite Hp. cbn [parse_args]. intros [= _ <-]. apply R_stdout.
Qed.

Lemma respects_run prog argv w :
  respects R (_main prog argv) -> R w (snd (run prog argv w)).
Proof.
  intros Hm. unfold run. destruct (_main prog argv w) as [[[]|e] w'] eqn:E.
  - by eapply Hm.
  - destruct (bool_decide _); [destruct (exc_code e)|]; cbn [snd].
    + by eapply Hm.
    + eapply R_trans; [by eapply Hm|apply R_stderr].
    + eapply R_trans; [by eapply Hm|apply R_stderr].
Qed.

End Frame.

(** ** What a run leaves in the file system *)

Lemma _do_convert_same_files `{Asn1Tools} args : respects same_files (_do_convert args).
Proof. apply respects__do_convert; same_files_steps. Qed.

Lemma history_filename_home w w' :
  home w' = home w -> history_filename w' = history_filename w.
Proof. unfold history_filename, os_path.expanduser_tilde. by intros ->. Qed.

Lemma history_only_refl w : history_only w w.
Proof. split; [done|split; [done|]]. exists []. by rewrite app_nil_r. Qed.

Lemma history_only_trans a b c : history_only a b -> history_only b c -> history_only a c.
Proof.
  intros (Hh1 & Hf1 & m1 & Ha1) (Hh2 & Hf2 & m2 & Ha2).
  rewrite (history_filename_home _ _ Hh1) in Hf2, Ha2.
  split; [congruence|split].
  - intros path Hp. rewrite Hf2 by done. by apply Hf1.
  - exists (m1 ++ m2). by rewrite Ha2, Ha1, app_assoc.
Qed.

Lemma history_only_same w w' : home w' = home w -> files w' = files w -> history_only w w'.
Proof.
  intros Hh Hf. split; [done|split].
  - intros path _. by rewrite Hf.
  - exists []. by rewrite Hf, app_nil_r.
Qed.

Lemma prompted_history_only w text rest :
  history_only w (prompted (history_filename w) text rest w).
Proof.
  unfold prompted, prompt_toolkit.append_to_history. split; [done|].
  cbn [files set_files set_terminal].
  destruct (_ || _).
  - split; [done|]. exists []. by rewrite app_nil_r.
  - split.
    + intros path Hp. by rewrite lookup_insert_ne.
    + exists [text]. by rewrite lookup_insert_eq.
Qed.

Lemma shell_loop_history_only `{Asn1Tools} typed : forall compiled w r w',
  shell_loop (history_filename w) typed compiled w = (r, w') -> history_only w w'.
Proof.
  induction typed as [|text rest IH]; intros compiled w r w'.
  { intros [= _ <-]. apply history_only_refl. }
  rewrite shell_loop_cons. cbv zeta.
  pose proof (prompted_history_only w text rest) as Hp.
  set (w1 := prompted (history_filename w) text rest w) in *.
  assert (forall c w2 r', history_only w1 w2 ->
            shell_loop (history_filename w) rest c w2 = (r', w') -> history_only w w') as Hnext.
  { intros c w2 r' H12 Hl.
    pose proof (history_only_trans _ _ _ Hp H12) as H02.
    rewrite <- (history_filename_home w w2 (proj1 H02)) in Hl.
    eapply history_only_trans; [exact H02|]. by eapply IH. }
  destruct (negb _); [|by apply Hnext, history_only_refl].
  destruct (py.startswith _ "compile").
  { destruct (_handle_command_compile _ w1) as [[c|e] w2] eqn:E.
    - apply Hnext. eapply respects__handle_command_compile; [..|exact E]; frame_steps history_only_refl history_only_trans history_only_same.
    - intros [= _ <-]. eapply history_only_trans; [exact Hp|].
      eapply respects__handle_command_compile; [..|exact E]; frame_steps history_only_refl history_only_trans history_only_same. }
  destruct (py.startswith _ "convert").
  { destruct (_handle_command_convert _ _ w1) as [[c|e] w2] eqn:E.
    - apply Hnext. eapply respects__handle_command_convert; [..|exact E]; frame_steps history_only_refl history_only_trans history_only_same.
    - intros [= _ <-]. eapply history_only_trans; [exact Hp|].
      eapply respects__handle_command_convert; [..|exact E]; frame_steps history_only_refl history_only_trans history_only_same. }
  destruct (bool_decide (_ = "help")).
  { destruct (_handle_command_help w1) as [[c|e] w2] eqn:E.
    - apply Hnext. eapply respects__handle_command_help; [..|exact E]; frame_steps history_only_refl history_only_trans history_only_same.
    - intros [= _ <-]. eapply history_only_trans; [exact Hp|].
      eapply respects__handle_command_help; [..|exact E]; frame_steps history_only_refl history_only_trans history_only_same. }
  destruct (bool_decide (_ = "exit")).
  { by intros [= _ <-]. }
  apply Hnext. by apply history_only_same.
Qed.

Lemma _do_shell_history_only `{Asn1Tools} args : respects history_only (_do_shell args).
Proof.
  intros w r w'. unfold _do_shell, bind, print.
  change (history_filename w) with (history_filename (printed (newline +:+ "Welcome to the asn1tools shell!" +:+ newline) w)) at 1.
  intros Hl. apply shell_loop_history_only in Hl.
  eapply history_only_trans; [|exact Hl]. by apply history_only_same.
Qed.

Lemma call_func_history_only `{Asn1Tools} args : respects history_only (call_func args).
Proof.
  unfold call_func.
  destruct (args !! "func") as [[| | | | |name]|]; try (apply respects_raise; frame_steps history_only_refl history_only_trans history_only_same).
  destruct (String.eqb name "_do_convert").
  { apply respects__do_convert; frame_steps history_only_refl history_only_trans history_only_same. }
  destruct (String.eqb name "_do_shell").
  { apply _do_shell_history_only. }
  apply respects_raise; frame_steps history_only_refl history_only_trans history_only_same.
Qed.

Lemma call_func_same_files `{Asn1Tools} args :
  args !! "func" <> Some (VFunc "_do_shell") -> respects same_files (call_func args).
Proof.
  intros Hf. unfold call_func.
  destruct (args !! "func") as [[| | | | |name]|]; try (apply respects_raise; same_files_steps).
  destruct (String.eqb name "_do_convert").
  { apply _do_convert_same_files. }
  destruct (String.eqb_spec name "_do_shell") as [->|_]; [done|].
  apply respects_raise; same_files_steps.
Qed.

(** C7: the history of the shell is the file [.asn1tools-history.txt] in
    the home directory; a run of the program changes persistent storage at
    that path only, and there only by adding entries at the end; a run
    whose subcommand is not the shell, or whose command line does not
    parse, changes nothing. *)
Theorem persistent_state `{Asn1Tools} prog argv w :
  history_filename w = os_path.join (os_path.expanduser_tilde w) ".asn1tools-history.txt" /\
  (forall path, path <> history_filename w ->
     files (snd (run prog argv w)) !! path = files w !! path) /\
  (exists more,
     from_option id [] (files (snd (run prog argv w)) !! history_filename w) =
     from_option id [] (files w !! history_filename w) ++ more) /\
  (forall args,
     parse_top (main_parser prog) argv = Parsed args ->
     args !! "func" <> Some (VFunc "_do_shell") ->
     files (snd (run prog argv w)) = files w) /\
  (is_parsed (parse_top (main_parser prog) argv) = false ->
   files (snd (run prog argv w)) = files w).
Proof.
  split; [reflexivity|].
  assert (history_only w (snd (run prog argv w))) as (_ & Hframe & Happend).
  { apply respects_run; try frame_steps history_only_refl history_only_trans history_only_same.
    apply respects__main; try frame_steps history_only_refl history_only_trans history_only_same.
    intros args _. apply call_func_history_only. }
  split; [exact Hframe|]. split; [exact Happend|]. split.
  - intros args Hp Hf.
    apply (respects_run same_files); try same_files_steps.
    apply respects__main; try same_files_steps.
    intros args' Hp'. rewrite Hp in Hp'. injection Hp' as <-.
    by apply call_func_same_files.
  - intros Hn.
    apply (respects_run same_files); try same_files_steps.
    apply respects__main; try same_files_steps.
    intros args' Hp'. by rewrite Hp' in Hn.
Qed.

(** A [convert] run over the standard input leaves the files as they were. *)
Lemma persistent_state_witness :
  files (snd (run (H:=octets) "asn1tools" ["convert"; "a.asn"; "A"; "-"]
                (world_with ["0a0b" +:+ newline] []))) =
  files (world_with ["0a0b" +:+ newline] []).
Proof.
  assert (match parse_top (main_parser "asn1tools") ["convert"; "a.asn"; "A"; "-"] with
          | Parsed a => a !! "func"
          | _ => None
          end = Some (VFunc "_do_convert")) as Hf by (vm_compute; reflexivity).
  destruct (parse_top (main_parser "asn1tools") ["convert"; "a.asn"; "A"; "-"])
    as [args| |] eqn:Hp; [|discriminate Hf|discriminate Hf].
  destruct (persistent_state (H:=octets) "asn1tools" ["convert"; "a.asn"; "A"; "-"]
              (world_with ["0a0b" +:+ newline] [])) as (_ & _ & _ & Hconvert & _).
  apply (Hconvert args Hp). rewrite Hf. discriminate.
Defined.

(** ** What [_convert_hexstring] prints *)

Lemma list_ascii_of_decode_latin1 b :
  list_ascii_of_string (py.decode_latin1 b) = map ascii_of_byte b.
Proof.
  unfold py.decode_latin1, string_of_list_byte.
  apply list_ascii_of_string_of_list_ascii.
Qed.

Lemma length_decode_latin1 b : String.length (py.decode_latin1 b) = length b.
Proof.
  unfold py.decode_latin1, string_of_list_byte.
  induction b as [|x b IH]; [reflexivity|]. cbn. by rewrite IH.
Qed.

Lemma a2b_hex_hexlify_cons b data :
  binascii.a2b_hex (map ascii_of_byte (binascii.hexlify (b :: data))) =
  option_map (cons b) (binascii.a2b_hex (map ascii_of_byte (binascii.hexlify data))).
Proof.
  destruct b; reflexivity.
Qed.

Lemma a2b_hex_hexlify data :
  binascii.a2b_hex (map ascii_of_byte (binascii.hexlify data)) = Some data.
Proof.
  induction data as [|b data IH]; [reflexivity|].
  by rewrite a2b_hex_hexlify_cons, IH.
Qed.

Lemma hexlify_ascii data :
  existsb (fun c => (128 <=? py.code c)%N) (map ascii_of_byte (binascii.hexlify data)) = false.
Proof.
  induction data as [|b data IH]; [reflexivity|].
  unfold binascii.hexlify. cbn [flat_map]. rewrite map_app, existsb_app.
  fold (binascii.hexlify data). rewrite IH. by destruct b.
Qed.

Lemma hexlify_lower data :
  forallb (py.in_chars (list_ascii_of_string "0123456789abcdef"))
          (map ascii_of_byte (binascii.hexlify data)) = true.
Proof.
  induction data as [|b data IH]; [reflexivity|].
  unfold binascii.hexlify. cbn [flat_map]. rewrite map_app, forallb_app.
  fold (binascii.hexlify data). rewrite IH. by destruct b.
Qed.

Lemma hexlify_length data : length (binascii.hexlify data) = 2 * length data.
Proof.
  induction data as [|b data IH]; [reflexivity|].
  unfold binascii.hexlify in *. cbn [flat_map app length]. rewrite IH. lia.
Qed.

Lemma unhexlify_hexlify data :
  binascii.unhexlify (py.decode_latin1 (binascii.hexlify data)) = inr data.
Proof.
  unfold binascii.unhexlify. rewrite list_ascii_of_decode_latin1.
  rewrite hexlify_ascii, length_map, hexlify_length.
  replace (Nat.odd (2 * length data)) with false.
  2:{ symmetry. rewrite <- Nat.negb_even, Nat.even_mul. reflexivity. }
  by rewrite a2b_hex_hexlify.
Qed.

Lemma _convert_hexstring_cases `{Asn1Tools} ispec ospec oc ty hexstring w :
  _convert_hexstring ispec ospec oc ty hexstring w =
  match binascii.unhexlify hexstring with
  | inl e => (Raise (exception TypeError ("'" +:+ hexstring +:+ "': " +:+ exc_str e)), w)
  | inr encoded =>
      let w1 := log_call (call_decode ty encoded) w in
      match decode ispec ty encoded with
      | inl e => (Raise e, w1)
      | inr v =>
          let w2 := log_call (call_encode ty) w1 in
          if bool_decide (oc ∈ ["gser"; "xer"; "jer"]) then
            match encode ospec ty v (Some 4) with
            | inl e => (Raise e, w2)
            | inr text => (Return tt, printed (py.decode_latin1 (py.bytes_strip text)) w2)
            end
          else
            match encode ospec ty v None with
            | inl e => (Raise e, w2)
            | inr data => (Return tt, printed (py.decode_latin1 (binascii.hexlify data)) w2)
            end
      end
  end.
Proof.
  destruct (binascii.unhexlify hexstring) as [e|encoded] eqn:Hu.
  { by apply _convert_hexstring_TypeError. }
  unfold _convert_hexstring, bind, try_except, external, ret, print. rewrite Hu.
  cbv zeta. destruct (decode ispec ty encoded) as [e|v]; [reflexivity|].
  destruct (bool_decide _).
  - by destruct (encode ospec ty v (Some 4)).
  - by destruct (encode ospec ty v None).
Qed.

(** X1: with an output codec other than gser, xer and jer, a hexstring that
    decodes and encodes is answered by one printed line, the hexadecimal
    text of the encoded octets: [unhexlify] reads the line back to exactly
    these octets, and the line has two characters for each of them, all
    of them digits or lower-case letters a to f. *)
Theorem binary_output_reads_back `{Asn1Tools} ispec ospec oc ty hexstring encoded v data w :
  oc ∉ ["gser"; "xer"; "jer"] ->
  binascii.unhexlify hexstring = inr encoded ->
  decode ispec ty encoded = inr v ->
  encode ospec ty v None = inr data ->
  exists s,
    _convert_hexstring ispec ospec oc ty hexstring w =
      (Return tt, printed s (log_call (call_encode ty) (log_call (call_decode ty encoded) w))) /\
    binascii.unhexlify s = inr data /\
    String.length s = 2 * length data /\
    forallb (py.in_chars (list_ascii_of_string "0123456789abcdef"))
            (list_ascii_of_string s) = true.
Proof.
  intros Hoc Hu Hd He. exists (py.decode_latin1 (binascii.hexlify data)).
  split; [|split; [|split]].
  - rewrite _convert_hexstring_cases, Hu. cbv zeta. rewrite Hd.
    rewrite bool_decide_eq_false_2 by done. by rewrite He.
  - apply unhexlify_hexlify.
  - rewrite length_decode_latin1. apply hexlify_length.
  - rewrite list_ascii_of_decode_latin1. apply hexlify_lower.
Qed.

Lemma binary_output_reads_back_witness :
  exists s,
    _convert_hexstring (H:=octets) "ber" "uper" "uper" "A" "0A0b" (world_with [] []) =
      (Return tt, printed s (log_call (call_encode "A")
                               (log_call (call_decode "A" [x0a; x0b]) (world_with [] [])))) /\
    binascii.unhexlify s = inr [x0a; x0b] /\
    String.length s = 2 * length [x0a; x0b] /\
    forallb (py.in_chars (list_ascii_of_string "0123456789abcdef"))
            (list_ascii_of_string s) = true.
Proof.
  apply (binary_output_reads_back (H:=octets) "ber" "uper" "uper" "A" "0A0b"
           [x0a; x0b] [x0a; x0b]).
  - intros Hin. cases_of Hin.
  - vm_compute. reflexivity.
  - vm_compute. reflexivity.
  - vm_compute. reflexivity.
Defined.

(** X2: [_convert_hexstring] prints exactly one line when it returns and
    nothing when it raises; it writes nothing to the standard error stream,
    reads nothing from the standard input and leaves the files alone; it
    calls the codec to decode at most once, and to encode only after it
    decoded. *)
Theorem _convert_hexstring_prints_once `{Asn1Tools} ispec ospec oc ty hexstring w :
  let r := _convert_hexstring ispec ospec oc ty hexstring w in
  stderr (snd r) = stderr w /\ stdin (snd r) = stdin w /\ files (snd r) = files w /\
  match fst r with
  | Return _ =>
      exists s encoded,
        binascii.unhexlify hexstring = inr encoded /\
        stdout (snd r) = stdout w ++ [line s] /\
        calls (snd r) = calls w ++ [call_decode ty encoded; call_encode ty]
  | Raise e =>
      stdout (snd r) = stdout w /\
      (calls (snd r) = calls w \/
       exists encoded,
         binascii.unhexlify hexstring = inr encoded /\
         (calls (snd r) = calls w ++ [call_decode ty encoded] \/
          calls (snd r) = calls w ++ [call_decode ty encoded; call_encode ty]))
  end.
Proof.
  cbv zeta. rewrite _convert_hexstring_cases.
  destruct (binascii.unhexlify hexstring) as [e|encoded];
    [cbn; repeat split; try done; by left|]. cbv zeta.
  destruct (decode ispec ty encoded) as [e|v].
  { cbn. repeat split; try done. right. exists encoded. auto. }
  assert (forall x, calls (log_call (call_encode ty) (log_call (call_decode ty encoded) w)) = x ->
                    x = calls w ++ [call_decode ty encoded; call_encode ty]) as Hc.
  { intros x <-. cbn. by rewrite <- app_assoc. }
  destruct (bool_decide _).
  - destruct (encode ospec ty v (Some 4)) as [e|text]; cbn; repeat split; try done.
    + right. exists encoded. split; [done|]. right. by apply Hc.
    + eexists _, encoded. repeat split; try done. by apply Hc.
  - destruct (encode ospec ty v None) as [e|data]; cbn; repeat split; try done.
    + right. exists encoded. split; [done|]. right. by apply Hc.
    + eexists _, encoded. repeat split; try done. by apply Hc.
Qed.

Lemma _convert_hexstring_world `{Asn1Tools} ispec ospec oc ty hexstring w r w' :
  _convert_hexstring ispec ospec oc ty hexstring w = (r, w') ->
  stderr w' = stderr w /\ stdin w' = stdin w /\ terminal w' = terminal w /\
  exists out, stdout w' = stdout w ++ out /\
              match r with
              | Return _ => exists s, out = [line s]
              | Raise _ => out = []
              end.
Proof.
  rewrite _convert_hexstring_cases.
  destruct (binascii.unhexlify hexstring) as [e|encoded].
  { intros [= <- <-]. repeat split; try done. exists []. by rewrite app_nil_r. }
  cbv zeta. destruct (decode ispec ty encoded) as [e|v].
  { intros [= <- <-]. repeat split; try done. exists []. by rewrite app_nil_r. }
  destruct (bool_decide _).
  - destruct (encode ospec ty v (Some 4)) as [e|text]; intros [= <- <-];
      repeat split; try done; [exists []; by rewrite app_nil_r|eexists [_]; by eauto].
  - destruct (encode ospec ty v None) as [e|text]; intros [= <- <-];
      repeat split; try done; [exists []; by rewrite app_nil_r|eexists [_]; by eauto].
Qed.

Lemma convert_lines_world `{Asn1Tools} ispec ospec oc ty lines : forall w r w',
  convert_lines ispec ospec oc ty lines w = (r, w') ->
  stderr w' = stderr w /\
  exists out,
    stdout w' = stdout w ++ out /\
    match r with
    | Return _ =>
        stdin w' = match lines with [] => stdin w | _ => [] end /\
        length lines <= length out <= 2 * length lines
    | Raise e =>
        isinstance e TypeError = false /\ isinstance e DecodeError = false /\
        length out <= 2 * length lines
    end.
Proof.
  induction lines as [|l rest IH]; intros w r w'.
  { intros [= <- <-]. split; [done|]. exists []. rewrite app_nil_r. cbn. repeat split; lia. }
  rewrite convert_lines_cons. cbv zeta.
  assert (forall w1 k, stderr w1 = stderr w -> stdin w1 = rest ->
            (exists out1, stdout w1 = stdout w ++ out1 /\ length out1 = k) ->
            1 <= k <= 2 ->
            convert_lines ispec ospec oc ty rest w1 = (r, w') ->
            stderr w' = stderr w /\
            exists out, stdout w' = stdout w ++ out /\
              match r with
              | Return _ => stdin w' = [] /\
                            length (l :: rest) <= length out <= 2 * length (l :: rest)
              | Raise e => isinstance e TypeError = false /\ isinstance e DecodeError = false /\
                           length out <= 2 * length (l :: rest)
              end) as Hnext.
  { intros w1 k Herr Hin (out1 & Hout1 & Hk) Hk2 Hl.
    apply IH in Hl as (Herr' & out & Hout & Hr). split; [congruence|].
    exists (out1 ++ out). split; [by rewrite Hout, Hout1, app_assoc|].
    rewrite length_app. cbn [length]. destruct r as [[]|e].
    - destruct Hr as [Hs Hlen]. split; [|lia].
      rewrite Hs. by destruct rest.
    - destruct Hr as (? & ? & ?). repeat split; try done. lia. }
  destruct (negb _).
  - destruct (_convert_hexstring _ _ _ _ _ _) as [[[]|e] w1] eqn:Hc;
      apply _convert_hexstring_world in Hc as (Herr & Hin & _ & out1 & Hout1 & Hlen1).
    + destruct Hlen1 as [s ->]. apply (Hnext w1 1); try done; [by eauto|lia].
    + subst out1. rewrite app_nil_r in Hout1.
      destruct (isinstance e TypeError) eqn:Ht.
      { apply (Hnext _ 1); try done; [|lia].
        exists [line (py.strip_chars CRLF l)]. cbn. by rewrite Hout1. }
      destruct (isinstance e DecodeError) eqn:Hd.
      { apply (Hnext _ 2); try done; [|lia].
        exists [line (py.strip_chars CRLF l); line (exc_str e)].
        cbn. by rewrite Hout1, <- app_assoc. }
      intros [= <- <-]. split; [done|]. exists []. rewrite app_nil_r.
      repeat split; try done. cbn. lia.
  - apply (Hnext _ 1); try done; [|lia]. by eexists [_].
Qed.

(** X3: the loop over the standard input writes nothing to the standard
    error stream; when it returns it has read every line and printed at
    least one line and at most two for each of them; an exception that
    leaves it is neither a [TypeError] nor a [DecodeError]. *)
Theorem stdin_loop_output `{Asn1Tools} ispec ospec oc ty w :
  let r := convert_lines ispec ospec oc ty (stdin w) w in
  stderr (snd r) = stderr w /\
  exists out,
    stdout (snd r) = stdout w ++ out /\
    match fst r with
    | Return _ =>
        stdin (snd r) = [] /\
        length (stdin w) <= length out <= 2 * length (stdin w)
    | Raise e => isinstance e TypeError = false /\ isinstance e DecodeError = false
    end.
Proof.
  cbv zeta.
  destruct (convert_lines ispec ospec oc ty (stdin w) w) as [r w'] eqn:Hl.
  apply convert_lines_world in Hl as (Herr & out & Hout & Hr). cbn [fst snd].
  split; [done|]. exists out. split; [done|]. destruct r as [[]|e].
  - destruct Hr as [Hs Hlen]. split; [|done]. rewrite Hs. by destruct (stdin w).
  - by destruct Hr as (? & ? & _).
Qed.

(** ** The attributes a successful parse leaves *)

Lemma consume_positionals_got acts : forall run got missing spare,
  consume_positionals acts run = (got, missing, spare) ->
  acts = map fst got ++ missing /\ Forall shaped got.
Proof.
  induction acts as [|a acts IH]; intros run got missing spare Hc.
  { cbn in Hc. injection Hc as <- <- _. by split. }
  destruct run as [|r run].
  { cbn in Hc. injection Hc as <- <- _. by split. }
  cbn [consume_positionals] in Hc.
  destruct (consume_positionals acts _) as [[g m] s] eqn:E.
  injection Hc as <- <- _. apply IH in E as [-> Hg]. split; [done|].
  constructor; [|done]. unfold shaped. cbn [fst snd].
  destruct (nargs a).
  - by exists r.
  - match goal with |- firstn ?n _ <> [] => destruct n as [|k] eqn:En end; [|done].
    cbn [length] in En.
    pose proof (Nat.le_min_r (length (map fst g ++ m)) (S (length run) - 1)). lia.
  - by exists r.
Qed.

Lemma store_positionals_app g1 g2 ns :
  store_positionals (g1 ++ g2) ns = store_positionals g2 (store_positionals g1 ns).
Proof. unfold store_positionals. by rewrite fold_left_app. Qed.

Lemma assign_runs_got runs : forall acts ns ns' missing spare,
  assign_runs acts runs ns = (ns', missing, spare) ->
  exists got, acts = map fst got ++ missing /\ Forall shaped got /\
              ns' = store_positionals got ns.
Proof.
  induction runs as [|r rs IH]; intros acts ns ns' missing spare Ha.
  { cbn in Ha. injection Ha as <- <- _. by exists []. }
  cbn [assign_runs] in Ha.
  destruct (consume_positionals acts r) as [[g m] s] eqn:E.
  destruct (assign_runs m rs _) as [[n1 m1] s1] eqn:E1.
  injection Ha as <- <- _.
  apply consume_positionals_got in E as [-> Hg].
  apply IH in E1 as (got & -> & Hgot & ->).
  exists (g ++ got). split; [by rewrite map_app, app_assoc|].
  split; [by apply Forall_app|]. by rewrite store_positionals_app.
Qed.

Lemma finish_parsed p st ns ex :
  finish p st = Parsed (ns, ex) ->
  exists got, positionals p = map fst got /\ Forall shaped got /\
              ns = store_positionals got (namespace st).
Proof.
  unfold finish. destruct (assign_runs _ _ _) as [[n m] s] eqn:E.
  destruct m; [|discriminate]. intros [= <- _].
  apply assign_runs_got in E as (got & Hp & Hg & ->).
  rewrite app_nil_r in Hp. by exists got.
Qed.

(** A successful parse ends in [finish], on a namespace that the options
    met on the way have written. *)
Lemma consume_parsed p : forall args pending st ns ex,
  pending_in (optionals p) pending ->
  consume p args pending st = Parsed (ns, ex) ->
  exists st', finish p st' = Parsed (ns, ex) /\
    forall P, preserved (prog p) (optionals p) P -> P (namespace st) -> P (namespace st').
Proof.
  induction args as [|t rest IH]; intros pending st ns ex Hin Hc.
  { cbn in Hc. destruct pending as [[? ?]|]; [discriminate|]. by exists st. }
  rewrite consume_cons in Hc. destruct pending as [[l a]|].
  - destruct Hin as [Hl Ha].
    assert (forall v, Forall (fun x => fst x ∈ optionals p) (l ++ [(a, v)])) as Hla.
    { intros v. apply Forall_app. split; [done|]. by repeat constructor. }
    destruct (String.eqb t "--").
    + destruct rest as [|v rest']; [discriminate|].
      apply and_then_parsed in Hc as (ns1 & H1 & H2).
      eexists. split; [exact H2|]. intros P HP HPn. cbn [namespace].
      eapply (take_actions_invariant _ _ P HP); [apply Hla|exact HPn|exact H1].
    + destruct (_parse_optional (optionals p) t); try discriminate.
      apply and_then_parsed in Hc as (ns1 & H1 & H2).
      apply IH in H2 as (st' & Hf & HP'); [|done].
      exists st'. split; [done|]. intros P HP HPn. apply HP'; [done|]. cbn [namespace].
      eapply (take_actions_invariant _ _ P HP); [apply Hla|exact HPn|exact H1].
  - destruct (String.eqb t "--").
    { eexists. split; [exact Hc|]. by intros P _ HPn. }
    destruct (_parse_optional (optionals p) t) as [|[a|] os e|] eqn:Ep; try discriminate.
    + apply IH in Hc as (st' & Hf & HP'); [|done]. by exists st'.
    + pose proof (consume_optional_in _ a os e (_parse_optional_in _ _ _ _ _ Ep)) as Hall.
      destruct (consume_optional (optionals p) a os e) as [l|l a'|] eqn:Ec; try discriminate.
      * apply and_then_parsed in Hc as (ns1 & H1 & H2).
        apply IH in H2 as (st' & Hf & HP'); [|done].
        exists st'. split; [done|]. intros P HP HPn. apply HP'; [done|]. cbn [namespace].
        eapply (take_actions_invariant _ _ P HP); [|exact HPn|exact H1].
        eapply targets_in_takes; eauto.
      * apply IH in Hc as (st' & Hf & HP'); [by exists st'|].
        cbn. eapply targets_in_wants; eauto.
    + apply IH in Hc as (st' & Hf & HP'); [|done]. by exists st'.
Qed.

Lemma parse_known_args_parsed p args ns0 ns ex :
  parse_known_args p args ns0 = Parsed (ns, ex) ->
  exists got m, positionals p = map fst got /\ Forall shaped got /\
    ns = store_positionals got m /\
    forall P, preserved (prog p) (optionals p) P -> P (add_defaults p ns0) -> P m.
Proof.
  unfold parse_known_args. destruct (find_ambiguous _ _); [discriminate|]. intros Hc.
  apply consume_parsed in Hc as (st' & Hf & HP); [|done].
  apply finish_parsed in Hf as (got & Hp & Hg & ->).
  by exists got, (namespace st').
Qed.

Lemma lookup_preserved prog opts d x :
  Forall (fun a => dest a <> d) opts -> preserved prog opts (fun m => m !! d = x).
Proof.
  intros Hd a v m m' Ha Hm Ht. apply take_action_dest in Ht as [v' ->].
  rewrite Forall_forall in Hd. by rewrite lookup_insert_ne by (by apply Hd).
Qed.

Lemma preserved_and prog opts (P Q : Namespace -> Prop) :
  preserved prog opts P -> preserved prog opts Q -> preserved prog opts (fun m => P m /\ Q m).
Proof. intros HP HQ a v m m' Ha [Hp Hq] Ht. split; [eapply HP|eapply HQ]; eauto. Qed.

Lemma has_codecs_preserved prog : preserved prog convert_options has_codecs.
Proof.
  intros a v m m' Ha [(ic & Hi & Hic) (oc & Ho & Hoc)] Ht.
  unfold convert_options in Ha. cases_of Ha.
  - discriminate Ht.
  - unfold take_action in Ht. cbn [kind input_codec_argument] in Ht.
    destruct v as [|s [|? ?]]; try discriminate Ht.
    unfold _get_value, _check_value in Ht. cbn [type choices input_codec_argument] in Ht.
    case_bool_decide as Hin; [|discriminate Ht]. injection Ht as <-.
    apply input_codecs_choices in Hin. split.
    + exists s. by rewrite lookup_insert_eq.
    + exists oc. by rewrite lookup_insert_ne.
  - unfold take_action in Ht. cbn [kind output_codec_argument] in Ht.
    destruct v as [|s [|? ?]]; try discriminate Ht.
    unfold _get_value, _check_value in Ht. cbn [type choices output_codec_argument] in Ht.
    case_bool_decide as Hin; [|discriminate Ht]. injection Ht as <-.
    apply output_codecs_choices in Hin. split.
    + exists ic. by rewrite lookup_insert_ne.
    + exists s. by rewrite lookup_insert_eq.
Qed.

Lemma add_defaults_default p ns d v :
  Forall (fun a => dest a <> d) (optionals p ++ positionals p) ->
  defaults p = [(d, v)] -> ns !! d = None ->
  add_defaults p ns !! d = Some v.
Proof.
  intros Ha Hd Hn. unfold add_defaults. rewrite Hd. cbn [fold_left fst snd].
  apply set_default_None. revert ns Hn.
  induction Ha as [|a l Hne _ IH]; intros ns Hn; [done|].
  cbn [fold_left]. apply IH. destruct (default a); [|done]. by rewrite set_default_ne.
Qed.

Lemma has_codecs_defaults p ns :
  optionals p = convert_options ->
  Forall (fun a => dest a <> "input_codec" /\ dest a <> "output_codec") (positionals p) ->
  Forall (fun dv => fst dv <> "input_codec" /\ fst dv <> "output_codec") (defaults p) ->
  ns !! "input_codec" = None -> ns !! "output_codec" = None ->
  has_codecs (add_defaults p ns).
Proof.
  intros Ho Hp Hd Hi Hoc. destruct (add_defaults_codecs p ns Ho Hp Hd) as [H1 H2]. split.
  - exists "ber". split; [by apply H1|]. unfold input_codecs. set_solver.
  - exists "gser". split; [by apply H2|]. unfold output_codecs, input_codecs. set_solver.
Qed.

(** The options in front of the subcommand, then the subparser. *)
Lemma parse_top_sub prog argv args :
  parse_top (main_parser prog) argv = Parsed args ->
  exists name sub rest ns1,
    (name, sub) ∈ subparsers (main_parser prog) /\
    parse_known_args sub rest (<["subcommand" := VStr name]> ns1) = Parsed (args, []) /\
    forall P, preserved prog main_options P ->
      P (set_default (add_defaults (top (main_parser prog)) ∅) "subcommand" VNone) -> P ns1.
Proof.
  unfold parse_top. destruct (find_ambiguous _ _); [discriminate|].
  unfold no_extras. intros Hp.
  apply and_then_parsed in Hp as ([ns ex] & Hc & Hex). simpl in Hex.
  destruct ex; [|discriminate]. injection Hex as ->.
  apply consume_top_parsed in Hc
    as (name & sub & rest & ns1 & ex0 & ex1 & Hsub & _ & Hp & Hex & _ & HP); [|done].
  symmetry in Hex. apply app_eq_nil in Hex as [-> ->].
  by exists name, sub, rest, ns1.
Qed.

Lemma add_defaults_ne p ns d :
  Forall (fun a => dest a <> d) (optionals p ++ positionals p) ->
  Forall (fun dv => fst dv <> d) (defaults p) ->
  add_defaults p ns !! d = ns !! d.
Proof.
  intros Ha Hd. unfold add_defaults.
  assert (forall l m, Forall (fun dv => fst dv <> d) l ->
    fold_left (fun ns dv => set_default ns (fst dv) (snd dv)) l m !! d = m !! d) as H2.
  { induction l as [|x l IH]; intros m Hl; [done|].
    inversion Hl; subst. cbn [fold_left]. rewrite IH by done. by apply set_default_ne. }
  rewrite H2 by done. clear H2 Hd. revert ns.
  induction Ha as [|a l Hne _ IH]; intros ns; [done|].
  cbn [fold_left]. rewrite IH. destruct (default a); [by apply set_default_ne|done].
Qed.

(** What the options of the main parser do not store stays unset in front
    of the subcommand. *)
Lemma ns1_unset prog ns1 d :
  Forall (fun a => dest a <> d) main_options -> d <> "subcommand" ->
  (forall P, preserved prog main_options P ->
     P (set_default (add_defaults (top (main_parser prog)) ∅) "subcommand" VNone) -> P ns1) ->
  ns1 !! d = None.
Proof.
  intros Hd Hs HP. apply (HP (fun m => m !! d = None)).
  - by apply lookup_preserved.
  - rewrite set_default_ne by done. rewrite add_defaults_ne; [done| |done].
    by rewrite main_parser_optionals, app_nil_r.
Qed.

Lemma got_convert got :
  [specification_argument; type_argument; hexstring_argument] = map fst got ->
  Forall shaped got ->
  exists specs ty hex, specs <> [] /\
    got = [(specification_argument, specs); (type_argument, [ty]); (hexstring_argument, [hex])].
Proof.
  intros Hm Hs.
  destruct got as [|[a1 l1] [|[a2 l2] [|[a3 l3] [|? ?]]]]; try discriminate Hm.
  injection Hm as <- <- <-.
  inversion Hs as [|? ? H1 Hs']; subst. inversion Hs' as [|? ? H2 Hs'']; subst.
  inversion Hs'' as [|? ? H3 _]; subst.
  destruct H2 as [ty H2], H3 as [hex H3]. cbn in H1, H2, H3. subst.
  by exists l1, ty, hex.
Qed.

(** The attributes that the function of the subcommand reads, after a
    successful parse. *)
Lemma parse_top_attributes prog argv args :
  parse_top (main_parser prog) argv = Parsed args ->
  args !! "subcommand" = Some (VStr "convert") /\
  args !! "func" = Some (VFunc "_do_convert") /\
  (exists specs ic oc ty hex,
     specs <> [] /\ ic ∈ input_codecs /\ oc ∈ output_codecs /\
     args !! "specification" = Some (VList specs) /\
     args !! "input_codec" = Some (VStr ic) /\
     args !! "output_codec" = Some (VStr oc) /\
     args !! "type" = Some (VStr ty) /\
     args !! "hexstring" = Some (VStr hex))
  \/
  args !! "subcommand" = Some (VStr "shell") /\
  args !! "func" = Some (VFunc "_do_shell").
Proof.
  intros Hp.
  apply parse_top_sub in Hp as (name & sub & rest & ns1 & Hsub & Hp & HP).
  pose proof (parse_top_subcommand _ _ _ _ _ _ Hsub Hp) as Hname.
  assert (ns1 !! "func" = None) as Hfunc by (apply (ns1_unset prog); [dests|done|done]).
  apply parse_known_args_parsed in Hp as (got & m & Hgot & Hshaped & -> & Hm).
  destruct (main_subparsers_cases _ _ _ Hsub) as [[-> ->]|[-> ->]]; [left|right].
  - split; [done|].
    destruct (got_convert got Hgot Hshaped) as (specs & ty & hex & Hne & ->).
    assert (has_codecs m /\ m !! "func" = Some (VFunc "_do_convert")) as [[Hi Ho] Hf].
    { apply Hm.
      - apply preserved_and; [apply has_codecs_preserved|].
        apply lookup_preserved. unfold convert_options. dests.
      - split.
        + apply has_codecs_defaults; [done|dests|dests| |].
          * rewrite lookup_insert_ne by done.
            apply (ns1_unset prog); [by apply main_options_no_codecs; left|done|done].
          * rewrite lookup_insert_ne by done.
            apply (ns1_unset prog); [by apply main_options_no_codecs; right|done|done].
        + apply add_defaults_default; [dests|done|]. by rewrite lookup_insert_ne. }
    destruct Hi as (ic & Hi & Hic), Ho as (oc & Ho & Hoc).
    unfold store_positionals. cbn [fold_left fst snd dest positional_value nargs
      specification_argument type_argument hexstring_argument].
    split; [by rewrite !lookup_insert_ne by done|].
    exists specs, ic, oc, ty, hex.
    split; [done|]. split; [done|]. split; [done|].
    split; [by rewrite !lookup_insert_ne, lookup_insert_eq by done|].
    split; [by rewrite !lookup_insert_ne by done|].
    split; [by rewrite !lookup_insert_ne by done|].
    split; [by rewrite lookup_insert_ne, lookup_insert_eq by done|].
    by rewrite lookup_insert_eq.
  - split; [done|].
    destruct got; [|discriminate Hgot]. cbn.
    apply (Hm (fun m => m !! "func" = Some (VFunc "_do_shell"))).
    + apply lookup_preserved. dests.
    + apply add_defaults_default; [dests|done|]. by rewrite lookup_insert_ne.
Qed.



Lemma parse_parsed p args ns :
  parse p args = Parsed ns ->
  exists got m, positionals p = map fst got /\ Forall shaped got /\
    ns = store_positionals got m /\
    forall P, preserved (prog p) (optionals p) P -> P (add_defaults p ∅) -> P m.
Proof.
  unfold parse, no_extras. intros Hp.
  apply and_then_parsed in Hp as ([ns' ex] & Hp & Hex). simpl in Hex.
  destruct ex; [|discriminate]. injection Hex as ->.
  by apply parse_known_args_parsed in Hp.
Qed.

(** The arguments of the shell's [compile], once parsed. *)
Lemma parse_compile_attributes args ns :
  parse compile_parser args = Parsed ns ->
  exists specs ic oc,
    specs <> [] /\ ic ∈ input_codecs /\ oc ∈ output_codecs /\
    ns !! "specification" = Some (VList specs) /\
    ns !! "input_codec" = Some (VStr ic) /\
    ns !! "output_codec" = Some (VStr oc).
Proof.
  intros Hp. apply parse_parsed in Hp as (got & m & Hgot & Hshaped & -> & Hm).
  change (positionals compile_parser) with [specification_argument] in Hgot.
  destruct got as [|[a specs] [|? ?]]; try discriminate Hgot. injection Hgot as <-.
  inversion Hshaped as [|? ? Hs _]; subst. cbn in Hs.
  assert (has_codecs m) as [(ic & Hi & Hic) (oc & Ho & Hoc)].
  { apply Hm; [apply has_codecs_preserved|].
    apply has_codecs_defaults; [done|dests|dests|done|done]. }
  exists specs, ic, oc. unfold store_positionals.
  cbn [fold_left fst snd dest positional_value nargs specification_argument].
  split; [done|]. split; [done|]. split; [done|].
  split; [by rewrite lookup_insert_eq|].
  split; by rewrite lookup_insert_ne by done.
Qed.

(** The arguments of the shell's [convert], once parsed. *)
Lemma parse_convert_attributes args ns :
  parse convert_parser args = Parsed ns ->
  exists ty hex, ns !! "type" = Some (VStr ty) /\ ns !! "hexstring" = Some (VStr hex).
Proof.
  intros Hp. apply parse_parsed in Hp as (got & m & Hgot & Hshaped & -> & Hm).
  change (positionals convert_parser) with [type_argument; hexstring_argument] in Hgot.
  destruct got as [|[a1 l1] [|[a2 l2] [|? ?]]]; try discriminate Hgot.
  injection Hgot as <- <-.
  inversion Hshaped as [|? ? H1 Hs']; subst. inversion Hs' as [|? ? H2 _]; subst.
  destruct H1 as [ty H1], H2 as [hex H2]. cbn in H1, H2. subst. exists ty, hex.
  unfold store_positionals.
  cbn [fold_left fst snd dest positional_value nargs type_argument hexstring_argument].
  split; [by rewrite lookup_insert_ne, lookup_insert_eq by done|by rewrite lookup_insert_eq].
Qed.

(** ** Exceptions in the shell *)

Section Raises.
Context (P : Exc -> Prop).

Lemma raises_in_ret {A} (a : A) : raises_in P (ret a).
Proof. intros w e w'. discriminate. Qed.

Lemma raises_in_print s : raises_in P (print s).
Proof. intros w e w'. discriminate. Qed.

Lemma raises_in_raise {A} e : P e -> raises_in P (@raise A e).
Proof. intros Hp w e' w' [= <- _]. done. Qed.

Lemma raises_in_bind {A B} (m : M A) (k : A -> M B) :
  raises_in P m -> (forall a, raises_in P (k a)) -> raises_in P (bind m k).
Proof.
  intros Hm Hk w e w'. unfold bind. destruct (m w) as [[a|e1] w1] eqn:E.
  - apply Hk.
  - intros [= <- <-]. by eapply Hm.
Qed.

Lemma raises_in_external {A} c (x : Exc + A) :
  (forall e, x = inl e -> P e) -> raises_in P (external c x).
Proof.
  intros Hx w e w'. unfold external. destruct x; [|discriminate].
  intros [= <- _]. by apply Hx.
Qed.

(** [try: m except: handler]: what the handler does not take, and what it
    raises itself. *)
Lemma raises_in_try_except {A} (Q : Exc -> Prop) (m : M A) handles handler :
  raises_in Q m -> (forall e, Q e -> handles e = false -> P e) ->
  (forall e, raises_in P (handler e)) ->
  raises_in P (try_except m handles handler).
Proof.
  intros Hm Hq Hh w e w'. unfold try_except. destruct (m w) as [[a|e1] w1] eqn:E; [discriminate|].
  destruct (handles e1) eqn:He.
  - apply Hh.
  - intros [= <- <-]. apply Hq; [|done]. by eapply Hm.
Qed.

End Raises.

Lemma raises_in_any {A} (m : M A) : raises_in (fun _ => True) m.
Proof. by intros w e w' _. Qed.

Lemma raises_in_impl (P Q : Exc -> Prop) {A} (m : M A) :
  (forall e, P e -> Q e) -> raises_in P m -> raises_in Q m.
Proof. intros Hpq Hm w e w' Hr. apply Hpq. by eapply Hm. Qed.

Lemma ArgumentParser_parse_args_returns p args w ns w' :
  ArgumentParser.parse_args p args w = (Return ns, w') -> parse p args = Parsed ns /\ w' = w.
Proof.
  unfold ArgumentParser.parse_args. destruct (parse p args) as [ns'|pr er|pr o]; try discriminate.
  by intros [= <- <-].
Qed.

(** The handlers of the shell let through only what is no [Exception]. *)
Lemma _handle_command_compile_raises `{Asn1Tools} line :
  raises_in (fun e => isinstance e Exception = false) (_handle_command_compile line).
Proof.
  unfold _handle_command_compile. apply raises_in_bind.
  - apply (raises_in_try_except _ (fun e => isinstance e ArgumentParserError = true)).
    + apply raises_in_bind; [|intros a; apply raises_in_ret].
      intros w e w'. apply ArgumentParser_parse_args_raises.
    + intros e He Hn. congruence.
    + intros e. apply raises_in_ret.
  - intros [args|]; [|apply raises_in_ret].
    apply (raises_in_try_except _ (fun _ => True)); [apply raises_in_any|done|].
    intros e. apply raises_in_bind; [apply raises_in_print|intros _; apply raises_in_ret].
Qed.

Lemma _handle_command_convert_raises `{Asn1Tools} line compiled :
  raises_in (fun e => isinstance e Exception = false) (_handle_command_convert line compiled).
Proof.
  unfold _handle_command_convert. destruct (input_spec compiled); [|apply raises_in_print].
  apply raises_in_bind.
  - apply (raises_in_try_except _ (fun e => isinstance e ArgumentParserError = true)).
    + apply raises_in_bind; [|intros a; apply raises_in_ret].
      intros w e w'. apply ArgumentParser_parse_args_raises.
    + intros e He Hn. congruence.
    + intros e. apply raises_in_ret.
  - intros [args|]; [|apply raises_in_ret].
    apply (raises_in_try_except _ (fun _ => True)); [apply raises_in_any|done|].
    intros e. apply raises_in_print.
Qed.

Lemma compile_arguments_cases `{Asn1Tools} args specs ic oc w :
  args !! "specification" = Some (VList specs) ->
  args !! "input_codec" = Some (VStr ic) ->
  args !! "output_codec" = Some (VStr oc) ->
  compile_arguments args w =
    match _compile_files specs ic oc w with
    | (Return (i, o), w1) => (Return (mkCompiled (Some i) (Some o) (Some oc)), w1)
    | (Raise e, w1) => (Raise e, w1)
    end.
Proof.
  intros Hs Hi Ho. unfold compile_arguments, bind, getattr_list, getattr_str.
  rewrite Hs, Hi, Ho. unfold ret. cbv beta iota.
  by destruct (_compile_files specs ic oc w) as [[[i o]|e] w1].
Qed.

Lemma _handle_command_compile_returns `{Asn1Tools} line w c w' :
  _handle_command_compile line w = (Return c, w') -> set_together c.
Proof.
  unfold _handle_command_compile, bind, try_except.
  destruct (ArgumentParser.parse_args compile_parser (tail (py.split line)) w)
    as [[args|e] w1] eqn:Hp; unfold ret at 1; cbv beta iota.
  - apply ArgumentParser_parse_args_returns in Hp as [Hp ->].
    apply parse_compile_attributes in Hp as (specs & ic & oc & _ & _ & Hoc & Hs & Hi & Ho).
    rewrite (compile_arguments_cases args specs ic oc w Hs Hi Ho).
    destruct (_compile_files specs ic oc w) as [[[i o]|e] w1].
    + intros [= <- _]. right. by exists i, o, oc.
    + destruct (isinstance e Exception); [|discriminate].
      unfold print, ret. intros [= <- _]. by left.
  - destruct (isinstance e ArgumentParserError); [|discriminate].
    unfold ret. intros [= <- _]. by left.
Qed.


Lemma shell_loop_raises `{Asn1Tools} history typed : forall compiled,
  raises_in (fun e => isinstance e Exception = false) (shell_loop history typed compiled).
Proof.
  induction typed as [|text rest IH]; intros compiled w e w'; [discriminate|].
  rewrite shell_loop_cons. cbv zeta.
  destruct (negb _); [|apply IH].
  destruct (py.startswith _ "compile").
  { destruct (_handle_command_compile _ _) as [[c|e1] w1] eqn:E; [apply IH|].
    intros [= <- <-]. by apply _handle_command_compile_raises in E. }
  destruct (py.startswith _ "convert").
  { destruct (_handle_command_convert _ _ _) as [[c|e1] w1] eqn:E; [apply IH|].
    intros [= <- <-]. by apply _handle_command_convert_raises in E. }
  destruct (bool_decide (_ = "help")); [apply IH|].
  destruct (bool_decide (_ = "exit")); [discriminate|apply IH].
Qed.

(** With a package that raises nothing but [Exception]s, the commands of
    the shell and the shell itself always return. *)
Section WellBehaved.
Context `{Asn1Tools}.
Hypothesis package : raises_exceptions_only.

Lemma _compile_files_Exception specs ic oc :
  raises_in (fun e => isinstance e Exception = true) (_compile_files specs ic oc).
Proof.
  destruct package as (Hp & Hc & _ & _).
  unfold _compile_files. apply raises_in_bind.
  - intros w e w' Hr.
    refine (raises_in_external (fun e => isinstance e Exception = true) _
              (parse_files (files w) specs) _ w e w' Hr). apply Hp.
  - intros parsed. apply raises_in_bind; [apply raises_in_external, Hc|].
    intros i. apply raises_in_bind; [apply raises_in_external, Hc|].
    intros o. apply raises_in_ret.
Qed.

Lemma _convert_hexstring_Exception ispec ospec oc ty hexstring :
  raises_in (fun e => isinstance e Exception = true)
    (_convert_hexstring ispec ospec oc ty hexstring).
Proof.
  destruct package as (_ & _ & Hd & He).
  intros w e w'. rewrite _convert_hexstring_cases.
  destruct (binascii.unhexlify hexstring) as [e1|encoded]; [by intros [= <- _]|].
  cbv zeta. destruct (decode ispec ty encoded) as [e1|v] eqn:Ed.
  { intros [= <- _]. by eapply Hd. }
  destruct (bool_decide _).
  - destruct (encode ospec ty v (Some 4)) as [e1|text] eqn:Ee; [|discriminate].
    intros [= <- _]. by eapply He.
  - destruct (encode ospec ty v None) as [e1|text] eqn:Ee; [|discriminate].
    intros [= <- _]. by eapply He.
Qed.

Lemma getattr_str_Exception args name :
  raises_in (fun e => isinstance e Exception = true) (getattr_str args name).
Proof.
  unfold getattr_str. destruct (args !! name) as [[]|];
    first [apply raises_in_ret|by apply raises_in_raise].
Qed.

Lemma getattr_list_Exception args name :
  raises_in (fun e => isinstance e Exception = true) (getattr_list args name).
Proof.
  unfold getattr_list. destruct (args !! name) as [[]|];
    first [apply raises_in_ret|by apply raises_in_raise].
Qed.

Lemma _handle_command_compile_total line :
  raises_in (fun _ => False) (_handle_command_compile line).
Proof.
  unfold _handle_command_compile. apply raises_in_bind.
  - apply (raises_in_try_except _ (fun e => isinstance e ArgumentParserError = true)).
    + apply raises_in_bind; [|intros a; apply raises_in_ret].
      intros w e w'. apply ArgumentParser_parse_args_raises.
    + intros e He Hn. congruence.
    + intros e. apply raises_in_ret.
  - intros [args|]; [|apply raises_in_ret].
    apply (raises_in_try_except _ (fun e => isinstance e Exception = true)).
    + unfold compile_arguments.
      apply raises_in_bind; [apply getattr_list_Exception|]. intros specification.
      apply raises_in_bind; [apply getattr_str_Exception|]. intros input_codec.
      apply raises_in_bind; [apply getattr_str_Exception|]. intros output_codec.
      apply raises_in_bind; [apply _compile_files_Exception|]. intros [i o].
      apply raises_in_ret.
    + intros e He Hn. congruence.
    + intros e. apply raises_in_bind; [apply raises_in_print|intros _; apply raises_in_ret].
Qed.

Lemma _handle_command_convert_total line compiled :
  raises_in (fun _ => False) (_handle_command_convert line compiled).
Proof.
  unfold _handle_command_convert. destruct (input_spec compiled); [|apply raises_in_print].
  apply raises_in_bind.
  - apply (raises_in_try_except _ (fun e => isinstance e ArgumentParserError = true)).
    + apply raises_in_bind; [|intros a; apply raises_in_ret].
      intros w e w'. apply ArgumentParser_parse_args_raises.
    + intros e He Hn. congruence.
    + intros e. apply raises_in_ret.
  - intros [args|]; [|apply raises_in_ret].
    apply (raises_in_try_except _ (fun e => isinstance e Exception = true)).
    + apply raises_in_bind; [apply getattr_str_Exception|]. intros type_name.
      apply raises_in_bind; [apply getattr_str_Exception|]. intros hexstring.
      destruct (output_spec compiled); [|by apply raises_in_raise].
      destruct (output_codec compiled); [|by apply raises_in_raise].
      apply _convert_hexstring_Exception.
    + intros e He Hn. congruence.
    + intros e. apply raises_in_print.
Qed.

Lemma shell_loop_total history typed : forall compiled w,
  fst (shell_loop history typed compiled w) = Return tt.
Proof.
  induction typed as [|text rest IH]; intros compiled w; [reflexivity|].
  rewrite shell_loop_cons. cbv zeta.
  destruct (negb _); [|apply IH].
  destruct (py.startswith _ "compile").
  { destruct (_handle_command_compile _ _) as [[c|e1] w1] eqn:E; [apply IH|].
    by apply _handle_command_compile_total in E. }
  destruct (py.startswith _ "convert").
  { destruct (_handle_command_convert _ _ _) as [[c|e1] w1] eqn:E; [apply IH|].
    by apply _handle_command_convert_total in E. }
  destruct (bool_decide (_ = "help")); [apply IH|].
  destruct (bool_decide (_ = "exit")); [reflexivity|apply IH].
Qed.

Lemma _do_shell_total args w : fst (_do_shell args w) = Return tt.
Proof. unfold _do_shell, bind, print. apply shell_loop_total. Qed.

End WellBehaved.


Lemma octets_raises_exceptions_only : raises_exceptions_only (H:=octets).
Proof.
  split; [|split; [|split]].
  - intros fs specs e. cbn. unfold octets_parse_files. destruct (forallb _ _); [discriminate|].
    by intros [= <-].
  - intros tree codec e. discriminate.
  - intros spec ty data e. cbn. unfold octets_decode.
    destruct (negb _); [by intros [= <-]|]. destruct data; [by intros [= <-]|discriminate].
  - intros spec ty v indent e. cbn. unfold octets_encode.
    destruct (_ && _); [by intros [= <-]|discriminate].
Qed.


(** ** What the shell reads *)

Lemma _handle_command_compile_terminal `{Asn1Tools} line :
  respects (fun w w' => terminal w' = terminal w) (_handle_command_compile line).
Proof. apply respects__handle_command_compile; first [done|by intros; congruence]. Qed.

Lemma _handle_command_convert_terminal `{Asn1Tools} line compiled :
  respects (fun w w' => terminal w' = terminal w) (_handle_command_convert line compiled).
Proof. apply respects__handle_command_convert; first [done|by intros; congruence]. Qed.

Lemma shell_loop_terminal `{Asn1Tools} history typed : forall compiled w r w',
  shell_loop history typed compiled w = (r, w') ->
  terminal w' `suffix_of` match typed with [] => terminal w | _ => typed end /\
  (r = Return tt -> typed <> [] -> terminal w' = after_exit typed).
Proof.
  induction typed as [|text rest IH]; intros compiled w r w'.
  { intros [= <- <-]. split; [done|]. by intros _ []. }
  rewrite shell_loop_cons. cbv zeta.
  assert (forall c w1 , terminal w1 = rest -> py.strip text <> "exit" ->
            shell_loop history rest c w1 = (r, w') ->
            terminal w' `suffix_of` text :: rest /\
            (r = Return tt -> text :: rest <> [] -> terminal w' = after_exit (text :: rest)))
    as Hnext.
  { intros c w1 Ht Hne Hl. apply IH in Hl as [Hsuf Hret]. split.
    - apply suffix_cons_r. destruct rest; [by rewrite <- Ht|done].
    - intros Hr _. cbn [after_exit]. rewrite bool_decide_eq_false_2 by done.
      destruct rest as [|t rest']; [|by apply Hret].
      cbn [after_exit]. subst r.
      destruct Hsuf as [pre Hpre]. rewrite Ht in Hpre.
      symmetry in Hpre. by apply app_eq_nil in Hpre as [_ ?]. }
  destruct (negb (bool_decide (py.strip text = ""))) eqn:Hempty.
  2:{ apply Hnext; [done|].
      apply negb_false_iff, bool_decide_eq_true in Hempty. by rewrite Hempty. }
  destruct (py.startswith _ "compile") eqn:Hc.
  { assert (py.strip text <> "exit") as Hne by (intros Heq; by rewrite Heq in Hc).
    destruct (_handle_command_compile _ _) as [[c|e1] w1] eqn:E;
      apply _handle_command_compile_terminal in E.
    - by apply Hnext.
    - intros [= <- <-]. split; [|done]. rewrite E. apply suffix_cons_r. done. }
  destruct (py.startswith _ "convert") eqn:Hv.
  { assert (py.strip text <> "exit") as Hne by (intros Heq; by rewrite Heq in Hv).
    destruct (_handle_command_convert _ _ _) as [[c|e1] w1] eqn:E;
      apply _handle_command_convert_terminal in E.
    - by apply Hnext.
    - intros [= <- <-]. split; [|done]. rewrite E. apply suffix_cons_r. done. }
  destruct (bool_decide (_ = "help")) eqn:Hh.
  { apply bool_decide_eq_true in Hh. apply Hnext; [done|by rewrite Hh]. }
  destruct (bool_decide (py.strip text = "exit")) eqn:Hx.
  - intros [= <- <-]. split; [by apply suffix_cons_r|].
    intros _ _. cbn [after_exit]. by rewrite Hx.
  - apply bool_decide_eq_false in Hx. by apply Hnext.
Qed.

(** X7: the shell reads the typed lines in order and never goes back; when
    it returns, what is left to read is what follows the first line that
    is [exit] once stripped, and nothing if there is none. *)
Theorem shell_reads_until_exit `{Asn1Tools} args w :
  let r := _do_shell args w in
  terminal (snd r) `suffix_of` terminal w /\
  (fst r = Return tt -> terminal (snd r) = after_exit (terminal w)).
Proof.
  cbv zeta. unfold _do_shell, bind, print.
  destruct (shell_loop _ _ _ _) as [r w'] eqn:E. cbn [fst snd].
  apply shell_loop_terminal in E as [Hsuf Hret]. cbn [terminal printed set_stdout] in *.
  split.
  - by destruct (terminal w).
  - intros Hr. destruct (terminal w) as [|t l] eqn:Et; [|by apply Hret].
    destruct Hsuf as [pre Hpre]. symmetry in Hpre. by apply app_eq_nil in Hpre as [_ ?].
Qed.

Lemma shell_reads_until_exit_witness :
  terminal (snd (_do_shell (H:=octets) ∅ (world_with [] ["help"; " exit "; "compile a.asn"])))
  = ["compile a.asn"].
Proof.
  destruct (shell_reads_until_exit (H:=octets) ∅
              (world_with [] ["help"; " exit "; "compile a.asn"])) as [_ Hret].
  rewrite Hret; [vm_compute; reflexivity|].
  vm_compute. reflexivity.
Defined.

(** ** The exit status *)

(** For a relation [R] between worlds that holds across printing,
    reading, calls into the package and the prompt, the shell and the
    function of either subcommand relate the world they start in to the
    world they end in. *)
Section ShellFrame.
Context `{Asn1Tools} (R : World -> World -> Prop).
Hypothesis R_refl : forall w, R w w.
Hypothesis R_trans : forall a b c, R a b -> R b c -> R a c.
Hypothesis R_stdout : forall f w, R w (set_stdout f w).
Hypothesis R_stdin : forall l w, R w (set_stdin l w).
Hypothesis R_calls : forall c w, R w (log_call c w).
Hypothesis R_prompt : forall history text rest w, R w (prompted history text rest w).

Lemma respects_shell_loop history typed : forall compiled,
  respects R (shell_loop history typed compiled).
Proof.
  induction typed as [|text rest IH]; intros compiled w r w'.
  { intros [= _ <-]. apply R_refl. }
  rewrite shell_loop_cons. cbv zeta.
  pose proof (R_prompt history text rest w) as Hp.
  set (w1 := prompted history text rest w) in *.
  assert (forall c w2 r', R w1 w2 -> shell_loop history rest c w2 = (r', w') -> R w w') as Hnext.
  { intros c w2 r' H12 Hl. eapply R_trans; [exact Hp|].
    eapply R_trans; [exact H12|]. by eapply IH. }
  destruct (negb _); [|by apply Hnext].
  destruct (py.startswith _ "compile").
  { destruct (_handle_command_compile _ w1) as [[c|e] w2] eqn:E;
      apply (respects__handle_command_compile R R_refl R_trans R_stdout R_calls) in E.
    - by apply Hnext.
    - intros [= _ <-]. by eapply R_trans. }
  destruct (py.startswith _ "convert").
  { destruct (_handle_command_convert _ _ w1) as [[c|e] w2] eqn:E;
      apply (respects__handle_command_convert R R_refl R_trans R_stdout R_calls) in E.
    - by apply Hnext.
    - intros [= _ <-]. by eapply R_trans. }
  destruct (bool_decide (_ = "help")).
  { destruct (_handle_command_help w1) as [[c|e] w2] eqn:E;
      apply (respects__handle_command_help R R_trans R_stdout) in E.
    - by apply Hnext.
    - intros [= _ <-]. by eapply R_trans. }
  destruct (bool_decide (_ = "exit")).
  { by intros [= _ <-]. }
  apply Hnext. apply R_stdout.
Qed.

Lemma respects__do_shell args : respects R (_do_shell args).
Proof.
  intros w r w'. unfold _do_shell, bind, print. intros Hl.
  apply respects_shell_loop in Hl. eapply R_trans; [|exact Hl]. apply R_stdout.
Qed.

Lemma respects_call_func args : respects R (call_func args).
Proof.
  unfold call_func.
  destruct (args !! "func") as [[| | | | |name]|]; try apply (respects_raise R R_refl).
  destruct (String.eqb name "_do_convert").
  { by apply respects__do_convert. }
  destruct (String.eqb name "_do_shell"); [apply respects__do_shell|].
  apply (respects_raise R R_refl).
Qed.

End ShellFrame.

(** No subcommand writes to the standard error stream. *)
Lemma call_func_stderr `{Asn1Tools} args :
  respects (fun w w' => stderr w' = stderr w) (call_func args).
Proof. apply respects_call_func; first [done|by intros; congruence]. Qed.

Lemma parse_top_debug_default prog argv args :
  parse_top (main_parser prog) argv = Parsed args ->
  Forall (fun t => selects main_options "debug" t = false) argv ->
  args !! "debug" = Some (VBool false).
Proof.
  intros Hp Hs.
  apply parse_top_parsed in Hp as (name & sub & rest & ns1 & Hsub & Hsuf & Hp & Hd).
  eapply parse_known_args_frame; [| |exact Hp].
  - eapply Forall_impl; [exact (main_subparsers _ _ _ Hsub)|]. by intros a [? ?].
  - rewrite lookup_insert_ne by done. by rewrite (Hd "debug" Hs).
Qed.

(** [_main] without [--debug]: the subcommand runs inside the handler. *)
Lemma run_without_debug `{Asn1Tools} prog argv args w :
  parse_top (main_parser prog) argv = Parsed args ->
  args !! "debug" = Some (VBool false) ->
  exists level,
    run prog argv w =
      match call_func args (set_root_level level w) with
      | (Return _, w') => (0%Z, w')
      | (Raise e, w') =>
          (1%Z, set_stderr (fun o => o ++ [line ("error: " +:+ exc_str e)]) w')
      end.
Proof.
  intros Hp Hd.
  destruct (_main_parsed prog argv args w Hp) as (n & level & debug & _ & _ & _ & Hd' & Hm).
  rewrite Hd in Hd'. injection Hd' as <-. exists level.
  unfold run. rewrite Hm. unfold try_except.
  destruct (call_func args (set_root_level level w)) as [[[]|e] w']; [done|].
  by rewrite isinstance_BaseException.
Qed.



(** ** A hexstring on the command line and in the shell *)

(** With a hexstring other than [-], [_do_convert] compiles and converts
    the one hexstring. *)
Lemma _do_convert_argument `{Asn1Tools} args specs ic oc ty hex w :
  args !! "specification" = Some (VList specs) ->
  args !! "input_codec" = Some (VStr ic) ->
  args !! "output_codec" = Some (VStr oc) ->
  args !! "type" = Some (VStr ty) ->
  args !! "hexstring" = Some (VStr hex) -> hex <> "-" ->
  _do_convert args w =
    match _compile_files specs ic oc w with
    | (Return (ispec, ospec), w1) => _convert_hexstring ispec ospec oc ty hex w1
    | (Raise e, w1) => (Raise e, w1)
    end.
Proof.
  intros Hs Hi Ho Ht Hh Hne.
  unfold _do_convert, bind, getattr_list, getattr_str. rewrite Hs, Hi, Ho.
  unfold ret. cbv beta iota.
  destruct (_compile_files specs ic oc w) as [[[ispec ospec]|e] w1]; [|done].
  rewrite Hh, Ht. cbv beta iota. by rewrite bool_decide_eq_false_2.
Qed.

Lemma call_func__do_convert `{Asn1Tools} args :
  args !! "func" = Some (VFunc "_do_convert") -> call_func args = _do_convert args.
Proof. intros Hf. unfold call_func. by rewrite Hf. Qed.

(** Only the [convert] subcommand has a hexstring. *)
Lemma parse_top_hexstring prog argv args v :
  parse_top (main_parser prog) argv = Parsed args ->
  args !! "hexstring" = Some v ->
  args !! "func" = Some (VFunc "_do_convert") /\
  exists specs ic oc ty,
    args !! "specification" = Some (VList specs) /\
    args !! "input_codec" = Some (VStr ic) /\
    args !! "output_codec" = Some (VStr oc) /\
    args !! "type" = Some (VStr ty).
Proof.
  intros Hp Hh.
  destruct (parse_top_attributes _ _ _ Hp) as [(_ & Hf & Ha)|[Hc Hf]].
  - split; [done|].
    destruct Ha as (specs & ic & oc & ty & hex & _ & _ & _ & Hsp & Hi & Ho & Ht & _).
    by exists specs, ic, oc, ty.
  - exfalso. apply parse_top_sub in Hp as (name & sub & rest & ns1 & Hsub & Hp & HP).
    pose proof (parse_top_subcommand _ _ _ _ _ _ Hsub Hp) as Hname.
    rewrite Hc in Hname. injection Hname as <-.
    destruct (main_subparsers_cases _ _ _ Hsub) as [[? _]|[_ ->]]; [discriminate|].
    assert (args !! "hexstring" = None); [|congruence].
    apply parse_known_args_parsed in Hp as (got & m & Hgot & _ & -> & Hm).
    destruct got; [|discriminate Hgot]. cbn.
    apply (Hm (fun m => m !! "hexstring" = None)).
    + apply lookup_preserved. dests.
    + rewrite add_defaults_ne; [|dests|dests]. rewrite lookup_insert_ne by done.
      apply (ns1_unset prog); [dests|done|done].
Qed.





(** The shell's [convert] given a type and a hexstring. *)
Lemma parse_convert_plain ty hex :
  plain ty = true -> plain hex = true ->
  exists args,
    parse convert_parser [ty; hex] = Parsed args /\
    args !! "type" = Some (VStr ty) /\ args !! "hexstring" = Some (VStr hex).
Proof.
  intros Ht Hh.
  assert (Forall (fun t => plain t = true) [ty; hex]) as Hall by (by repeat constructor).
  eexists. split.
  - unfold parse, parse_known_args.
    rewrite find_ambiguous_plain by done. rewrite consume_plain by done.
    cbn [namespace closed_runs open_run extras app]. unfold finish.
    cbn [namespace closed_runs open_run extras app]. reflexivity.
  - cbn [fst]. unfold store_positionals.
    cbn [fold_left fst snd dest positional_value nargs type_argument hexstring_argument
         firstn skipn].
    split; [by rewrite lookup_insert_ne, lookup_insert_eq by done|by rewrite lookup_insert_eq].
Qed.

Lemma _handle_command_convert_plain `{Asn1Tools} line ty hex ispec ospec oc w :
  tail (py.split line) = [ty; hex] -> plain ty = true -> plain hex = true ->
  _handle_command_convert line (mkCompiled (Some ispec) (Some ospec) (Some oc)) w =
    match _convert_hexstring ispec ospec oc ty hex w with
    | (Raise e, w') =>
        if isinstance e Exception then (Return tt, printed ("error: " +:+ exc_str e) w')
        else (Raise e, w')
    | r => r
    end.
Proof.
  intros Hl Ht Hh. destruct (parse_convert_plain ty hex Ht Hh) as (args & Hp & Hty & Hhex).
  unfold _handle_command_convert. cbn [input_spec output_spec output_codec].
  unfold bind at 1. unfold try_except at 1. unfold bind at 1.
  unfold ArgumentParser.parse_args. rewrite Hl, Hp. unfold ret at 1 2. cbv beta iota.
  unfold try_except, bind, getattr_str. rewrite Hty, Hhex. unfold ret. cbv beta iota.
  destruct (_convert_hexstring ispec ospec oc ty hex w) as [[[]|e] w']; [done|].
  by destruct (isinstance e Exception).
Qed.

(** X11: in the shell, with a specification compiled, [convert TYPE
    HEXSTRING] reports any [Exception] of the conversion as a line
    [error: ...] on the standard output and returns; a hexstring that
    [unhexlify] refuses is reported as [error: '<hexstring>': <reason>],
    without a call into the codecs. *)
Theorem shell_convert_reports `{Asn1Tools} line ty hex ispec ospec oc w :
  tail (py.split line) = [ty; hex] -> plain ty = true -> plain hex = true ->
  (forall e w',
     _convert_hexstring ispec ospec oc ty hex w = (Raise e, w') ->
     isinstance e Exception = true ->
     _handle_command_convert line (mkCompiled (Some ispec) (Some ospec) (Some oc)) w =
       (Return tt, printed ("error: " +:+ exc_str e) w')) /\
  (forall e,
     binascii.unhexlify hex = inl e ->
     _handle_command_convert line (mkCompiled (Some ispec) (Some ospec) (Some oc)) w =
       (Return tt, printed ("error: '" +:+ hex +:+ "': " +:+ exc_str e) w)).
Proof.
  intros Hl Ht Hh. split.
  - intros e w' Hc He. rewrite (_handle_command_convert_plain line ty hex) by done.
    by rewrite Hc, He.
  - intros e Hu. rewrite (_handle_command_convert_plain line ty hex) by done.
    by rewrite (_convert_hexstring_TypeError _ _ _ _ _ e _ Hu).
Qed.

Lemma shell_convert_reports_witness :
  _handle_command_convert (H:=octets) "convert A zz"
    (mkCompiled (H:=octets) (Some "ber") (Some "gser") (Some "gser")) (world_with [] []) =
  (Return tt, printed ("error: '" +:+ "zz" +:+ "': " +:+ "Non-hexadecimal digit found")
                (world_with [] [])).
Proof.
  destruct (shell_convert_reports (H:=octets) "convert A zz" "A" "zz" "ber" "gser" "gser"
              (world_with [] [])) as [_ Hhex]; [reflexivity|reflexivity|reflexivity|].
  apply (Hhex (exception BinasciiError "Non-hexadecimal digit found")). reflexivity.
Defined.

(** ** How many arguments the parsers take *)

Lemma finish_plain p ns toks :
  is_parsed (no_extras (prog p) (finish p (mkState ns [] toks []))) = fits (positionals p) toks.
Proof.
  unfold finish, fits. cbn [closed_runs open_run extras namespace app]. rewrite assign_runs_single.
  destruct (consume_positionals (positionals p) toks) as [[got missing] spare].
  destruct missing; [|done]. rewrite app_nil_r. by destruct spare.
Qed.

Lemma parse_known_args_plain p toks ns :
  lookup_option (optionals p) "-" = None -> Forall (fun t => plain t = true) toks ->
  parse_known_args p toks ns = finish p (mkState (add_defaults p ns) [] toks []).
Proof.
  intros Hl Hp. unfold parse_known_args.
  rewrite find_ambiguous_plain by done. by rewrite consume_plain by done.
Qed.

Lemma is_parsed_parse_plain p toks :
  lookup_option (optionals p) "-" = None -> Forall (fun t => plain t = true) toks ->
  is_parsed (parse p toks) = fits (positionals p) toks.
Proof.
  intros Hl Hp. unfold parse. rewrite parse_known_args_plain by done. apply finish_plain.
Qed.

(** The command line [name toks] of the main parser, for a subcommand
    [name]. *)
Lemma parse_top_plain prog name sub toks :
  find (fun np => String.eqb (fst np) name) (subparsers (main_parser prog)) = Some (name, sub) ->
  lookup_option (optionals sub) "-" = None ->
  plain name = true -> Forall (fun t => plain t = true) toks ->
  parse_top (main_parser prog) (name :: toks) =
    no_extras prog
      (and_then (finish sub (mkState (add_defaults sub
                   (<["subcommand" := VStr name]>
                      (set_default (add_defaults (top (main_parser prog)) ∅) "subcommand" VNone)))
                   [] toks []))
                (fun x => Parsed (fst x, [] ++ snd x))).
Proof.
  intros Hf Hl Hn Hp. unfold parse_top. rewrite main_parser_optionals.
  rewrite find_ambiguous_plain by (by constructor).
  rewrite consume_top_cons. cbv zeta. rewrite main_parser_optionals.
  rewrite (plain_not_separator name Hn), (plain_positional main_options name eq_refl Hn).
  unfold call_subparser. rewrite Hf. by rewrite parse_known_args_plain.
Qed.

Lemma is_parsed_parse_top_plain prog name sub toks :
  find (fun np => String.eqb (fst np) name) (subparsers (main_parser prog)) = Some (name, sub) ->
  lookup_option (optionals sub) "-" = None ->
  plain name = true -> Forall (fun t => plain t = true) toks ->
  is_parsed (parse_top (main_parser prog) (name :: toks)) = fits (positionals sub) toks.
Proof.
  intros Hf Hl Hn Hp. rewrite (parse_top_plain prog name sub) by done.
  rewrite <- (finish_plain sub
    (add_defaults sub (<["subcommand" := VStr name]>
       (set_default (add_defaults (top (main_parser prog)) ∅) "subcommand" VNone)))).
  destruct (finish sub _) as [[ns ex]| |]; try done. cbn. by destruct ex.
Qed.

Lemma fits_two toks :
  fits [type_argument; hexstring_argument] toks = true <-> length toks = 2.
Proof.
  destruct toks as [|a [|b [|c l]]]; cbn; split; try done; lia.
Qed.

Lemma fits_plus toks : fits [specification_argument] toks = true <-> toks <> [].
Proof.
  destruct toks as [|a l]; [done|]. split; [done|]. intros _.
  unfold fits. by rewrite consume_positionals_compile.
Qed.

Lemma last_two {A} (l : list A) :
  3 <= length l -> exists front a b, front <> [] /\ l = front ++ [a; b].
Proof.
  intros Hl. exists (take (length l - 2) l).
  pose proof (take_drop (length l - 2) l) as Hsplit.
  assert (length (drop (length l - 2) l) = 2) as Hd by (rewrite length_drop; lia).
  destruct (drop (length l - 2) l) as [|a [|b [|? ?]]]; try discriminate Hd.
  exists a, b. split; [|done].
  intros Hnil. apply (f_equal length) in Hnil. rewrite length_take in Hnil. cbn in Hnil. lia.
Qed.

Lemma fits_convert toks :
  fits [specification_argument; type_argument; hexstring_argument] toks = true
  <-> 3 <= length toks.
Proof.
  split.
  - destruct toks as [|a [|b [|c l]]]; cbn; try done. lia.
  - intros Hl. destruct (last_two toks Hl) as (specs & ty & hex & Hne & ->).
    unfold fits. by rewrite consume_positionals_convert.
Qed.

Lemma fits_none toks : fits [] toks = true <-> toks = [].
Proof. by destruct toks. Qed.

(** X12: given arguments none of which starts with a dash (the lone [-]
    apart), the shell's [convert] parses exactly two of them, the shell's
    [compile] one or more, the [convert] subcommand three or more, and the
    [shell] subcommand none. *)
Theorem positional_arity prog toks :
  Forall (fun t => plain t = true) toks ->
  (is_parsed (parse convert_parser toks) = true <-> length toks = 2) /\
  (is_parsed (parse compile_parser toks) = true <-> toks <> []) /\
  (is_parsed (parse_top (main_parser prog) ("convert" :: toks)) = true <-> 3 <= length toks) /\
  (is_parsed (parse_top (main_parser prog) ("shell" :: toks)) = true <-> toks = []).
Proof.
  intros Hp. split; [|split; [|split]].
  - rewrite is_parsed_parse_plain by done. apply fits_two.
  - rewrite is_parsed_parse_plain by done. apply fits_plus.
  - rewrite (is_parsed_parse_top_plain prog "convert" (convert_subparser prog)) by done.
    apply fits_convert.
  - rewrite (is_parsed_parse_top_plain prog "shell" (shell_subparser prog)) by done.
    apply fits_none.
Qed.

Lemma positional_arity_witness :
  is_parsed (parse convert_parser ["A"; "00"; "01"]) = false /\
  is_parsed (parse_top (main_parser "asn1tools") ("convert" :: ["a.asn"; "00"])) = false /\
  is_parsed (parse_top (main_parser "asn1tools") ("convert" :: ["a.asn"; "b.asn"; "A"; "00"]))
    = true.
Proof.
  destruct (positional_arity "asn1tools" ["A"; "00"; "01"]) as (H2 & _).
  { by repeat constructor. }
  destruct (positional_arity "asn1tools" ["a.asn"; "00"]) as (_ & _ & H3 & _).
  { by repeat constructor. }
  destruct (positional_arity "asn1tools" ["a.asn"; "b.asn"; "A"; "00"]) as (_ & _ & H4 & _).
  { by repeat constructor. }
  split; [|split].
  - apply not_true_is_false. intros Hx. apply H2 in Hx. discriminate Hx.
  - apply not_true_is_false. intros Hx. apply H3 in Hx. cbn in Hx. lia.
  - apply H4. cbn. lia.
Defined.

(** ** Abbreviated options, [--version] and [--help] *)

Lemma find_ambiguous_some opts pre t post l :
  "--" ∉ pre -> t <> "--" -> _parse_optional opts t = ambiguous l ->
  exists t' l', find_ambiguous opts (pre ++ t :: post) = Some (ambiguous_option t' l').
Proof.
  intros Hpre Ht Hp. induction pre as [|x pre IH]; cbn [app find_ambiguous].
  - apply String.eqb_neq in Ht. rewrite Ht, Hp. eauto.
  - apply not_elem_of_cons in Hpre as [Hx Hpre].
    assert (String.eqb x "--" = false) as -> by (apply String.eqb_neq; congruence).
    destruct (_parse_optional opts x); eauto.
Qed.

(** X13: [--v], [--ve] and [--ver] abbreviate both [--verbose] and
    [--version]: wherever one of them stands in front of a [--], the parse
    fails as ambiguous, the run ends with status 2 and the package is not
    called. *)
Theorem ambiguous_abbreviations `{Asn1Tools} prog t pre post w :
  t ∈ ["--v"; "--ve"; "--ver"] -> "--" ∉ pre ->
  (exists t' l,
     parse_top (main_parser prog) (pre ++ t :: post) = Failed prog (ambiguous_option t' l)) /\
  fst (run prog (pre ++ t :: post) w) = 2%Z /\
  calls (snd (run prog (pre ++ t :: post) w)) = calls w.
Proof.
  intros Ht Hpre.
  assert (exists t' l, find_ambiguous main_options (pre ++ t :: post)
                       = Some (ambiguous_option t' l)) as (t' & l & Hf).
  { cases_of Ht.
    - by apply (find_ambiguous_some _ _ _ _ ["--verbose"; "--version"]).
    - by apply (find_ambiguous_some _ _ _ _ ["--verbose"; "--version"]).
    - by apply (find_ambiguous_some _ _ _ _ ["--verbose"; "--version"]). }
  assert (parse_top (main_parser prog) (pre ++ t :: post) = Failed prog (ambiguous_option t' l))
    as Hp.
  { unfold parse_top. by rewrite main_parser_optionals, Hf. }
  split; [by eauto|]. unfold run, _main, bind. by rewrite Hp.
Qed.

Lemma ambiguous_abbreviations_witness :
  fst (run (H:=octets) "asn1tools" (["-d"] ++ "--ver" :: ["2"; "shell"]) (world_with [] [])) = 2%Z.
Proof.
  destruct (ambiguous_abbreviations (H:=octets) "asn1tools" "--ver" ["-d"] ["2"; "shell"]
              (world_with [] [])) as (_ & Hs & _).
  - apply elem_of_cons. right. apply elem_of_cons. right. apply elem_of_cons. by left.
  - intros Hin. cases_of Hin.
  - exact Hs.
Defined.

Lemma prefix_prefixes s : forall t, String.prefix t s = true -> t ∈ prefixes s.
Proof.
  induction s as [|c s IH]; intros [|c' t] Hp; cbn [prefixes]; try (by left); [discriminate Hp|].
  cbn [String.prefix] in Hp. destruct (ascii_dec c' c) as [->|]; [|discriminate Hp].
  right. apply list_elem_of_fmap. exists t. split; [done|]. by apply IH.
Qed.

(** Two arguments that a parser reads as the same option are
    interchangeable in front of [--]. *)
Lemma find_ambiguous_same opts t t' post pre :
  (forall l, _parse_optional opts t <> ambiguous l) ->
  (forall l, _parse_optional opts t' <> ambiguous l) ->
  t <> "--" -> t' <> "--" ->
  find_ambiguous opts (pre ++ t :: post) = find_ambiguous opts (pre ++ t' :: post).
Proof.
  intros Ha Ha' Ht Ht'. induction pre as [|x pre IH]; cbn [app find_ambiguous].
  - apply String.eqb_neq in Ht, Ht'. rewrite Ht, Ht'.
    destruct (_parse_optional opts t) eqn:E; [| |by destruct (Ha matches)];
      destruct (_parse_optional opts t') eqn:E'; try done; by destruct (Ha' matches).
  - by rewrite IH.
Qed.

Lemma consume_same p t t' a o e post :
  _parse_optional (optionals p) t = optional (Some a) o e ->
  _parse_optional (optionals p) t' = optional (Some a) o e ->
  t <> "--" -> t' <> "--" ->
  forall pre pending st, "--" ∉ pre ->
  consume p (pre ++ t :: post) pending st = consume p (pre ++ t' :: post) pending st.
Proof.
  intros Hp Hp' Ht Ht'. apply String.eqb_neq in Ht, Ht'.
  induction pre as [|x pre IH]; intros pending st Hpre; cbn [app].
  - rewrite !consume_cons, Ht, Ht', Hp, Hp'. done.
  - apply not_elem_of_cons in Hpre as [Hx Hpre].
    rewrite !consume_cons.
    assert (String.eqb x "--" = false) as -> by (apply String.eqb_neq; congruence).
    destruct pending as [[l b]|].
    + destruct (_parse_optional (optionals p) x); try done.
      destruct (take_actions _ _ _); try done. cbn [and_then]. by apply IH.
    + destruct (_parse_optional (optionals p) x) as [|[b|] os ex|]; try done;
        try (by apply IH).
      destruct (consume_optional _ _ _ _); try done; [|by apply IH].
      destruct (take_actions _ _ _); try done. cbn [and_then]. by apply IH.
Qed.

Lemma parse_known_args_same p t t' a o e pre post ns :
  _parse_optional (optionals p) t = optional (Some a) o e ->
  _parse_optional (optionals p) t' = optional (Some a) o e ->
  t <> "--" -> t' <> "--" -> "--" ∉ pre ->
  parse_known_args p (pre ++ t :: post) ns = parse_known_args p (pre ++ t' :: post) ns.
Proof.
  intros Hp Hp' Ht Ht' Hpre. unfold parse_known_args.
  rewrite (find_ambiguous_same _ t t') by (done || congruence).
  destruct (find_ambiguous _ _); [done|]. by apply (consume_same p t t' a o e).
Qed.

(** The abbreviations of the two codec options, for the parsers that have
    them and for the main parser, which has not. *)
Lemma codec_option_prefix t full :
  full = "--input-codec" \/ full = "--output-codec" ->
  String.prefix t full = true -> 3 <= String.length t ->
  t <> "--" /\
  (exists a, _parse_optional convert_options t = optional (Some a) full None /\
             _parse_optional convert_options full = optional (Some a) full None) /\
  (forall l, _parse_optional main_options t <> ambiguous l).
Proof.
  intros [-> | ->] Hp Hl; apply prefix_prefixes in Hp; vm_compute in Hp; cases_of Hp;
    try (cbn in Hl; lia);
    (split; [done|]; split; [eexists; split; reflexivity|]; intros l; vm_compute; discriminate).
Qed.

(** X14: a prefix of [--input-codec] or [--output-codec] of three
    characters or more, in front of a [--], is read as the option itself
    by the shell's [compile] and by the [convert] subcommand. *)
Theorem codec_option_abbreviations prog t full pre post :
  full = "--input-codec" \/ full = "--output-codec" ->
  String.prefix t full = true -> 3 <= String.length t -> "--" ∉ pre ->
  parse compile_parser (pre ++ t :: post) = parse compile_parser (pre ++ full :: post) /\
  parse_top (main_parser prog) ("convert" :: pre ++ t :: post) =
    parse_top (main_parser prog) ("convert" :: pre ++ full :: post).
Proof.
  intros Hfull Hp Hl Hpre.
  assert (full <> "--") as Hne by (destruct Hfull as [-> | ->]; discriminate).
  assert (forall l, _parse_optional main_options full <> ambiguous l) as Hmain
    by (destruct Hfull as [-> | ->]; intros l; vm_compute; discriminate).
  destruct (codec_option_prefix t full Hfull Hp Hl) as (Ht & (a & Ha & Ha') & Hm).
  split.
  - unfold parse. by rewrite (parse_known_args_same compile_parser t full a full None).
  - unfold parse_top. rewrite main_parser_optionals.
    change ("convert" :: pre ++ t :: post) with (("convert" :: pre) ++ t :: post).
    change ("convert" :: pre ++ full :: post) with (("convert" :: pre) ++ full :: post).
    rewrite (find_ambiguous_same main_options t full post ("convert" :: pre)) by done.
    cbn [app].
    destruct (find_ambiguous _ _); [done|].
    rewrite !consume_top_cons. cbv zeta. rewrite main_parser_optionals.
    change (String.eqb "convert" "--") with false. cbv iota.
    change (_parse_optional main_options "convert") with positional. cbv iota.
    unfold call_subparser. cbn [find subparsers main_parser fst String.eqb Ascii.eqb Bool.eqb].
    by rewrite (parse_known_args_same (convert_subparser prog) t full a full None).
Qed.

Lemma codec_option_abbreviations_witness :
  parse compile_parser (["-i"; "uper"] ++ "--out" :: ["jer"; "a.asn"]) =
  parse compile_parser (["-i"; "uper"] ++ "--output-codec" :: ["jer"; "a.asn"]).
Proof.
  destruct (codec_option_abbreviations "asn1tools" "--out" "--output-codec" ["-i"; "uper"]
              ["jer"; "a.asn"]) as [Hc _].
  - by right.
  - reflexivity.
  - cbn. lia.
  - intros Hin. cases_of Hin.
  - exact Hc.
Defined.



(** ** Options of another parser *)

(** An argument that a parser reads as an option it does not have is left
    over, wherever it stands in front of [--]. *)
Lemma consume_unknown p o os e post :
  o <> "--" -> _parse_optional (optionals p) o = optional None os e ->
  forall pre pending st, "--" ∉ pre ->
  leftovers (consume p (pre ++ o :: post) pending st).
Proof.
  intros Ho Hp. apply String.eqb_neq in Ho.
  induction pre as [|t pre IH]; intros pending st Hdd.
  - cbn [app]. rewrite consume_cons, Ho, Hp.
    destruct pending as [[l a]|]; [done|].
    apply consume_leftovers. simpl. intros Heq. by apply app_eq_nil in Heq as [_ ?].
  - assert (t <> "--") as Ht by (intros ->; apply Hdd; by left).
    assert ("--" ∉ pre) as Hpre by (intros Hin; apply Hdd; by right).
    apply String.eqb_neq in Ht. cbn [app]. rewrite consume_cons, Ht.
    destruct pending as [[l a]|].
    + destruct (_parse_optional (optionals p) t); try done.
      apply leftovers_and_then. intros ns. by apply IH.
    + destruct (_parse_optional (optionals p) t) as [|[a|] os' e'|]; try done.
      * by apply IH.
      * destruct (consume_optional (optionals p) a os' e'); try done.
        -- apply leftovers_and_then. intros ns. by apply IH.
        -- by apply IH.
      * by apply IH.
Qed.

Lemma parse_known_args_unknown p o os e pre post ns :
  o <> "--" -> _parse_optional (optionals p) o = optional None os e -> "--" ∉ pre ->
  leftovers (parse_known_args p (pre ++ o :: post) ns).
Proof.
  intros Ho Hp Hpre. unfold parse_known_args.
  destruct (find_ambiguous _ _); [done|]. by apply (consume_unknown p o os e).
Qed.

(** X16: an option is read only by the parser that declares it: behind
    the name of the subcommand, [-d], [--debug], [-v], [--verbose] and
    [--version] make the parse fail, and so do the codec options as the
    first argument of the command line, behind [shell], and among the
    arguments of the shell's [convert]. *)
Theorem options_of_other_parsers prog pre post :
  "--" ∉ pre ->
  (forall o name,
     o ∈ ["-d"; "--debug"; "-v"; "--verbose"; "--version"] -> name ∈ ["convert"; "shell"] ->
     is_parsed (parse_top (main_parser prog) (name :: pre ++ o :: post)) = false) /\
  (forall o,
     o ∈ ["-i"; "--input-codec"; "-o"; "--output-codec"] ->
     is_parsed (parse_top (main_parser prog) (o :: post)) = false /\
     is_parsed (parse_top (main_parser prog) ("shell" :: pre ++ o :: post)) = false /\
     is_parsed (parse convert_parser (pre ++ o :: post)) = false).
Proof.
  intros Hpre.
  assert (forall name sub o,
            find (fun np => String.eqb (fst np) name) (subparsers (main_parser prog))
              = Some (name, sub) ->
            plain name = true -> o <> "--" ->
            (exists os e, _parse_optional (optionals sub) o = optional None os e) ->
            is_parsed (parse_top (main_parser prog) (name :: pre ++ o :: post)) = false) as Hsub.
  { intros name sub o Hf Hn Ho (os & e & Hp). unfold parse_top.
    destruct (find_ambiguous _ _); [done|].
    apply no_extras_leftovers.
    rewrite consume_top_cons. cbv zeta. rewrite main_parser_optionals.
    rewrite (plain_not_separator name Hn), (plain_positional main_options name eq_refl Hn).
    apply call_subparser_leftovers. right. intros sub' ns0 Hin.
    assert (sub' = sub) as ->.
    { cbn [subparsers main_parser] in Hin, Hf. cases_of Hin; cbn in Hf; congruence. }
    by apply (parse_known_args_unknown sub o os e). }
  split.
  - intros o name Ho Hname. cases_of Hname.
    + apply (Hsub "convert" (convert_subparser prog)); [done|done| |].
      * intros ->. cases_of Ho.
      * cases_of Ho; eexists _, _; reflexivity.
    + apply (Hsub "shell" (shell_subparser prog)); [done|done| |].
      * intros ->. cases_of Ho.
      * cases_of Ho; eexists _, _; reflexivity.
  - intros o Ho. split; [|split].
    + unfold parse_top. destruct (find_ambiguous _ _); [done|].
      apply no_extras_leftovers. rewrite consume_top_cons. cbv zeta.
      rewrite main_parser_optionals.
      assert (String.eqb o "--" = false) as -> by (cases_of Ho; reflexivity).
      assert (exists os e, _parse_optional main_options o = optional None os e)
        as (os & e & ->) by (cases_of Ho; eexists _, _; reflexivity).
      apply consume_top_leftovers. discriminate.
    + apply (Hsub "shell" (shell_subparser prog)); [done|done| |].
      * intros ->. cases_of Ho.
      * cases_of Ho; eexists _, _; reflexivity.
    + apply no_extras_leftovers.
      assert (o <> "--") as Hne by (intros ->; cases_of Ho).
      assert (exists os e, _parse_optional (optionals convert_parser) o = optional None os e)
        as (os & e & Hp) by (cases_of Ho; eexists _, _; reflexivity).
      by apply (parse_known_args_unknown convert_parser o os e).
Qed.

Lemma options_of_other_parsers_witness :
  is_parsed (parse_top (main_parser "asn1tools")
               ("convert" :: ["a.asn"; "A"] ++ "--debug" :: ["00"])) = false /\
  is_parsed (parse convert_parser (["A"] ++ "-o" :: ["der"; "00"])) = false.
Proof.
  destruct (options_of_other_parsers "asn1tools" ["a.asn"; "A"] ["00"]) as [Hmain _].
  { intros Hin. cases_of Hin. }
  destruct (options_of_other_parsers "asn1tools" ["A"] ["der"; "00"]) as [_ Hcodec].
  { intros Hin. cases_of Hin. }
  split.
  - apply Hmain.
    + apply elem_of_cons. right. apply elem_of_cons. by left.
    + apply elem_of_cons. by left.
  - apply Hcodec. apply elem_of_cons. right. apply elem_of_cons. right. apply elem_of_cons. by left.
Defined.
